(** * The ENKK register scraper: crawl controller, canonical keys, artifact retrieval

    A shallow embedding of [scraper_enkk.py].  Pure helpers ([normalize],
    [row_key], [sanitize_filename], [extract_url_from_js], ...) are Rocq
    functions over Python text; the browser automation layer (Playwright) is
    an explicit world that the effectful functions thread through a small
    state-and-exception monad, together with a trace of the driver calls
    they make.

    Part I holds the definitions, each next to the lines of the source it
    embeds; Part II holds the lemmas and the theorems about the design's
    claims; Part III holds further properties of the code: the helpers on
    text and file names, the invariants of the loop of [run], the calls it
    makes, and the helpers that look for the search button and wait on the
    listing page. *)

From Stdlib Require Import String Ascii DecimalString.
From Stdlib Require Import ZArith NArith List Bool Lia Permutation.
Import ListNotations.

Set Implicit Arguments.

(* ====================================================================== *)
(** * Part I: definitions *)
(* ====================================================================== *)

(** ** Python text

    A Python [str] is a sequence of code points; [len] counts code points,
    comparison is lexicographic on them.  Code points are kept as [N]. *)

Definition char := N.
Definition str := list char.

(** An ASCII literal of the source, as text. *)
Definition lit (s : String.string) : str :=
  map N_of_ascii (String.list_ascii_of_string s).
Arguments lit s%_string.

Fixpoint str_eqb (a b : str) : bool :=
  match a, b with
  | [], [] => true
  | x :: a', y :: b' => (x =? y)%N && str_eqb a' b'
  | _, _ => false
  end.

(** Truthiness of a string: [if s:]. *)
Definition nonempty (s : str) : bool :=
  match s with [] => false | _ :: _ => true end.

(** [t in l] for a list or a set of strings. *)
Definition str_mem (t : str) (l : list str) : bool := existsb (str_eqb t) l.

(** Truthiness of a list: [if rows:]. *)
Definition nonempty_list {A : Type} (l : list A) : bool :=
  match l with [] => false | _ :: _ => true end.

(** [x or y] on strings. *)
Definition str_or (x y : str) : str := if nonempty x then x else y.

(** [s.startswith(p)] *)
Fixpoint startswith (p s : str) : bool :=
  match p, s with
  | [], _ => true
  | _ :: _, [] => false
  | a :: p', b :: s' => (a =? b)%N && startswith p' s'
  end.

(** [needle in hay] *)
Fixpoint contains (needle hay : str) : bool :=
  startswith needle hay ||
  match hay with
  | [] => false
  | _ :: hay' => contains needle hay'
  end.

(** [any(m in s for m in markers)] *)
Definition any_in (markers : list str) (s : str) : bool :=
  existsb (fun m => contains m s) markers.
Arguments any_in : simpl never.

(** [str.isspace] on one code point: the white-space set that the
    argument-less [strip()] removes. *)
Definition is_space (c : char) : bool :=
  ((9 <=? c) && (c <=? 13) || (28 <=? c) && (c <=? 32)
   || (c =? 133) || (c =? 160) || (c =? 5760)
   || (8192 <=? c) && (c <=? 8202)
   || (c =? 8232) || (c =? 8233) || (c =? 8239) || (c =? 8287)
   || (c =? 12288))%N.

Fixpoint lstrip_by (p : char -> bool) (s : str) : str :=
  match s with
  | [] => []
  | c :: s' => if p c then lstrip_by p s' else s
  end.

Definition rstrip_by (p : char -> bool) (s : str) : str :=
  rev (lstrip_by p (rev s)).

Definition strip_by (p : char -> bool) (s : str) : str :=
  rstrip_by p (lstrip_by p s).

(** [s.strip()] *)
Definition strip (s : str) : str := strip_by is_space s.

Definition is_slash (c : char) : bool := (c =? 47)%N.

(** [s.rstrip("/")] *)
Definition rstrip_slash (s : str) : str := rstrip_by is_slash s.

(** Lexicographic comparison of two strings by code point ([<] on [str]). *)
Fixpoint str_cmp (a b : str) : comparison :=
  match a, b with
  | [], [] => Eq
  | [], _ :: _ => Lt
  | _ :: _, [] => Gt
  | x :: a', y :: b' =>
      match (x ?= y)%N with
      | Eq => str_cmp a' b'
      | c => c
      end
  end.

Definition str_ltb (a b : str) : bool :=
  match str_cmp a b with Lt => true | _ => false end.

(** ** What the Python runtime supplies

    Three things the program calls are tables or library code of the
    runtime, not of the repository: Unicode case folding beyond ASCII, the
    Unicode alphanumeric class beyond ASCII (behind [\w] of [re]), and
    [urllib.parse.urljoin].  They are taken as given; everything below holds
    for every choice of them. *)

Class Runtime := {
  uni_fold : char -> str;
  uni_alnum : char -> bool;
  urljoin : str -> str -> str
}.

Definition ascii_lower (c : char) : char :=
  if ((65 <=? c) && (c <=? 90))%N then (c + 32)%N else c.

(** [s.casefold()]: full case folding, one code point at a time. *)
Definition casefold `{Runtime} (s : str) : str :=
  flat_map (fun c => if (c <? 128)%N then [ascii_lower c] else uni_fold c) s.

Definition ascii_alnum (c : char) : bool :=
  ((48 <=? c) && (c <=? 57) || (65 <=? c) && (c <=? 90)
   || (97 <=? c) && (c <=? 122))%N.

(** A word character of [re] with the [UNICODE] flag: alphanumeric or [_]. *)
Definition is_word `{Runtime} (c : char) : bool :=
  (c =? 95)%N || (if (c <? 128)%N then ascii_alnum c else uni_alnum c).

(** ** Row values and rows

    [extract_rows] fills a record with the normalized cell texts, four hint
    strings and the integer [_row_index]; [dict.get] of an absent key gives
    [None].  A row is a Python [dict]: keys are unique and iteration follows
    insertion order, so it is kept as an association list. *)

Inductive value :=
| VNone
| VStr (s : str)
| VInt (z : Z).

Definition row := list (str * value).

(** [str(v)] *)
Definition py_str (v : value) : str :=
  match v with
  | VNone => lit "None"
  | VStr s => s
  | VInt z => lit (NilZero.string_of_int (Z.to_int z))
  end.

(** [normalize], lines 49-52. *)
Definition normalize (v : value) : str :=
  match v with
  | VNone => []
  | _ => strip (py_str v)
  end.

(** [d.get(k)], with [None] for a missing key. *)
Fixpoint dict_get (d : row) (k : str) : value :=
  match d with
  | [] => VNone
  | (k', v) :: d' => if str_eqb k' k then v else dict_get d' k
  end.

(** [d[k] = v] on an insertion-ordered dict: an existing key keeps its
    place and takes the new value, a new key goes last. *)
Fixpoint dict_set {V : Type} (d : list (str * V)) (k : str) (v : V) : list (str * V) :=
  match d with
  | [] => [(k, v)]
  | (k', v') :: d' =>
      if str_eqb k' k then (k', v) :: d' else (k', v') :: dict_set d' k v
  end.

Fixpoint dict_lookup {V : Type} (d : list (str * V)) (k : str) : option V :=
  match d with
  | [] => None
  | (k', v) :: d' => if str_eqb k' k then Some v else dict_lookup d' k
  end.

(** [k in d] *)
Definition dict_mem {V : Type} (d : list (str * V)) (k : str) : bool :=
  match dict_lookup d k with Some _ => true | None => false end.

(** The invariant of a dict: no key twice. *)
Definition dict_wf {V : Type} (d : list (str * V)) : Prop := NoDup (map fst d).

(** ** The Result Canonicalizer: [row_key], lines 361-389 *)

(** "a" with acute, "e" with acute, "o" with acute, "i" with acute. *)
Definition a_acute : char := 225%N.
Definition e_acute : char := 233%N.
Definition i_acute : char := 237%N.
Definition o_acute : char := 243%N.

Definition key_markers : list str :=
  [ lit "nyilvantartasi";
    lit "nyilv" ++ [a_acute] ++ lit "ntart" ++ [a_acute] ++ lit "si";
    lit "pecsetszam";
    lit "pecs" ++ [e_acute] ++ lit "tsz" ++ [a_acute] ++ lit "m";
    lit "azonosito";
    lit "azonos" ++ [i_acute] ++ lit "t" ++ [o_acute] ].

Definition name_markers : list str :=
  [ lit "nev"; lit "n" ++ [e_acute] ++ lit "v" ].

(** [k.startswith("_")]: the hint fields of a row. *)
Definition is_hint (k : str) : bool := startswith (lit "_") k.

(** The first loop of [row_key]: the first non-hint column whose folded
    label holds an identifier marker and whose value is not blank. *)
Fixpoint scan_id `{Runtime} (r : row) : option str :=
  match r with
  | [] => None
  | (k, v) :: r' =>
      if is_hint k then scan_id r'
      else if any_in key_markers (casefold k)
           then (let val := normalize v in
                 if nonempty val then Some val else scan_id r')
           else scan_id r'
  end.

(** The second loop: [name] is overwritten by each name column met and the
    loop stops at the first one that is not blank. *)
Fixpoint scan_name `{Runtime} (name : str) (r : row) : str :=
  match r with
  | [] => name
  | (k, v) :: r' =>
      if is_hint k then scan_name name r'
      else if any_in name_markers (casefold k)
           then (let name' := normalize v in
                 if nonempty name' then name' else scan_name name' r')
           else scan_name name r'
  end.

(** [{k: v for k, v in row.items() if not k.startswith("_")}] *)
Definition canonical (r : row) : row :=
  filter (fun kv => negb (is_hint (fst kv))) r.

(** *** [json.dumps(canonical, sort_keys=True, ensure_ascii=False)] *)

Definition hex_digit (n : N) : char :=
  (if n <? 10 then 48 + n else 87 + n)%N.

(** One code point inside a JSON string, [ensure_ascii=False]: the quote,
    the backslash and the control characters are escaped, nothing else. *)
Definition backslash : char := 92%N.
Definition dquote : char := 34%N.

Definition json_escape_char (c : char) : str :=
  if (c =? dquote)%N then [backslash; dquote]
  else if (c =? backslash)%N then [backslash; backslash]
  else if (c =? 8)%N then backslash :: lit "b"
  else if (c =? 12)%N then backslash :: lit "f"
  else if (c =? 10)%N then backslash :: lit "n"
  else if (c =? 13)%N then backslash :: lit "r"
  else if (c =? 9)%N then backslash :: lit "t"
  else if (c <? 32)%N
       then backslash :: lit "u00" ++ [hex_digit (c / 16); hex_digit (c mod 16)]
  else [c].

Definition json_string (s : str) : str :=
  [dquote] ++ flat_map json_escape_char s ++ [dquote].

Definition json_value (v : value) : str :=
  match v with
  | VNone => lit "null"
  | VStr s => json_string s
  | VInt z => lit (NilZero.string_of_int (Z.to_int z))
  end.

(** Sorting the items of a dict by key.  [sorted] is stable and compares
    with [<] only; on unique keys its result is the one sorted arrangement,
    which insertion produces as well. *)
Fixpoint insert_item (x : str * value) (l : list (str * value)) : list (str * value) :=
  match l with
  | [] => [x]
  | y :: l' => if str_ltb (fst y) (fst x) then y :: insert_item x l' else x :: l
  end.

Definition sorted_items (d : row) : list (str * value) :=
  fold_right insert_item [] d.

Definition json_item (kv : str * value) : str :=
  json_string (fst kv) ++ lit ": " ++ json_value (snd kv).

(** [", ".join(parts)] *)
Fixpoint join (sep : str) (parts : list str) : str :=
  match parts with
  | [] => []
  | [p] => p
  | p :: ps => p ++ sep ++ join sep ps
  end.

Definition json_dumps_sorted (d : row) : str :=
  lit "{" ++ join (lit ", ") (map json_item (sorted_items d)) ++ lit "}".

Definition row_key `{Runtime} (r : row) : str :=
  match scan_id r with
  | Some val => lit "id:" ++ val
  | None =>
      lit "name:" ++ scan_name [] r ++ lit "|row:" ++ json_dumps_sorted (canonical r)
  end.

(** The columns the first loop of [row_key] tests, and those of the second. *)
Definition is_id_column `{Runtime} (kv : str * value) : bool :=
  any_in key_markers (casefold (fst kv)).

Definition is_name_column `{Runtime} (kv : str * value) : bool :=
  any_in name_markers (casefold (fst kv)).

(** ** Exceptions

    The exceptions the program meets.  Playwright's [TimeoutError] is a
    subclass of its [Error], so [except PlaywrightError] catches both. *)

Inductive exn :=
| RuntimeError (msg : str)
| PlaywrightError
| PlaywrightTimeoutError
| UnicodeEncodeError.

Definition is_playwright_error (e : exn) : bool :=
  match e with
  | PlaywrightError | PlaywrightTimeoutError => true
  | _ => false
  end.

Inductive res (A : Type) :=
| Ret (a : A)
| Raise (e : exn).
Arguments Ret {A} a.
Arguments Raise {A} e.

(** ** [first_row_value_by_markers], lines 392-399

    Unlike [row_key] it looks at every key, hint fields included. *)
Fixpoint first_row_value_by_markers `{Runtime} (r : row) (markers : list str) : str :=
  match r with
  | [] => []
  | (key, v) :: r' =>
      if any_in markers (casefold key)
      then (let val := normalize v in
            if nonempty val then val else first_row_value_by_markers r' markers)
      else first_row_value_by_markers r' markers
  end.

(** ** [sanitize_filename], lines 402-404 *)

Definition underscore : char := 95%N.

(** The characters the pattern [[^\w\-.]+] leaves alone. *)
Definition filename_char `{Runtime} (c : char) : bool :=
  is_word c || (c =? 45)%N || (c =? 46)%N.

(** [re.sub(pattern, "_", value)] for a pattern that matches the maximal
    runs of characters outside [keep]: each run becomes one underscore.
    [in_run] says that the previous character was part of a run. *)
Fixpoint sub_runs (keep : char -> bool) (in_run : bool) (s : str) : str :=
  match s with
  | [] => []
  | c :: s' =>
      if keep c then c :: sub_runs keep false s'
      else if in_run then sub_runs keep true s'
      else underscore :: sub_runs keep true s'
  end.

(** [s.strip("._")] *)
Definition strip_dots (s : str) : str :=
  strip_by (fun c => (c =? 46)%N || (c =? underscore)%N) s.

Definition cleaned_filename `{Runtime} (v : str) : str :=
  strip_dots (sub_runs filename_char false v).

Definition sanitize_filename `{Runtime} (v : str) : str :=
  str_or (firstn 90 (cleaned_filename v)) (lit "unknown").

(** ** UTF-8 and SHA-1, as [hashlib.sha1(seed.encode("utf-8")).hexdigest()] uses them *)

(** [str.encode("utf-8")] of one code point; a surrogate code point has no
    encoding and makes [encode] raise [UnicodeEncodeError]. *)
Definition utf8_char (c : char) : option (list N) :=
  (if c <? 128 then Some [c]
   else if c <? 2048 then Some [192 + c / 64; 128 + c mod 64]
   else if (55296 <=? c) && (c <=? 57343) then None
   else if c <? 65536
        then Some [224 + c / 4096; 128 + (c / 64) mod 64; 128 + c mod 64]
   else if c <? 1114112
        then Some [240 + c / 262144; 128 + (c / 4096) mod 64;
                   128 + (c / 64) mod 64; 128 + c mod 64]
   else None)%N.

Fixpoint utf8_encode (s : str) : option (list N) :=
  match s with
  | [] => Some []
  | c :: s' =>
      match utf8_char c, utf8_encode s' with
      | Some b, Some bs => Some (b ++ bs)
      | _, _ => None
      end
  end.

(** A code point that UTF-8 encodes: a Unicode scalar value. *)
Definition is_scalar (c : char) : bool :=
  ((c <? 55296) || (57343 <? c) && (c <? 1114112))%N.

Module Sha1.

(** 32-bit words are kept in [N], reduced modulo [2^32] after each sum and
    shift. *)
Definition w32 (x : N) : N := (x mod 4294967296)%N.

Definition rotl (n x : N) : N :=
  w32 (N.lor (N.shiftl x n) (N.shiftr x (32 - n))).

Definition be32 (b0 b1 b2 b3 : N) : N :=
  (b0 * 16777216 + b1 * 65536 + b2 * 256 + b3)%N.

Definition be64_bytes (n : N) : list N :=
  map (fun i => (N.shiftr n (8 * i) mod 256)%N) [7; 6; 5; 4; 3; 2; 1; 0]%N.

(** The message, the bit 1, zero bits up to 56 bytes modulo 64, and the bit
    length on 8 bytes. *)
Definition pad (msg : list N) : list N :=
  let l := length msg in
  let k := ((55 + 64 - l mod 64) mod 64)%nat in
  msg ++ [128%N] ++ repeat 0%N k ++ be64_bytes (8 * N.of_nat l).

Fixpoint words_of (bytes : list N) : list N :=
  match bytes with
  | b0 :: b1 :: b2 :: b3 :: rest => be32 b0 b1 b2 b3 :: words_of rest
  | _ => []
  end.

(** The message schedule, newest word first: [rev_w] holds W[t-1], W[t-2],
    ... and [n] more words are added. *)
Fixpoint schedule (n : nat) (rev_w : list N) : list N :=
  match n with
  | O => rev_w
  | S n' =>
      let w := rotl 1 (N.lxor (N.lxor (nth 2 rev_w 0) (nth 7 rev_w 0))
                              (N.lxor (nth 13 rev_w 0) (nth 15 rev_w 0)))%N in
      schedule n' (w :: rev_w)
  end.

Definition state := (N * N * N * N * N)%type.

Definition round_fk (t : nat) (b c d : N) : N * N :=
  if (t <? 20)%nat
  then (N.lor (N.land b c) (N.land (N.lxor b 4294967295) d), 1518500249%N)
  else if (t <? 40)%nat then (N.lxor (N.lxor b c) d, 1859775393%N)
  else if (t <? 60)%nat
  then (N.lor (N.lor (N.land b c) (N.land b d)) (N.land c d), 2400959708%N)
  else (N.lxor (N.lxor b c) d, 3395469782%N).

Fixpoint rounds (t : nat) (ws : list N) (s : state) : state :=
  match ws with
  | [] => s
  | w :: ws' =>
      let '(a, b, c, d, e) := s in
      let '(f, k) := round_fk t b c d in
      let temp := w32 (rotl 5 a + f + e + k + w) in
      rounds (S t) ws' (temp, a, rotl 30 b, c, d)
  end.

Definition compress (s : state) (block : list N) : state :=
  let ws := rev (schedule 64 (rev (words_of block))) in
  let '(h0, h1, h2, h3, h4) := s in
  let '(a, b, c, d, e) := rounds 0 ws s in
  (w32 (h0 + a), w32 (h1 + b), w32 (h2 + c), w32 (h3 + d), w32 (h4 + e)).

(** [n] blocks of 64 bytes, one after the other. *)
Fixpoint blocks (n : nat) (bytes : list N) (s : state) : state :=
  match n with
  | O => s
  | S n' => blocks n' (skipn 64 bytes) (compress s (firstn 64 bytes))
  end.

Definition init : state :=
  (1732584193, 4023233417, 2562383102, 271733878, 3285377520)%N.

Definition digest (msg : list N) : state :=
  let p := pad msg in
  blocks (length p / 64) p init.

Definition hex8 (w : N) : str :=
  map (fun i => hex_digit ((w / 16 ^ i) mod 16)%N) [7; 6; 5; 4; 3; 2; 1; 0]%N.

Definition hexdigest (msg : list N) : str :=
  let '(h0, h1, h2, h3, h4) := digest msg in
  hex8 h0 ++ hex8 h1 ++ hex8 h2 ++ hex8 h3 ++ hex8 h4.

End Sha1.

Definition is_hex (c : char) : bool :=
  ((48 <=? c) && (c <=? 57) || (97 <=? c) && (c <=? 102))%N.

(** ** [build_pdf_path], lines 457-466 *)

(** A [Path]: a directory and the name of a file in it. *)
Record path := mk_path { path_dir : str; path_name : str }.

Definition pdf_seed `{Runtime} (r : row) (detail_url : str) : str :=
  row_key r ++ lit "|" ++ detail_url.

Definition build_pdf_path `{Runtime} (output_dir : str) (r : row) (detail_url : str)
  : res path :=
  let reg_id := first_row_value_by_markers r key_markers in
  let doc_name := first_row_value_by_markers r name_markers in
  match utf8_encode (pdf_seed r detail_url) with
  | None => Raise UnicodeEncodeError
  | Some bytes =>
      let digest := firstn 10 (Sha1.hexdigest bytes) in
      let file_name :=
        sanitize_filename (str_or reg_id (lit "id")) ++ lit "_"
        ++ sanitize_filename (str_or doc_name (lit "orvos")) ++ lit "_"
        ++ digest ++ lit ".pdf" in
      Ret (mk_path output_dir file_name)
  end.

(** ** [extract_url_from_js], lines 407-424 *)

Definition is_quote (c : char) : bool := (c =? 39)%N || (c =? dquote)%N.

(** [re.findall] of a quote, one or more characters that are no quote, and
    a quote, read left to right: [opened] is [None] outside a candidate and
    holds the characters read since the opening quote inside one.  A quote
    that follows a quote at once opens anew; a candidate still open at the
    end of the text is no match. *)
Fixpoint scan_quoted (opened : option str) (s : str) : list str :=
  match s with
  | [] => []
  | c :: s' =>
      match opened with
      | None =>
          if is_quote c then scan_quoted (Some []) s' else scan_quoted None s'
      | Some tok =>
          if is_quote c
          then (if nonempty tok then tok :: scan_quoted None s'
                else scan_quoted (Some []) s')
          else scan_quoted (Some (tok ++ [c])) s'
      end
  end.

Definition url_markers : list str := [ lit "adatlap"; lit "pdf"; lit "print" ].

(** [token_norm in {"/", "#"}] *)
Definition is_placeholder (t : str) : bool :=
  str_eqb t (lit "/") || str_eqb t (lit "#").

(** [token_norm.startswith(("http://", "https://", "/"))] *)
Definition is_absolute_ref (t : str) : bool :=
  startswith (lit "http://") t || startswith (lit "https://") t
  || startswith (lit "/") t.

(** The loop over the candidates. *)
Fixpoint first_url `{Runtime} (base_url : str) (candidates : list str) : str :=
  match candidates with
  | [] => []
  | token :: rest =>
      let token_norm := strip token in
      if negb (nonempty token_norm) then first_url base_url rest
      else if is_placeholder token_norm then first_url base_url rest
      else if is_absolute_ref token_norm
      then (let resolved := urljoin base_url token_norm in
            if str_eqb (rstrip_slash resolved) (rstrip_slash base_url)
            then first_url base_url rest
            else resolved)
      else if any_in url_markers (casefold token_norm)
      then urljoin base_url token_norm
      else first_url base_url rest
  end.

Definition extract_url_from_js `{Runtime} (js_code base_url : str) : str :=
  if negb (nonempty js_code) then []
  else first_url base_url (scan_quoted None js_code).

(** ** [is_useless_detail_url], lines 427-436 *)
Definition is_useless_detail_url `{Runtime} (url base_url : str) : bool :=
  let url_norm := normalize (VStr url) in
  if negb (nonempty url_norm) then true
  else if is_placeholder url_norm then true
  else str_eqb (rstrip_slash (urljoin base_url url_norm)) (rstrip_slash base_url).

(** ** [detail_url_from_row], lines 439-454 *)
Definition detail_url_from_row `{Runtime} (r : row) (base_url : str) : str :=
  let direct := normalize (dict_get r (lit "_detail_url")) in
  if nonempty direct && negb (is_useless_detail_url direct base_url) then direct
  else
    let href := normalize (dict_get r (lit "_detail_href")) in
    if nonempty href
       && negb (startswith (lit "javascript:") (casefold href))
       && negb (is_useless_detail_url href base_url)
    then urljoin base_url href
    else
      let onclick := normalize (dict_get r (lit "_detail_onclick")) in
      let parsed := extract_url_from_js onclick base_url in
      if nonempty parsed then parsed else [].

(** ** The driver

    Everything the program asks of the browser and of the network, and the
    files it writes, is a call of the driver.  A call is named by an [op]
    indexed by the type of its answer; a [Driver] over a world [W] answers
    each call, with a value or an exception, and moves the world.  Two
    things are read off the world without a call: the [url] property of a
    page, which Playwright keeps locally, and the presence of a file.  The
    helper functions of the source that only talk to the page
    ([try_auto_slider], [click_search], [wait_for_results], [extract_rows],
    [open_detail_page_from_results_row], [is_probably_detail_page],
    [discover_pdf_links], [try_click_print_download], ...) are calls. *)

(** Pages of the browser context: the listing, and the pages opened for a
    detail view. *)
Inductive page :=
| ListingPage
| DetailPage (n : nat).

(** A located element of the page. *)
Definition handle := nat.

(** What [goto] and [request.get] answer: [response.ok], the
    [content-type] header ([None] when absent) and a name for the body. *)
Record response := mk_response {
  resp_ok : bool;
  resp_content_type : value;
  resp_body_id : nat
}.

(** What [extract_rows] returns: [rows], [rowCount], [totalHits]. *)
Record batch := mk_batch {
  rows : list row;
  rowCount : Z;
  totalHits : option Z
}.

Inductive op : Type -> Type :=
(* the session *)
| StartSession (headless : bool) (url : str) : op unit
| MaybeSelectRecordType (wanted : str) : op unit
| CloseSession : op unit
(* one search *)
| FirstVisibleNameInput : op (option handle)
| FieldClick (h : handle) : op unit
| FieldFill (h : handle) (text : str) : op unit
| FieldDispatchEvents (h : handle) : op unit
| TryAutoSlider (timeout_ms : Z) : op bool
| WaitForManualSlider (term : str) : op unit
| WaitForSearchEnabled (timeout_ms : Z) : op bool
| ClickSearch (allow_force_submit : bool) : op unit
| WaitForResults (timeout_ms : Z) : op unit
| ExtractRows : op batch
| WaitForTimeout (ms : Z) : op unit
(* one artifact *)
| NewPage : op page
| Goto (p : page) (url : str) (timeout_ms : Z) : op (option response)
| ResponseBody (r : response) : op (list N)
| WriteBytes (d : path) (body : list N) : op unit
| OpenDetailPageFromResultsRow (r : row) (timeout_ms : Z) : op (option page * str)
| IsProbablyDetailPage (p : page) : op bool
| RequestGet (url : str) (timeout_ms : Z) : op response
| DiscoverPdfLinks (p : page) : op (list str)
| TryClickPrintDownload (p : page) (d : path) (timeout_ms : Z) : op bool
| PagePdf (p : page) (d : path) : op unit
| ClosePage (p : page) : op unit
| GoBack (timeout_ms : Z) : op unit.

(** A call, whatever its answer type. *)
Inductive call := Call (T : Type) (o : op T).
Arguments Call {T} o.

Class Driver (W : Type) := {
  perform : forall T : Type, op T -> W -> res T * W;
  page_url : W -> page -> str;
  path_exists : W -> path -> bool
}.

(** ** State and exceptions

    [M S A]: a computation over a state [S] that returns an [A] or raises;
    the state survives an exception, as Python's heap does. *)

Definition M (S A : Type) : Type := S -> res A * S.

Definition ret {S A : Type} (a : A) : M S A := fun s => (Ret a, s).

Definition raise {S A : Type} (e : exn) : M S A := fun s => (Raise e, s).

Definition bind {S A B : Type} (m : M S A) (f : A -> M S B) : M S B :=
  fun s =>
    match m s with
    | (Ret a, s') => f a s'
    | (Raise e, s') => (Raise e, s')
    end.

Declare Scope monad_scope.
Delimit Scope monad_scope with monad.
Notation "x <- m ;; k" := (bind m (fun x => k))
  (at level 61, m at next level, right associativity) : monad_scope.
Notation "m ;; k" := (bind m (fun _ => k))
  (at level 61, right associativity) : monad_scope.
Open Scope monad_scope.

(** [try: m  except E: handler] for the exceptions [catches] accepts. *)
Definition try_except {S A : Type} (m : M S A) (catches : exn -> bool)
  (handler : M S A) : M S A :=
  fun s =>
    match m s with
    | (Raise e, s') => if catches e then handler s' else (Raise e, s')
    | r => r
    end.

(** [try: m  finally: fin]: [fin] runs on every exit of [m]; an exception
    of [fin] replaces the outcome of [m]. *)
Definition try_finally {S A : Type} (m : M S A) (fin : M S unit) : M S A :=
  fun s =>
    match m s with
    | (r, s') =>
        match fin s' with
        | (Ret _, s'') => (r, s'')
        | (Raise e, s'') => (Raise e, s'')
        end
    end.

(** The world and the calls made so far, oldest first. *)
Record session (W : Type) := mk_session {
  world : W;
  trace : list call
}.
Arguments mk_session {W} world trace.

(** A look at the world: no call, no change. *)
Definition observe {W A : Type} (f : W -> A) : M (session W) A :=
  fun s => (Ret (f (world s)), s).

(** One call of the driver, recorded in the trace. *)
Definition invoke {W : Type} `{Driver W} {T : Type} (o : op T) : M (session W) T :=
  fun s =>
    let (r, w') := perform o (world s) in
    (r, mk_session w' (trace s ++ [Call o])).

(** ** The Artifact Retrieval Chain *)

Section Retrieval.
Context {W : Type} `{Driver W} `{Runtime}.

(** [try_download_pdf_by_url], lines 507-522: the raw fetch.  Only the
    request itself is guarded. *)
Definition try_download_pdf_by_url (pdf_url : str) (destination : path)
  (timeout_ms : Z) : M (session W) bool :=
  fetched <- try_except
               (response <- invoke (RequestGet pdf_url timeout_ms) ;; ret (Some response))
               is_playwright_error (ret None) ;;
  match fetched with
  | None => ret false
  | Some response =>
      if negb (resp_ok response) then ret false
      else
        let content_type := casefold (normalize (resp_content_type response)) in
        if negb (contains (lit "pdf") content_type)
           && negb (contains (lit ".pdf") (casefold pdf_url))
        then ret false
        else
          body <- invoke (ResponseBody response) ;;
          invoke (WriteBytes destination body) ;;
          ret true
  end.

(** The loop over the discovered links: the first that downloads wins. *)
Fixpoint try_pdf_links (pdf_links : list str) (destination : path) (timeout_ms : Z)
  : M (session W) bool :=
  match pdf_links with
  | [] => ret false
  | pdf_url :: rest =>
      got <- try_download_pdf_by_url pdf_url destination timeout_ms ;;
      if got then ret true else try_pdf_links rest destination timeout_ms
  end.

(** [extract_pdf_from_open_detail_page], lines 685-722. *)
Definition extract_pdf_from_open_detail_page (detail_page : page) (destination : path)
  (timeout_ms : Z) (page_pdf_fallback : bool) : M (session W) (bool * str) :=
  is_detail <- invoke (IsProbablyDetailPage detail_page) ;;
  if negb is_detail then ret (false, lit "nem_adatlap_oldal")
  else
    url <- observe (fun w => page_url w detail_page) ;;
    let current_url := normalize (VStr url) in
    got <- (if nonempty current_url
            then try_download_pdf_by_url current_url destination timeout_ms
            else ret false) ;;
    if got then ret (true, lit "detail_url_pdf")
    else
      pdf_links <- invoke (DiscoverPdfLinks detail_page) ;;
      linked <- try_pdf_links pdf_links destination timeout_ms ;;
      if linked then ret (true, lit "pdf_link")
      else
        printed <- invoke (TryClickPrintDownload detail_page destination timeout_ms) ;;
        if printed then ret (true, lit "print_download")
        else if page_pdf_fallback
        then
          still_detail <- invoke (IsProbablyDetailPage detail_page) ;;
          if negb still_detail then ret (false, lit "nem_adatlap_oldal")
          else
            invoke (PagePdf detail_page destination) ;;
            ret (true, lit "page_pdf")
        else ret (false, lit "nincs_pdf_mod").

(** The local variables of [download_pdf_for_row] that its [finally]
    block reads. *)
Record locals := mk_locals {
  detail_page : option page;
  own_page : bool;
  opened_same_tab : bool
}.

Definition lift {A : Type} (m : M (session W) A) : M (locals * session W) A :=
  fun ls =>
    let (r, s') := m (snd ls) in (r, (fst ls, s')).

Definition set_locals (l : locals) : M (locals * session W) unit :=
  fun ls => (Ret tt, (l, snd ls)).

Definition get_locals : M (locals * session W) locals :=
  fun ls => (Ret (fst ls), ls).

(** The body of the [try], lines 741-769. *)
Definition retrieval_body (r : row) (detail_url : str) (destination : path)
  (timeout_ms : Z) (page_pdf_fallback : bool) : M (locals * session W) (bool * str) :=
  if nonempty detail_url
  then
    p <- lift (invoke NewPage) ;;
    set_locals (mk_locals (Some p) true false) ;;
    response <- lift (invoke (Goto p detail_url timeout_ms)) ;;
    direct <- match response with
              | Some resp =>
                  if contains (lit "pdf") (casefold (normalize (resp_content_type resp)))
                  then
                    body <- lift (invoke (ResponseBody resp)) ;;
                    lift (invoke (WriteBytes destination body)) ;;
                    ret true
                  else ret false
              | None => ret false
              end ;;
    if direct then ret (true, lit "kozvetlen_pdf")
    else lift (extract_pdf_from_open_detail_page p destination timeout_ms
                 page_pdf_fallback)
  else
    opened <- lift (invoke (OpenDetailPageFromResultsRow r timeout_ms)) ;;
    match fst opened with
    | None => ret (false, snd opened)
    | Some p =>
        let same_tab := str_eqb (snd opened) (lit "same_tab") in
        set_locals (mk_locals (Some p) (negb same_tab) same_tab) ;;
        lift (extract_pdf_from_open_detail_page p destination timeout_ms
                page_pdf_fallback)
    end.

(** The [finally] block, lines 772-780. *)
Definition retrieval_cleanup (timeout_ms : Z) : M (locals * session W) unit :=
  l <- get_locals ;;
  match detail_page l with
  | Some p => if own_page l then lift (invoke (ClosePage p)) else ret tt
  | None => ret tt
  end ;;
  if opened_same_tab l
  then try_except
         (lift (invoke (GoBack timeout_ms)) ;;
          lift (invoke (WaitForResults (Z.min 3000 timeout_ms))))
         is_playwright_error (ret tt)
  else ret tt.

(** The guarded part of [download_pdf_for_row]: [try], [except
    PlaywrightError], [finally], from fresh locals. *)
Definition guarded_retrieval (r : row) (detail_url : str) (destination : path)
  (timeout_ms : Z) (page_pdf_fallback : bool) : M (session W) (bool * str) :=
  fun s =>
    let (outcome, ls) :=
      try_finally
        (try_except
           (retrieval_body r detail_url destination timeout_ms page_pdf_fallback)
           is_playwright_error
           (ret (false, lit "playwright_hiba")))
        (retrieval_cleanup timeout_ms)
        (mk_locals None false false, s) in
    (outcome, snd ls).

(** [download_pdf_for_row], lines 725-780. *)
Definition download_pdf_for_row (r : row) (output_dir : str) (timeout_ms : Z)
  (page_pdf_fallback : bool) : M (session W) (bool * str) :=
  base_url <- observe (fun w => page_url w ListingPage) ;;
  let detail_url := detail_url_from_row r base_url in
  match build_pdf_path output_dir r (str_or detail_url (lit "row_click_fallback")) with
  | Raise e => raise e
  | Ret destination =>
      present <- observe (fun w => path_exists w destination) ;;
      if present then ret (true, lit "letezik")
      else guarded_retrieval r detail_url destination timeout_ms page_pdf_fallback
  end.

(** The loop of [download_pdfs_for_rows], lines 795-812, with the two
    counters. *)
Fixpoint download_each (selected_rows : list row) (output_dir : str) (timeout_ms : Z)
  (page_pdf_fallback : bool) (ok_count fail_count : nat) : M (session W) (nat * nat) :=
  match selected_rows with
  | [] => ret (ok_count, fail_count)
  | r :: rest =>
      outcome <- download_pdf_for_row r output_dir timeout_ms page_pdf_fallback ;;
      if fst outcome
      then download_each rest output_dir timeout_ms page_pdf_fallback (S ok_count) fail_count
      else download_each rest output_dir timeout_ms page_pdf_fallback ok_count (S fail_count)
  end.

(** [download_pdfs_for_rows], lines 783-812. *)
Definition download_pdfs_for_rows (new_rows : list row) (output_dir : str)
  (timeout_ms : Z) (page_pdf_fallback : bool) (max_per_query : Z)
  : M (session W) (nat * nat) :=
  let selected_rows :=
    if (0 <? max_per_query)%Z then firstn (Z.to_nat max_per_query) new_rows
    else new_rows in
  download_each selected_rows output_dir timeout_ms page_pdf_fallback 0 0.

End Retrieval.

(** ** The Query Space Explorer *)

(** The command-line arguments, lines 959-1022. *)
Record config := mk_config {
  url : str;
  alphabet : str;
  max_depth : Z;
  split_threshold : Z;
  query_delay_ms : Z;
  results_wait_ms : Z;
  slider_wait_ms : Z;
  manual_slider_attempts : Z;
  manual_slider_wait_ms : Z;
  record_type : str;
  allow_manual_slider : bool;
  force_submit : bool;
  download_pdfs : bool;
  db_only : bool;
  pdf_dir : str;
  pdf_timeout_ms : Z;
  pdf_fallback_page_pdf : bool;
  max_pdfs_per_query : Z;
  headless : bool
}.

(** An Overflow Entry: [{"term", "row_count", "total_hits"}]. *)
Record overflow := mk_overflow {
  ov_term : str;
  ov_row_count : Z;
  ov_total_hits : option Z
}.

(** The local state of [run]: the queue, the visited set, the Record
    Store, the overflow list and the two totals. *)
Record explorer := mk_explorer {
  queue : list str;
  visited_terms : list str;
  collected : list (str * row);
  unresolved_overflows : list overflow;
  pdf_ok_total : nat;
  pdf_fail_total : nat
}.

(** [list(dict.fromkeys(xs))]: the first occurrence of each element. *)
Fixpoint dedupe (seen : list str) (xs : list str) : list str :=
  match xs with
  | [] => []
  | x :: xs' => if str_mem x seen then dedupe seen xs' else x :: dedupe (x :: seen) xs'
  end.

(** [list(args.alphabet)]: the characters, each a string of length one. *)
Definition letters (cfg : config) : list str :=
  dedupe [] (map (fun c => [c]) (alphabet cfg)).

(** [term + ch] for every [ch] of the alphabet, lines 904-905. *)
Definition children (abc : list str) (term : str) : list str :=
  map (fun ch => term ++ ch) abc.

(** Lines 899-901. *)
Definition is_truncated (cfg : config) (b : batch) : bool :=
  (split_threshold cfg <=? rowCount b)%Z
  || match totalHits b with
     | Some total_hits => (rowCount b <? total_hits)%Z
     | None => false
     end.

(** One turn of the merge loop, lines 916-920: the row gets its term, its
    key is computed, the row is noted as new if the key is, and the store
    takes the row under the key. *)
Definition tag_row (term : str) (r : row) : row :=
  dict_set r (lit "_query") (VStr term).

Definition merge_row `{Runtime} (term : str) (acc : list (str * row) * list row) (r : row)
  : list (str * row) * list row :=
  let tagged := tag_row term r in
  let key := row_key tagged in
  (dict_set (fst acc) key tagged,
   if dict_mem (fst acc) key then snd acc else snd acc ++ [tagged]).

(** Lines 914-920: the store after the batch, and [new_unique_rows]. *)
Definition merge_rows `{Runtime} (term : str) (rs : list row) (store : list (str * row))
  : list (str * row) * list row :=
  fold_left (merge_row term) rs (store, []).

(** The store after the batches of several terms, one after the other. *)
Definition merge_batches `{Runtime} (bs : list (str * list row)) (store : list (str * row))
  : list (str * row) :=
  fold_left (fun c b => fst (merge_rows (fst b) (snd b) c)) bs store.

(** The rows of those batches in the order they are processed, each with
    its term attached. *)
Definition processed (bs : list (str * list row)) : list row :=
  flat_map (fun b => map (tag_row (fst b)) (snd b)) bs.

(** A sequence of writes [d[k] = v] applied to a dict. *)
Definition put_all {V : Type} (writes : list (str * V)) (d : list (str * V))
  : list (str * V) :=
  fold_left (fun c kv => dict_set c (fst kv) (snd kv)) writes d.

(** First-insertion order: the keys in [acc], then each key of [ks] not
    met before, in the order of its first occurrence. *)
Fixpoint insertion_order (acc : list str) (ks : list str) : list str :=
  match ks with
  | [] => acc
  | k :: ks' => insertion_order (if str_mem k acc then acc else acc ++ [k]) ks'
  end.

(** What lines 893-920 do to the local state, given the batch of a term:
    either the children are queued and the rows dropped, or the rows are
    merged (after an Overflow Entry, if the batch is truncated). *)
Inductive absorbed :=
| Expanded (st : explorer)
| Merged (st : explorer) (new_unique_rows : list row).

Definition absorb_batch `{Runtime} (cfg : config) (abc : list str) (term : str)
  (b : batch) (st : explorer) : absorbed :=
  let row_count := rowCount b in
  let total_hits := totalHits b in
  if is_truncated cfg b && (Z.of_nat (length term) <? max_depth cfg)%Z
  then Expanded (mk_explorer (queue st ++ children abc term) (visited_terms st)
                   (collected st) (unresolved_overflows st)
                   (pdf_ok_total st) (pdf_fail_total st))
  else
    let overflows :=
      if is_truncated cfg b
      then unresolved_overflows st ++ [mk_overflow term row_count total_hits]
      else unresolved_overflows st in
    let merged := merge_rows term (rows b) (collected st) in
    Merged (mk_explorer (queue st) (visited_terms st) (fst merged) overflows
              (pdf_ok_total st) (pdf_fail_total st))
           (snd merged).

Section Explorer.
Context {W : Type} `{Driver W} `{Runtime}.

(** [fill_name], lines 83-88. *)
Definition fill_name (name_fragment : str) : M (session W) unit :=
  field <- invoke FirstVisibleNameInput ;;
  match field with
  | None => raise (RuntimeError (lit "Nem talaltam nevet fogado input mezot."))
  | Some h =>
      invoke (FieldClick h) ;;
      invoke (FieldFill h name_fragment)
  end.

(** [trigger_name_input_events], lines 91-103. *)
Definition trigger_name_input_events : M (session W) unit :=
  field <- invoke FirstVisibleNameInput ;;
  match field with
  | None => ret tt
  | Some h => invoke (FieldDispatchEvents h)
  end.

(** The manual fallback, lines 878-887: up to [attempts] prompts, stopping
    at the first after which the search button is enabled. *)
Fixpoint manual_slider (attempts : nat) (cfg : config) (term : str) : M (session W) unit :=
  match attempts with
  | O => ret tt
  | S n =>
      invoke (WaitForManualSlider term) ;;
      solved <- invoke (WaitForSearchEnabled (manual_slider_wait_ms cfg)) ;;
      if solved then ret tt else manual_slider n cfg term
  end.

Definition add_pdf_counts (st : explorer) (counts : nat * nat) : explorer :=
  mk_explorer (queue st) (visited_terms st) (collected st) (unresolved_overflows st)
    (pdf_ok_total st + fst counts) (pdf_fail_total st + snd counts).

(** Lines 869-934: the search for [term] and what follows, on the state
    [st] from which the term has been taken and marked visited. *)
Definition search_term (cfg : config) (abc : list str) (term : str) (st : explorer)
  : M (session W) explorer :=
  fill_name term ;;
  trigger_name_input_events ;;
  solved <- invoke (TryAutoSlider (slider_wait_ms cfg)) ;;
  if negb solved && negb (allow_manual_slider cfg) then ret st
  else
    (if negb solved && allow_manual_slider cfg
     then manual_slider (Z.to_nat (manual_slider_attempts cfg)) cfg term
     else ret tt) ;;
    invoke (ClickSearch (force_submit cfg)) ;;
    invoke (WaitForResults (results_wait_ms cfg)) ;;
    b <- invoke ExtractRows ;;
    match absorb_batch cfg abc term b st with
    | Expanded st' =>
        invoke (WaitForTimeout (query_delay_ms cfg)) ;;
        ret st'
    | Merged st' new_unique_rows =>
        counts <- (if download_pdfs cfg && negb (db_only cfg)
                      && nonempty_list new_unique_rows
                   then download_pdfs_for_rows new_unique_rows (pdf_dir cfg)
                          (pdf_timeout_ms cfg) (pdf_fallback_page_pdf cfg)
                          (max_pdfs_per_query cfg)
                   else ret (0, 0)) ;;
        invoke (WaitForTimeout (query_delay_ms cfg)) ;;
        ret (add_pdf_counts st' counts)
    end.

(** One turn of [while queue:], lines 864-934. *)
Definition iteration (cfg : config) (abc : list str) (st : explorer)
  : M (session W) explorer :=
  match queue st with
  | [] => ret st
  | term :: rest =>
      let popped := mk_explorer rest (visited_terms st) (collected st)
                      (unresolved_overflows st) (pdf_ok_total st) (pdf_fail_total st) in
      if str_mem term (visited_terms st) then ret popped
      else
        search_term cfg abc term
          (mk_explorer rest (visited_terms st ++ [term]) (collected st)
             (unresolved_overflows st) (pdf_ok_total st) (pdf_fail_total st))
  end.

(** [while queue:], with a bound on the number of turns; [None] when the
    bound is reached with the queue not yet empty. *)
Fixpoint term_loop (fuel : nat) (cfg : config) (abc : list str) (st : explorer)
  : M (session W) (option explorer) :=
  match queue st with
  | [] => ret (Some st)
  | _ :: _ =>
      match fuel with
      | O => ret None
      | S fuel' =>
          st' <- iteration cfg abc st ;;
          term_loop fuel' cfg abc st'
      end
  end.

End Explorer.

(** Lines 846-852: the state the loop starts from. *)
Definition initial_explorer (cfg : config) : explorer :=
  mk_explorer (letters cfg) [] [] [] 0 0.

(** ** The Output Sink, lines 815-833 and 939-956 *)

(** The union of the rows' labels, by first discovery. *)
Fixpoint csv_columns (seen : list str) (rs : list row) : list str :=
  match rs with
  | [] => seen
  | r :: rs' =>
      csv_columns
        (fold_left (fun cols k => if str_mem k cols then cols else cols ++ [k])
           (map fst r) seen)
        rs'
  end.

(** What [run] persists: the rows of the JSON document, the header and
    the rows of the CSV document, and the overflow document if any. *)
Record outputs := mk_outputs {
  json_rows : list row;
  csv_header : list str;
  csv_rows : list row;
  overflow_doc : option (list overflow)
}.

(** [rows = list(collected.values())], [save_outputs(rows, ...)] and the
    overflow file, lines 939-956. *)
Definition persist (st : explorer) : outputs :=
  let rs := map snd (collected st) in
  mk_outputs rs (csv_columns [] rs) rs
    (match unresolved_overflows st with
     | [] => None
     | ovs => Some ovs
     end).

Section Run.
Context {W : Type} `{Driver W} `{Runtime}.

(** The states the loop of [run] passes through, from any session in which
    it starts: the initial state, and the state after each completed
    turn. *)
Inductive reachable (cfg : config) : explorer -> session W -> Prop :=
| reach_start (s : session W) : reachable cfg (initial_explorer cfg) s
| reach_turn (st st' : explorer) (s s' : session W) :
    reachable cfg st s ->
    iteration cfg (letters cfg) st s = (Ret st', s') ->
    reachable cfg st' s'.

(** Lines 854-861: the browser, the page, the record type. *)
Definition open_session (cfg : config) : M (session W) unit :=
  invoke (StartSession (headless cfg) (url cfg)) ;;
  if nonempty (record_type cfg)
  then invoke (MaybeSelectRecordType (record_type cfg))
  else ret tt.

(** [run], lines 836-956, on a bound for the turns of its loop.  (The
    guard on a missing Playwright installation, which precedes everything,
    is left out.) *)
Definition run (fuel : nat) (cfg : config) : M (session W) (option outputs) :=
  open_session cfg ;;
  final <- term_loop fuel cfg (letters cfg) (initial_explorer cfg) ;;
  match final with
  | None => ret None
  | Some st =>
      invoke CloseSession ;;
      ret (Some (persist st))
  end.

End Run.

(** ** The explorer's rule, in the words of the design

    A batch is truncated when the row count reaches the split threshold or
    a known reported total exceeds it. *)

Definition truncated (rowCount : Z) (reportedTotal : option Z) (splitThreshold : Z) : Prop :=
  (splitThreshold <= rowCount)%Z
  \/ exists total, reportedTotal = Some total /\ (rowCount < total)%Z.

(** How many more characters a term may take: [maxDepth - length term],
    or none. *)
Definition depth_left (cfg : config) (term : str) : nat :=
  Z.to_nat (max_depth cfg - Z.of_nat (length term)).

(** A bound on the turns a queued term can cause: itself, and the turns of
    its children when it can still be expanded. *)
Fixpoint weight (width : nat) (left : nat) : nat :=
  match left with
  | O => 1
  | S left' => 1 + width * weight width left'
  end.

Definition queue_weight (cfg : config) (q : list str) : nat :=
  list_sum (map (fun t => weight (length (letters cfg)) (depth_left cfg t)) q).

(** A number of turns within which the loop of [run] ends. *)
Definition turns_bound (cfg : config) : nat :=
  queue_weight cfg (letters cfg).

(** ** The fallback tiers, in the words of the design

    An ordered list of strategies, each answering whether it produced the
    document; they are tried in turn until the first success.  The second
    definition of the extraction, [tiered_extraction], is written this way
    to be compared with [extract_pdf_from_open_detail_page]. *)

Section Tiers.
Context {W : Type} `{Driver W} `{Runtime}.







End Tiers.

(** The characters [strip("._")] removes. *)
Definition is_dot_or_underscore (c : char) : bool := (c =? 46)%N || (c =? underscore)%N.

(** A character that is no path separator (slash, backslash) and no NUL. *)
Definition separator_free (c : char) : Prop := c <> 47%N /\ c <> 92%N /\ c <> 0%N.

(** A search term the explorer may form: a non-empty word over the
    alphabet. *)
Definition over_alphabet (cfg : config) (t : str) : Prop :=
  t <> [] /\ Forall (fun c => In c (alphabet cfg)) t.

(** ** The calls a computation makes *)

(** However [m] ends, it has only added calls to the trace, and each of
    them satisfies [P]; [tr] reads the trace off the state. *)
Definition emits_on {S A : Type} (tr : S -> list call) (P : call -> Prop) (m : M S A)
  : Prop :=
  forall s : S, exists added, tr (snd (m s)) = tr s ++ added /\ Forall P added.

(** The trace below the locals of [download_pdf_for_row]. *)
Definition local_trace {W : Type} (ls : locals * session W) : list call :=
  trace (snd ls).

(** The text a call types into the name field, if it is [field.fill]. *)
Definition typed_term (c : call) : option str :=
  match c with
  | Call o =>
      match o with
      | FieldFill _ text => Some text
      | _ => None
      end
  end.

Definition typed_terms (calls : list call) : list str :=
  flat_map (fun c => match typed_term c with Some t => [t] | None => [] end) calls.

(** The file a call writes, if it writes one: [write_bytes], [save_as]
    after the print control, [page.pdf]. *)
Definition written_path (c : call) : option path :=
  match c with
  | Call o =>
      match o with
      | WriteBytes d _ => Some d
      | TryClickPrintDownload _ d _ => Some d
      | PagePdf _ d => Some d
      | _ => None
      end
  end.

(** The calls of the Artifact Retrieval Chain.  ([WaitForResults], which
    its cleanup shares with the search, is not counted.) *)
Definition is_retrieval_call (c : call) : bool :=
  match c with
  | Call o =>
      match o with
      | NewPage | Goto _ _ _ | ResponseBody _ | WriteBytes _ _
      | OpenDetailPageFromResultsRow _ _ | IsProbablyDetailPage _
      | RequestGet _ _ | DiscoverPdfLinks _ | TryClickPrintDownload _ _ _
      | PagePdf _ _ | ClosePage _ | GoBack _ => true
      | _ => false
      end
  end.

(** The calls the retrieval of one artifact can make, with [destination]
    the only file it can write. *)
Inductive retrieval_call (destination : path) : call -> Prop :=
| rc_new_page : retrieval_call destination (Call NewPage)
| rc_goto (p : page) (u : str) (t : Z) : retrieval_call destination (Call (Goto p u t))
| rc_body (r : response) : retrieval_call destination (Call (ResponseBody r))
| rc_write (body : list N) : retrieval_call destination (Call (WriteBytes destination body))
| rc_open (r : row) (t : Z) :
    retrieval_call destination (Call (OpenDetailPageFromResultsRow r t))
| rc_valid (p : page) : retrieval_call destination (Call (IsProbablyDetailPage p))
| rc_get (u : str) (t : Z) : retrieval_call destination (Call (RequestGet u t))
| rc_links (p : page) : retrieval_call destination (Call (DiscoverPdfLinks p))
| rc_print (p : page) (t : Z) :
    retrieval_call destination (Call (TryClickPrintDownload p destination t))
| rc_page_pdf (p : page) : retrieval_call destination (Call (PagePdf p destination))
| rc_close (p : page) : retrieval_call destination (Call (ClosePage p))
| rc_back (t : Z) : retrieval_call destination (Call (GoBack t))
| rc_wait (t : Z) : retrieval_call destination (Call (WaitForResults t)).

(** A call of the retrieval of some artifact below [output_dir]. *)
Definition artifact_call `{Runtime} (output_dir : str) (c : call) : Prop :=
  exists (r : row) (u : str) (d : path),
    build_pdf_path output_dir r u = Ret d /\ retrieval_call d c.

(** The calls the search of [term] can make: the calls on the listing
    page, with the arguments the configuration gives, and the calls of the
    retrieval when the download is switched on. *)
Inductive search_call `{Runtime} (cfg : config) (term : str) : call -> Prop :=
| sc_field : search_call cfg term (Call FirstVisibleNameInput)
| sc_click (h : handle) : search_call cfg term (Call (FieldClick h))
| sc_fill (h : handle) : search_call cfg term (Call (FieldFill h term))
| sc_events (h : handle) : search_call cfg term (Call (FieldDispatchEvents h))
| sc_slider : search_call cfg term (Call (TryAutoSlider (slider_wait_ms cfg)))
| sc_prompt : search_call cfg term (Call (WaitForManualSlider term))
| sc_enabled :
    search_call cfg term (Call (WaitForSearchEnabled (manual_slider_wait_ms cfg)))
| sc_submit : search_call cfg term (Call (ClickSearch (force_submit cfg)))
| sc_results : search_call cfg term (Call (WaitForResults (results_wait_ms cfg)))
| sc_extract : search_call cfg term (Call ExtractRows)
| sc_delay : search_call cfg term (Call (WaitForTimeout (query_delay_ms cfg)))
| sc_artifact (c : call) :
    download_pdfs cfg && negb (db_only cfg) = true ->
    artifact_call (pdf_dir cfg) c ->
    search_call cfg term c.

(** The calls [run] can make. *)
Inductive run_call `{Runtime} (cfg : config) : call -> Prop :=
| run_start : run_call cfg (Call (StartSession (headless cfg) (url cfg)))
| run_select :
    nonempty (record_type cfg) = true ->
    run_call cfg (Call (MaybeSelectRecordType (record_type cfg)))
| run_search (term : str) (c : call) :
    over_alphabet cfg term -> search_call cfg term c -> run_call cfg c
| run_close : run_call cfg (Call CloseSession).



(** ** The listing page, call by call

    The helpers that look for the search button and wait on the page
    ([first_visible], [first_visible_enabled], [is_search_button_enabled],
    [wait_for_search_enabled], [click_search], [wait_for_results]), over
    the calls they make on Playwright's page.  (In the model of [run]
    above each of them is one call of the driver.) *)

(** [page.locator(selector).nth(idx)] *)
Definition locator := (str * nat)%type.

Inductive page_op : Type -> Type :=
| LocatorCount (selector : str) : page_op nat
| IsVisible (candidate : locator) : page_op bool
| IsEnabled (candidate : locator) : page_op bool
| LocatorClick (candidate : locator) (timeout_ms : Z) : page_op unit
| PageWaitForTimeout (ms : Z) : page_op unit
| ResultsReady : page_op bool
| ForceSubmitSearch : page_op bool
| SearchButtonState : page_op str
| QuerySelects : page_op (list handle)
| QueryOptions (select : handle) : page_op (list handle)
| InnerText (element : handle) : page_op str
| GetAttributeValue (element : handle) : page_op (option str)
| SelectOptionByValue (select : handle) (value : str) : page_op unit
| SelectOptionByLabel (select : handle) (label : str) : page_op unit.

Inductive page_call := PageCall (T : Type) (o : page_op T).
Arguments PageCall {T} o.

Class PageDriver (W : Type) := {
  page_perform : forall T : Type, page_op T -> W -> res T * W
}.

Record page_session (W : Type) := mk_page_session {
  page_world : W;
  page_trace : list page_call
}.
Arguments mk_page_session {W} page_world page_trace.

Definition page_invoke {W : Type} `{PageDriver W} {T : Type} (o : page_op T)
  : M (page_session W) T :=
  fun s =>
    let (r, w') := page_perform o (page_world s) in
    (r, mk_page_session w' (page_trace s ++ [PageCall o])).

(** Lines 32-37. *)
Definition SEARCH_BUTTON_SELECTORS : list str :=
  [ lit "button:has-text('Keres" ++ [e_acute] ++ lit "s')";
    lit "input[type='submit'][value*='Keres']";
    lit "input[type='button'][value*='Keres']";
    lit "button[type='submit']" ].

Section ListingPage.
Context {W : Type} `{PageDriver W}.

(** [for idx in range(count)] of [first_visible], lines 59-65, from
    [idx] on: a Playwright error of [is_visible] skips the candidate. *)
Fixpoint visible_from (selector : str) (idx remaining : nat)
  : M (page_session W) (option locator) :=
  match remaining with
  | O => ret None
  | S n =>
      hit <- try_except (page_invoke (IsVisible (selector, idx)))
               is_playwright_error (ret false) ;;
      if hit then ret (Some (selector, idx)) else visible_from selector (S idx) n
  end.

(** [first_visible], lines 55-66. *)
Fixpoint first_visible (selectors : list str) : M (page_session W) (option locator) :=
  match selectors with
  | [] => ret None
  | selector :: rest =>
      count <- page_invoke (LocatorCount selector) ;;
      found <- visible_from selector 0 count ;;
      match found with
      | Some candidate => ret (Some candidate)
      | None => first_visible rest
      end
  end.

(** The inner loop of [first_visible_enabled], lines 73-79:
    [is_enabled] is asked only of a visible candidate. *)
Fixpoint visible_enabled_from (selector : str) (idx remaining : nat)
  : M (page_session W) (option locator) :=
  match remaining with
  | O => ret None
  | S n =>
      hit <- try_except
               (visible <- page_invoke (IsVisible (selector, idx)) ;;
                if visible then page_invoke (IsEnabled (selector, idx)) else ret false)
               is_playwright_error (ret false) ;;
      if hit then ret (Some (selector, idx))
      else visible_enabled_from selector (S idx) n
  end.

(** [first_visible_enabled], lines 69-80. *)
Fixpoint first_visible_enabled (selectors : list str)
  : M (page_session W) (option locator) :=
  match selectors with
  | [] => ret None
  | selector :: rest =>
      count <- page_invoke (LocatorCount selector) ;;
      found <- visible_enabled_from selector 0 count ;;
      match found with
      | Some candidate => ret (Some candidate)
      | None => first_visible_enabled rest
      end
  end.

(** [is_search_button_enabled], lines 183-190. *)
Definition is_search_button_enabled : M (page_session W) bool :=
  button <- first_visible_enabled SEARCH_BUTTON_SELECTORS ;;
  match button with
  | None => ret false
  | Some candidate =>
      try_except (page_invoke (IsEnabled candidate)) is_playwright_error (ret false)
  end.

(** The loop of [wait_for_search_enabled], lines 128-133, from [elapsed]
    on, with a bound on its turns; [None] when the bound is reached with
    the time not yet up. *)
Fixpoint wait_for_search_enabled_from (fuel : nat) (elapsed timeout_ms : Z)
  : M (page_session W) (option bool) :=
  if (elapsed <? timeout_ms)%Z
  then
    match fuel with
    | O => ret None
    | S fuel' =>
        enabled <- is_search_button_enabled ;;
        if enabled then ret (Some true)
        else
          page_invoke (PageWaitForTimeout 200) ;;
          wait_for_search_enabled_from fuel' (elapsed + 200) timeout_ms
    end
  else
    enabled <- is_search_button_enabled ;;
    ret (Some enabled).

(** [wait_for_search_enabled], lines 125-133. *)
Definition wait_for_search_enabled (fuel : nat) (timeout_ms : Z)
  : M (page_session W) (option bool) :=
  wait_for_search_enabled_from fuel 0 timeout_ms.

(** [click_search], lines 161-180.  ([force_submit_search] and the script
    that describes the button are calls.) *)
Definition click_search (allow_force_submit : bool) : M (page_session W) unit :=
  button <- first_visible_enabled SEARCH_BUTTON_SELECTORS ;;
  match button with
  | Some candidate => page_invoke (LocatorClick candidate 2500)
  | None =>
      forced <- (if allow_force_submit then page_invoke ForceSubmitSearch
                 else ret false) ;;
      if forced then ret tt
      else
        debug <- page_invoke SearchButtonState ;;
        raise (RuntimeError (lit "Nem sikerult Kereses submit. Allapot: " ++ debug))
  end.

(** The loop of [wait_for_results], lines 234-252, from [elapsed] on, with
    a bound on its turns. *)
Fixpoint wait_for_results_from (fuel : nat) (elapsed timeout_ms : Z)
  : M (page_session W) (option unit) :=
  if (elapsed <? timeout_ms)%Z
  then
    match fuel with
    | O => ret None
    | S fuel' =>
        ready <- page_invoke ResultsReady ;;
        if ready then ret (Some tt)
        else
          page_invoke (PageWaitForTimeout 300) ;;
          wait_for_results_from fuel' (elapsed + 300) timeout_ms
    end
  else ret (Some tt).

(** [wait_for_results], lines 231-252. *)
Definition wait_for_results (fuel : nat) (timeout_ms : Z)
  : M (page_session W) (option unit) :=
  wait_for_results_from fuel 0 timeout_ms.

(** The loop over the options of one [select], lines 114-122; [true]
    when an option was chosen, which ends the function. *)
Fixpoint choose_among `{Runtime} (wanted_norm : str) (select : handle)
  (options : list handle) : M (page_session W) bool :=
  match options with
  | [] => ret false
  | element :: rest =>
      text <- page_invoke (InnerText element) ;;
      let label := normalize (VStr text) in
      if contains wanted_norm (casefold label)
      then
        value <- page_invoke (GetAttributeValue element) ;;
        match value with
        | Some v => page_invoke (SelectOptionByValue select v)
        | None => page_invoke (SelectOptionByLabel select label)
        end ;;
        ret true
      else choose_among wanted_norm select rest
  end.

(** The loop over the [select] elements, lines 112-122. *)
Fixpoint choose_in `{Runtime} (wanted_norm : str) (selects : list handle)
  : M (page_session W) unit :=
  match selects with
  | [] => ret tt
  | select :: rest =>
      options <- page_invoke (QueryOptions select) ;;
      chosen <- choose_among wanted_norm select options ;;
      if chosen then ret tt else choose_in wanted_norm rest
  end.

(** [maybe_select_record_type], lines 106-122. *)
Definition maybe_select_record_type `{Runtime} (wanted : option str)
  : M (page_session W) unit :=
  match wanted with
  | None => ret tt
  | Some text =>
      if negb (nonempty text) then ret tt
      else
        selects <- page_invoke QuerySelects ;;
        choose_in (casefold text) selects
  end.

End ListingPage.

(** The choices of an option among some calls. *)
Definition is_select_option (c : page_call) : bool :=
  match c with
  | PageCall o =>
      match o with
      | SelectOptionByValue _ _ | SelectOptionByLabel _ _ => true
      | _ => false
      end
  end.

(** The waits among some calls, in milliseconds. *)
Definition waited (c : page_call) : Z :=
  match c with
  | PageCall o =>
      match o with
      | PageWaitForTimeout ms => ms
      | _ => 0%Z
      end
  end.

Definition total_wait (calls : list page_call) : Z :=
  fold_right (fun c acc => (waited c + acc)%Z) 0%Z calls.

(** However [m] ends, it has only added calls to the page's trace, and
    each of them satisfies [P]. *)
Definition page_emits {W A : Type} (P : page_call -> Prop) (m : M (page_session W) A)
  : Prop :=
  forall s : page_session W,
    exists added, page_trace (snd (m s)) = page_trace s ++ added /\ Forall P added.

(* ---------------------------------------------------------------------- *)
(** ** Data for the examples

    A runtime to evaluate the program with: the Unicode tables on the
    Latin-1 Supplement and Latin Extended-A blocks (where the Hungarian
    alphabet lives; code points past U+017F are left caseless and outside
    the word class), and [urljoin] on the references the examples use: an
    absolute http(s) URL replaces the base, an absolute path is put after
    the base's scheme and host, any other reference after the base's
    directory. *)

Definition latin_fold (c : char) : str :=
  (if c =? 181 then [956]
   else if (192 <=? c) && (c <=? 222) && negb (c =? 215) then [c + 32]
   else if c =? 223 then [115; 115]
   else if c =? 304 then [105; 775]
   else if c =? 329 then [700; 110]
   else if c =? 376 then [255]
   else if c =? 383 then [115]
   else if ((256 <=? c) && (c <=? 311) || (330 <=? c) && (c <=? 375)) && N.even c
        then [c + 1]
   else if ((313 <=? c) && (c <=? 328) || (377 <=? c) && (c <=? 382)) && N.odd c
        then [c + 1]
   else [c])%N.

Definition latin_alnum (c : char) : bool :=
  ((c =? 170) || (c =? 178) || (c =? 179) || (c =? 181) || (c =? 185)
   || (c =? 186) || (188 <=? c) && (c <=? 190)
   || (192 <=? c) && (c <=? 383) && negb (c =? 215) && negb (c =? 247))%N.

(** The text up to and excluding the [n]-th slash (all of it if there are
    fewer). *)
Fixpoint upto_slash (n : nat) (s : str) : str :=
  match s with
  | [] => []
  | c :: s' =>
      if is_slash c
      then match n with O => [] | S n' => c :: upto_slash n' s' end
      else c :: upto_slash n s'
  end.

(** The text up to and including the last slash. *)
Definition dirname_slash (s : str) : str :=
  rev (lstrip_by (fun c => negb (is_slash c)) (rev s)).

Definition simple_urljoin (base url : str) : str :=
  if negb (nonempty base) then url
  else if negb (nonempty url) then base
  else if startswith (lit "http://") url || startswith (lit "https://") url then url
  else if startswith (lit "/") url then upto_slash 2 base ++ url
  else dirname_slash base ++ url.

Definition latin_runtime : Runtime :=
  {| uni_fold := latin_fold; uni_alnum := latin_alnum; urljoin := simple_urljoin |}.

(** Two rows with the same two identifier columns, in the two orders. *)
Definition seal_then_ident : row :=
  [ (lit "pecsetszam", VStr (lit "1")); (lit "azonosito", VStr (lit "2")) ].

Definition ident_then_seal : row :=
  [ (lit "azonosito", VStr (lit "2")); (lit "pecsetszam", VStr (lit "1")) ].

(** Two rows with one name column, the other columns in two orders. *)
Definition name_city : row :=
  [ (lit "nev", VStr (lit "Dr. Kiss")); (lit "varos", VStr (lit "Pecs"));
    (lit "_row_index", VInt 1) ].

Definition city_name : row :=
  [ (lit "_row_index", VInt 7); (lit "varos", VStr (lit "Pecs"));
    (lit "nev", VStr (lit "Dr. Kiss")) ].

(** A row whose name holds a lone surrogate code point (U+D800). *)
Definition surrogate_row : row := [ (lit "nev", VStr [55296%N]) ].

Definition base_page : str := lit "https://kereso.enkk.hu/".



(** A small configuration: two letters, depth 2, split at 2 rows. *)
Definition small_cfg : config :=
  mk_config base_page (lit "ab") 2 2 900 5000 350 3 3000 (lit "Orvos/fogorvos")
    true true false false (lit "data/pdfs") 15000 false 0 true.

(** The same with depth 0. *)
Definition depth0_cfg : config :=
  mk_config base_page (lit "ab") 0 2 900 5000 350 3 3000 (lit "Orvos/fogorvos")
    true true false false (lit "data/pdfs") 15000 false 0 true.

Definition kiss : row := [ (lit "nev", VStr (lit "Dr. Kiss")) ].
Definition nagy : row := [ (lit "nev", VStr (lit "Dr. Nagy")) ].

(** Two rows where the listing was cut at two, with 5 hits reported. *)
Definition cut_batch : batch := mk_batch [kiss; nagy] 2 (Some 5%Z).

(** One row, all there is. *)
Definition full_batch : batch := mk_batch [kiss] 1 (Some 1%Z).

Definition empty_explorer : explorer := mk_explorer [] [] [] [] 0 0.

(** A scripted driver to run the program against.  Its world says whether
    the name input can be located, whether an opened page validates as a
    detail page, whether navigation and requests work, which artifact files
    exist, what the listing shows for a term, and the term last typed. *)
Record demo_world := mk_demo {
  input_present : bool;
  detail_valid : bool;
  network_up : bool;
  stored : list str;
  listing : str -> batch;
  typed : str
}.

Definition type_term (w : demo_world) (text : str) : demo_world :=
  mk_demo (input_present w) (detail_valid w) (network_up w) (stored w) (listing w) text.

Definition store_file (w : demo_world) (d : path) : demo_world :=
  mk_demo (input_present w) (detail_valid w) (network_up w)
    (path_name d :: stored w) (listing w) (typed w).

Definition pdf_response : response :=
  mk_response true (VStr (lit "application/pdf")) 0.

Definition demo_perform (T : Type) (o : op T) (w : demo_world) : res T * demo_world :=
  match o in op T0 return res T0 * demo_world with
  | StartSession _ _ => (Ret tt, w)
  | MaybeSelectRecordType _ => (Ret tt, w)
  | CloseSession => (Ret tt, w)
  | FirstVisibleNameInput => (Ret (if input_present w then Some 0 else None), w)
  | FieldClick _ => (Ret tt, w)
  | FieldFill _ text => (Ret tt, type_term w text)
  | FieldDispatchEvents _ => (Ret tt, w)
  | TryAutoSlider _ => (Ret true, w)
  | WaitForManualSlider _ => (Ret tt, w)
  | WaitForSearchEnabled _ => (Ret true, w)
  | ClickSearch _ => (Ret tt, w)
  | WaitForResults _ => (Ret tt, w)
  | ExtractRows => (Ret (listing w (typed w)), w)
  | WaitForTimeout _ => (Ret tt, w)
  | NewPage => (if network_up w then Ret (DetailPage 1) else Raise PlaywrightError, w)
  | Goto _ _ _ => (if network_up w then Ret None else Raise PlaywrightTimeoutError, w)
  | ResponseBody _ => (Ret (lit "%PDF-1.4"), w)
  | WriteBytes d _ => (Ret tt, store_file w d)
  | OpenDetailPageFromResultsRow _ _ =>
      (if network_up w then Ret (Some (DetailPage 2), lit "popup")
       else Raise PlaywrightTimeoutError, w)
  | IsProbablyDetailPage _ => (Ret (detail_valid w), w)
  | RequestGet _ _ => (if network_up w then Ret pdf_response else Raise PlaywrightError, w)
  | DiscoverPdfLinks _ => (Ret [], w)
  | TryClickPrintDownload _ _ _ => (Ret false, w)
  | PagePdf _ d => (Ret tt, store_file w d)
  | ClosePage _ => (Ret tt, w)
  | GoBack _ => (Ret tt, w)
  end.

Definition demo_driver : Driver demo_world :=
  {| perform := demo_perform;
     page_url := fun _ p =>
       match p with
       | ListingPage => base_page
       | DetailPage _ => base_page ++ lit "adatlap/1"
       end;
     path_exists := fun w d => str_mem (path_name d) (stored w) |}.

(** The listing cuts the results of [a] at two rows and shows one row for
    every other term. *)
Definition demo_listing (term : str) : batch :=
  if str_eqb term (lit "a") then cut_batch else full_batch.

(** Worlds: all well; the artifact of [name_city] already stored; the
    network down; the name input missing; a page that does not validate. *)
Definition calm_world : demo_world := mk_demo true true true [] demo_listing [].

Definition stocked_world : demo_world :=
  mk_demo true true true [lit "id_Dr._Kiss_fd7ec9a28d.pdf"] demo_listing [].

Definition offline_world : demo_world := mk_demo true true false [] demo_listing [].



Definition fresh (w : demo_world) : session demo_world := mk_session w [].

(** The same registered doctor, as two searches list it. *)
Definition kiss_registered : row :=
  [ (lit "nyilvantartasi szam", VStr (lit "12345")); (lit "nev", VStr (lit "Dr. Kiss")) ].


(** [small_cfg] with the artifact download switched on. *)
Definition pdf_cfg : config :=
  mk_config base_page (lit "ab") 2 2 900 5000 350 3 3000 (lit "Orvos/fogorvos")
    true true true false (lit "data/pdfs") 15000 false 0 true.

(** A row with one identifier column among others. *)
Definition sealed_row : row :=
  [ (lit "nev", VStr (lit "Dr. Kiss")); (lit "Pecsetszam", VStr (lit " 40123 "));
    (lit "_detail_url", VStr []); (lit "_row_index", VInt 4) ].

(** Depth 1 and the artifact download switched on: the cut listing of [a]
    cannot be refined. *)
Definition shallow_cfg : config :=
  mk_config base_page (lit "ab") 1 2 900 5000 350 3 3000 (lit "Orvos/fogorvos")
    true true true false (lit "data/pdfs") 15000 false 0 true.

(** The loop of [run] on it, from a fresh session, and the state it ends
    in. *)
Definition shallow_run : res (option explorer) * session demo_world :=
  @term_loop demo_world demo_driver latin_runtime 2 shallow_cfg (letters shallow_cfg)
    (initial_explorer shallow_cfg) (fresh calm_world).

Definition shallow_end : explorer :=
  match fst shallow_run with
  | Ret (Some st) => st
  | _ => empty_explorer
  end.

(** A page on which nothing ever shows: no candidate for any selector, no
    results; its world counts the waits. *)
Definition still_page_perform (T : Type) (o : page_op T) (w : nat) : res T * nat :=
  match o in page_op T0 return res T0 * nat with
  | LocatorCount _ => (Ret 0, w)
  | IsVisible _ => (Ret false, w)
  | IsEnabled _ => (Ret false, w)
  | LocatorClick _ _ => (Ret tt, w)
  | PageWaitForTimeout _ => (Ret tt, S w)
  | ResultsReady => (Ret false, w)
  | ForceSubmitSearch => (Ret false, w)
  | SearchButtonState => (Ret (lit "search button not found"), w)
  | QuerySelects => (Ret [], w)
  | QueryOptions _ => (Ret [], w)
  | InnerText _ => (Ret [], w)
  | GetAttributeValue _ => (Ret None, w)
  | SelectOptionByValue _ _ => (Ret tt, w)
  | SelectOptionByLabel _ _ => (Ret tt, w)
  end.

Definition still_page : PageDriver nat := {| page_perform := still_page_perform |}.

(** A page with one submit button, the second candidate of the last
    selector, which is enabled once the world has counted two waits. *)
Definition button_page_perform (T : Type) (o : page_op T) (w : nat) : res T * nat :=
  match o in page_op T0 return res T0 * nat with
  | LocatorCount selector =>
      (Ret (if str_eqb selector (lit "button[type='submit']") then 2 else 0), w)
  | IsVisible candidate =>
      (if Nat.eqb (snd candidate) 0 then Raise PlaywrightError else Ret true, w)
  | IsEnabled _ => (Ret (2 <=? w), w)
  | LocatorClick _ _ => (Ret tt, w)
  | PageWaitForTimeout _ => (Ret tt, S w)
  | ResultsReady => (Ret (3 <=? w), w)
  | ForceSubmitSearch => (Ret false, w)
  | SearchButtonState => (Ret (lit "search button disabled=true"), w)
  | QuerySelects => (Ret [7], w)
  | QueryOptions _ => (Ret [0; 1; 2], w)
  | InnerText element =>
      (Ret (match element with
            | 0 => lit " Mind "
            | 1 => lit " Orvos/fogorvos "
            | _ => lit "Fogorvos"
            end), w)
  | GetAttributeValue element =>
      (Ret (if Nat.eqb element 1 then Some (lit "3") else None), w)
  | SelectOptionByValue _ _ => (Ret tt, w)
  | SelectOptionByLabel _ _ => (Ret tt, w)
  end.

Definition button_page : PageDriver nat := {| page_perform := button_page_perform |}.



(* ====================================================================== *)
(** * Part II: lemmas and theorems *)
(* ====================================================================== *)

(** ** Text comparison *)

Lemma str_eqb_eq (a b : str) : str_eqb a b = true <-> a = b.
Proof.
  revert b; induction a as [|x a IH]; intros [|y b]; simpl; split; try easy.
  - intros E. apply andb_true_iff in E as [E1 E2].
    apply N.eqb_eq in E1. apply IH in E2. congruence.
  - intros E. injection E as -> ->. rewrite N.eqb_refl. now apply IH.
Qed.

Lemma str_eqb_refl (a : str) : str_eqb a a = true.
Proof. now apply str_eqb_eq. Qed.

Lemma str_eqb_neq (a b : str) : str_eqb a b = false <-> a <> b.
Proof.
  split.
  - intros E ->. now rewrite str_eqb_refl in E.
  - intros N. destruct (str_eqb a b) eqn:E; [|reflexivity].
    now apply str_eqb_eq in E.
Qed.

Lemma str_cmp_eq (a b : str) : str_cmp a b = Eq -> a = b.
Proof.
  revert b; induction a as [|x a IH]; intros [|y b]; simpl; try easy.
  destruct (N.compare_spec x y) as [->| |]; try easy.
  intros E. now rewrite (IH _ E).
Qed.

Lemma str_cmp_antisym (a b : str) : str_cmp b a = CompOpp (str_cmp a b).
Proof.
  revert b; induction a as [|x a IH]; intros [|y b]; simpl; try easy.
  rewrite (N.compare_antisym x y).
  destruct (x ?= y)%N; simpl; auto.
Qed.

Lemma str_cmp_lt_trans (a b c : str) :
  str_cmp a b = Lt -> str_cmp b c = Lt -> str_cmp a c = Lt.
Proof.
  revert b c; induction a as [|x a IH]; intros [|y b] [|z c]; simpl; try easy.
  destruct (N.compare_spec x y) as [->| |]; try easy.
  - destruct (N.compare_spec y z) as [->| |]; try easy. apply IH.
  - destruct (N.compare_spec y z) as [->| |]; try easy; intros _ _.
    + now apply N.compare_lt_iff in H as ->.
    + assert (L : (x < z)%N) by lia. now apply N.compare_lt_iff in L as ->.
Qed.

Lemma str_ltb_total (a b : str) : a <> b -> str_ltb b a = negb (str_ltb a b).
Proof.
  intros N. unfold str_ltb. rewrite (str_cmp_antisym a b).
  destruct (str_cmp a b) eqn:E; simpl; try reflexivity.
  now apply str_cmp_eq in E.
Qed.

(** [not (z < x)] and [z < y] give [x < y]. *)
Lemma str_ltb_le_lt (x y z : str) :
  str_ltb z x = false -> str_ltb z y = true -> str_ltb x y = true.
Proof.
  unfold str_ltb. intros Hzx Hzy.
  destruct (str_cmp z y) eqn:Ezy; try discriminate.
  destruct (str_cmp z x) eqn:Ezx; try discriminate.
  - apply str_cmp_eq in Ezx as <-. now rewrite Ezy.
  - assert (Exz : str_cmp x z = Lt)
      by (rewrite (str_cmp_antisym z x), Ezx; reflexivity).
    now rewrite (str_cmp_lt_trans _ _ _ Exz Ezy).
Qed.

(** ** Sorting the items of a dict is independent of the insertion order *)

Lemma insert_item_comm (x y : str * value) (l : list (str * value)) :
  fst x <> fst y ->
  insert_item x (insert_item y l) = insert_item y (insert_item x l).
Proof.
  intros N. induction l as [|z l IH]; simpl.
  - rewrite (str_ltb_total N). destruct (str_ltb (fst x) (fst y)); reflexivity.
  - destruct (str_ltb (fst z) (fst y)) eqn:Ezy,
             (str_ltb (fst z) (fst x)) eqn:Ezx; simpl; rewrite ?Ezy, ?Ezx.
    + now rewrite IH.
    + now rewrite (str_ltb_le_lt _ _ _ Ezx Ezy).
    + now rewrite (str_ltb_le_lt _ _ _ Ezy Ezx).
    + rewrite (str_ltb_total N). destruct (str_ltb (fst x) (fst y)); reflexivity.
Qed.

Lemma sorted_items_perm (d1 d2 : row) :
  Permutation d1 d2 -> dict_wf d1 -> sorted_items d1 = sorted_items d2.
Proof.
  unfold dict_wf, sorted_items.
  induction 1 as [|x l l' P IH|x y l|l l' l'' P1 IH1 P2 IH2]; intros ND; simpl.
  - reflexivity.
  - inversion ND; subst. now rewrite IH.
  - apply insert_item_comm. simpl in ND. inversion ND as [|? ? Hin _]; subst.
    intros E. apply Hin. left. congruence.
  - rewrite IH1 by assumption. apply IH2.
    eapply Permutation_NoDup; [|exact ND]. now apply Permutation_map.
Qed.

Lemma json_dumps_sorted_perm (d1 d2 : row) :
  Permutation d1 d2 -> dict_wf d1 -> json_dumps_sorted d1 = json_dumps_sorted d2.
Proof.
  intros P W. unfold json_dumps_sorted. now rewrite (sorted_items_perm P W).
Qed.

(** ** [row_key] reads the non-hint columns only *)

Lemma canonical_wf (r : row) : dict_wf r -> dict_wf (canonical r).
Proof.
  unfold dict_wf, canonical. induction r as [|[k v] r IH]; simpl; intros ND.
  - constructor.
  - inversion ND as [|? ? Hin ND']; subst.
    destruct (is_hint k); simpl; auto.
    constructor; auto.
    intros Hk. apply Hin. apply in_map_iff in Hk as [kv [E I]].
    apply filter_In in I as [I _]. apply in_map_iff. now exists kv.
Qed.

Lemma scan_id_canonical `{Runtime} (r : row) : scan_id (canonical r) = scan_id r.
Proof.
  induction r as [|[k v] r IH]; simpl; [reflexivity|].
  destruct (is_hint k) eqn:E; simpl; rewrite ?E, IH; reflexivity.
Qed.

Lemma scan_name_canonical `{Runtime} (r : row) (name : str) :
  scan_name name (canonical r) = scan_name name r.
Proof.
  revert name; induction r as [|[k v] r IH]; intros name; simpl; [reflexivity|].
  destruct (is_hint k) eqn:E; simpl; rewrite ?E, ?IH; reflexivity.
Qed.

Lemma scan_id_id_columns `{Runtime} (r : row) :
  scan_id (filter is_id_column r) = scan_id r.
Proof.
  induction r as [|[k v] r IH]; simpl; [reflexivity|].
  unfold is_id_column at 1; simpl.
  destruct (any_in key_markers (casefold k)) eqn:E; simpl; rewrite ?E, IH.
  - reflexivity.
  - now destruct (is_hint k).
Qed.

Lemma scan_name_name_columns `{Runtime} (r : row) (name : str) :
  scan_name name (filter is_name_column r) = scan_name name r.
Proof.
  revert name; induction r as [|[k v] r IH]; intros name; simpl; [reflexivity|].
  unfold is_name_column at 1; simpl.
  destruct (any_in name_markers (casefold k)) eqn:E; simpl; rewrite ?E, ?IH.
  - reflexivity.
  - now destruct (is_hint k).
Qed.

(** ** C2: column order and the canonical key *)

(** C2, as stated, fails: [row_key] takes the first identifier column in
    iteration order, so two rows with the same columns and values, one
    listing the seal number first and the other the identifier first, get
    the keys [id:1] and [id:2]. *)
Lemma row_key_column_order_counterexample :
  Permutation (canonical seal_then_ident) (canonical ident_then_seal)
  /\ @row_key latin_runtime seal_then_ident = lit "id:1"
  /\ @row_key latin_runtime ident_then_seal = lit "id:2"
  /\ str_eqb (@row_key latin_runtime seal_then_ident)
             (@row_key latin_runtime ident_then_seal) = false.
Proof.
  split; [apply perm_swap|].
  repeat split; vm_compute; reflexivity.
Qed.

(** C2, amended: two rows with the same non-hint fields, in any column
    order, get the same canonical key provided their identifier columns
    come in the same relative order and so do their name columns (as they
    do whenever a row has at most one column of each kind).  The serialized
    part of the key never depends on the order. *)
Theorem row_key_permutation_invariant `{Runtime} (r1 r2 : row) :
  dict_wf r1 ->
  Permutation (canonical r1) (canonical r2) ->
  filter is_id_column (canonical r1) = filter is_id_column (canonical r2) ->
  filter is_name_column (canonical r1) = filter is_name_column (canonical r2) ->
  row_key r1 = row_key r2.
Proof.
  intros W P Hid Hname. unfold row_key.
  rewrite <- (scan_id_canonical r1), <- (scan_id_canonical r2).
  rewrite <- (scan_id_id_columns (canonical r1)), Hid, scan_id_id_columns.
  destruct (scan_id (canonical r2)); [reflexivity|].
  rewrite <- (scan_name_canonical r1), <- (scan_name_canonical r2).
  rewrite <- (scan_name_name_columns (canonical r1)), Hname, scan_name_name_columns.
  now rewrite (json_dumps_sorted_perm P (canonical_wf W)).
Qed.

Lemma row_key_permutation_invariant_witness :
  @row_key latin_runtime name_city = @row_key latin_runtime city_name.
Proof.
  apply (@row_key_permutation_invariant latin_runtime name_city city_name).
  - unfold dict_wf. vm_compute.
    repeat constructor; simpl; intuition discriminate.
  - apply perm_swap.
  - reflexivity.
  - reflexivity.
Defined.

(** ** C9: hint fields and the canonical key *)

Lemma is_hint_eqb (k k' : str) : str_eqb k' k = true -> is_hint k' = is_hint k.
Proof. intros E. apply str_eqb_eq in E. now subst. Qed.

Lemma scan_id_dict_set_hint `{Runtime} (r : row) (k : str) (v : value) :
  is_hint k = true -> scan_id (dict_set r k v) = scan_id r.
Proof.
  intros Hk. induction r as [|[k' v'] r IH]; simpl.
  - now rewrite Hk.
  - destruct (str_eqb k' k) eqn:E; simpl.
    + now rewrite (is_hint_eqb _ _ E), Hk.
    + now rewrite IH.
Qed.

Lemma scan_name_dict_set_hint `{Runtime} (r : row) (k : str) (v : value) (name : str) :
  is_hint k = true -> scan_name name (dict_set r k v) = scan_name name r.
Proof.
  intros Hk. revert name. induction r as [|[k' v'] r IH]; intros name; simpl.
  - now rewrite Hk.
  - destruct (str_eqb k' k) eqn:E; simpl.
    + now rewrite (is_hint_eqb _ _ E), Hk.
    + now rewrite !IH.
Qed.

Lemma canonical_dict_set_hint (r : row) (k : str) (v : value) :
  is_hint k = true -> canonical (dict_set r k v) = canonical r.
Proof.
  intros Hk. unfold canonical. induction r as [|[k' v'] r IH]; simpl.
  - now rewrite Hk.
  - destruct (str_eqb k' k) eqn:E; simpl.
    + now rewrite (is_hint_eqb _ _ E), Hk.
    + now rewrite IH.
Qed.

Lemma row_key_dict_set_hint `{Runtime} (r : row) (k : str) (v : value) :
  is_hint k = true -> row_key (dict_set r k v) = row_key r.
Proof.
  intros Hk. unfold row_key.
  now rewrite scan_id_dict_set_hint, scan_name_dict_set_hint,
    canonical_dict_set_hint.
Qed.

(** C9: setting an underscore-prefixed field of a row, [_query] among
    them, to any value leaves the row's canonical key as it was; so one
    record met under two terms has one key. *)
Theorem row_key_ignores_hint_fields `{Runtime} (r : row) :
  (forall (k : str) (v : value), row_key (dict_set r (lit "_" ++ k) v) = row_key r)
  /\ (forall term term' : str,
        row_key (dict_set r (lit "_query") (VStr term))
        = row_key (dict_set r (lit "_query") (VStr term'))).
Proof.
  split.
  - intros k v. now apply row_key_dict_set_hint.
  - intros t t'. now rewrite !row_key_dict_set_hint.
Qed.

(** ** C10: the artifact's file name *)

Lemma Forall_lstrip_by (P : char -> Prop) (p : char -> bool) (s : str) :
  Forall P s -> Forall P (lstrip_by p s).
Proof.
  induction 1 as [|c s Hc Hs IH]; simpl; [constructor|].
  destruct (p c); [exact IH|now constructor].
Qed.

Lemma Forall_strip_by (P : char -> Prop) (p : char -> bool) (s : str) :
  Forall P s -> Forall P (strip_by p s).
Proof.
  intros F. unfold strip_by, rstrip_by.
  apply Forall_rev, Forall_lstrip_by, Forall_rev, Forall_lstrip_by, F.
Qed.

Lemma Forall_firstn (P : char -> Prop) (n : nat) (s : str) :
  Forall P s -> Forall P (firstn n s).
Proof.
  intros F. revert n. induction F as [|c s Hc Hs IH]; intros [|n]; simpl;
    constructor; auto.
Qed.

Lemma sub_runs_kept (keep : char -> bool) (b : bool) (s : str) :
  keep underscore = true ->
  Forall (fun c => keep c = true) (sub_runs keep b s).
Proof.
  intros U. revert b. induction s as [|c s IH]; intros b; simpl; [constructor|].
  destruct (keep c) eqn:E; [now constructor|].
  destruct b; [apply IH|constructor; [exact U|apply IH]].
Qed.

Lemma cleaned_filename_chars `{Runtime} (v : str) :
  Forall (fun c => filename_char c = true) (cleaned_filename v).
Proof.
  unfold cleaned_filename, strip_dots.
  apply Forall_strip_by, sub_runs_kept. reflexivity.
Qed.

Lemma unknown_chars `{Runtime} :
  Forall (fun c => filename_char c = true) (lit "unknown").
Proof. repeat constructor. Qed.

Lemma sanitize_filename_sound `{Runtime} (v : str) :
  sanitize_filename v <> []
  /\ length (sanitize_filename v) <= 90
  /\ Forall (fun c => filename_char c = true) (sanitize_filename v)
  /\ (firstn 90 (cleaned_filename v) = [] -> sanitize_filename v = lit "unknown").
Proof.
  unfold sanitize_filename, str_or.
  destruct (firstn 90 (cleaned_filename v)) as [|c s] eqn:E; simpl.
  - repeat split; [discriminate|lia|apply unknown_chars].
  - repeat split; try discriminate.
    + change (length (c :: s) <= 90). rewrite <- E. apply firstn_le_length.
    + rewrite <- E. apply Forall_firstn, cleaned_filename_chars.
Qed.

Lemma hex_digit_is_hex (n : N) : (n < 16)%N -> is_hex (hex_digit n) = true.
Proof.
  intros L. unfold hex_digit, is_hex.
  destruct (N.ltb_spec n 10).
  - replace (48 <=? 48 + n)%N with true by (symmetry; apply N.leb_le; lia).
    replace (48 + n <=? 57)%N with true by (symmetry; apply N.leb_le; lia).
    reflexivity.
  - replace (97 <=? 87 + n)%N with true by (symmetry; apply N.leb_le; lia).
    replace (87 + n <=? 102)%N with true by (symmetry; apply N.leb_le; lia).
    apply orb_true_r.
Qed.

Lemma hex8_is_hex (w : N) : Forall (fun c => is_hex c = true) (Sha1.hex8 w).
Proof.
  unfold Sha1.hex8. apply Forall_map, Forall_forall. intros i _.
  apply hex_digit_is_hex. apply N.mod_lt. discriminate.
Qed.

Lemma hexdigest_length (msg : list N) : length (Sha1.hexdigest msg) = 40.
Proof.
  unfold Sha1.hexdigest. destruct (Sha1.digest msg) as [[[[h0 h1] h2] h3] h4].
  rewrite !length_app. reflexivity.
Qed.

Lemma hexdigest_is_hex (msg : list N) :
  Forall (fun c => is_hex c = true) (Sha1.hexdigest msg).
Proof.
  unfold Sha1.hexdigest. destruct (Sha1.digest msg) as [[[[h0 h1] h2] h3] h4].
  repeat (apply Forall_app; split); apply hex8_is_hex.
Qed.

Lemma utf8_char_scalar (c : char) :
  is_scalar c = true -> exists b, utf8_char c = Some b.
Proof.
  unfold is_scalar, utf8_char. intros S.
  destruct (c <? 128)%N; [eauto|]. destruct (c <? 2048)%N; [eauto|].
  destruct (N.ltb_spec c 55296); simpl in S.
  - replace (55296 <=? c)%N with false by (symmetry; apply N.leb_gt; lia).
    simpl. replace (c <? 65536)%N with true by (symmetry; apply N.ltb_lt; lia).
    eauto.
  - apply andb_true_iff in S as [S1 S2]. apply N.ltb_lt in S1.
    replace (c <=? 57343)%N with false by (symmetry; apply N.leb_gt; lia).
    rewrite andb_false_r, S2. destruct (c <? 65536)%N; eauto.
Qed.

Lemma utf8_encode_scalar (s : str) :
  forallb is_scalar s = true -> exists bytes, utf8_encode s = Some bytes.
Proof.
  induction s as [|c s IH]; simpl; [eauto|].
  intros F. apply andb_true_iff in F as [Fc Fs].
  destruct (utf8_char_scalar c Fc) as [b ->]. destruct (IH Fs) as [bs ->]. eauto.
Qed.

(** C10, as stated, fails on a row whose text holds a lone surrogate:
    [seed.encode("utf-8")] raises and no path is built. *)
Lemma build_pdf_path_surrogate_counterexample :
  @build_pdf_path latin_runtime (lit "data/pdfs") surrogate_row
    (lit "row_click_fallback") = Raise UnicodeEncodeError.
Proof. vm_compute. reflexivity. Qed.

(** C10, amended: [sanitize_filename] always yields a non-empty string of at
    most 90 characters, all of them word characters, hyphens or dots, and
    yields [unknown] when nothing survives; and for every row and URL whose
    seed (canonical key, bar, URL) holds no surrogate code point,
    [build_pdf_path] returns the file [<id>_<name>_<digest>.pdf] of the
    output directory, where [<id>] and [<name>] are sanitized and the digest
    is the first 10 hexadecimal digits of the SHA-1 of the seed's UTF-8
    encoding. *)
Theorem build_pdf_path_well_formed `{Runtime} (output_dir : str) (r : row) (url : str) :
  forallb is_scalar (pdf_seed r url) = true ->
  (forall v : str,
      sanitize_filename v <> []
      /\ length (sanitize_filename v) <= 90
      /\ Forall (fun c => filename_char c = true) (sanitize_filename v)
      /\ (firstn 90 (cleaned_filename v) = [] -> sanitize_filename v = lit "unknown"))
  /\ exists bytes digest,
      utf8_encode (row_key r ++ lit "|" ++ url) = Some bytes
      /\ digest = firstn 10 (Sha1.hexdigest bytes)
      /\ length digest = 10
      /\ Forall (fun c => is_hex c = true) digest
      /\ build_pdf_path output_dir r url
         = Ret (mk_path output_dir
                  (sanitize_filename
                     (str_or (first_row_value_by_markers r key_markers) (lit "id"))
                   ++ lit "_"
                   ++ sanitize_filename
                        (str_or (first_row_value_by_markers r name_markers) (lit "orvos"))
                   ++ lit "_" ++ digest ++ lit ".pdf")).
Proof.
  intros S. split; [apply sanitize_filename_sound|].
  destruct (utf8_encode_scalar _ S) as [bytes E].
  exists bytes, (firstn 10 (Sha1.hexdigest bytes)).
  split; [exact E|]. split; [reflexivity|]. split; [|split].
  - rewrite length_firstn, hexdigest_length. reflexivity.
  - apply Forall_firstn, hexdigest_is_hex.
  - unfold build_pdf_path. now rewrite E.
Qed.

Lemma build_pdf_path_well_formed_witness :
  forallb is_scalar (@pdf_seed latin_runtime name_city (lit "row_click_fallback")) = true
  /\ @build_pdf_path latin_runtime (lit "data/pdfs") name_city (lit "row_click_fallback")
     = Ret (mk_path (lit "data/pdfs") (lit "id_Dr._Kiss_fd7ec9a28d.pdf")).
Proof.
  split; [vm_compute; reflexivity|].
  destruct (@build_pdf_path_well_formed latin_runtime (lit "data/pdfs") name_city
              (lit "row_click_fallback")) as [_ [bytes [digest [E [D [_ [_ P]]]]]]].
  - vm_compute. reflexivity.
  - rewrite P. subst digest. vm_compute in E. injection E as <-.
    vm_compute. reflexivity.
Defined.

(** ** C6: which script tokens become a detail URL *)






(** ** The monad *)

Lemma bind_ret_inv {S A B : Type} (m : M S A) (f : A -> M S B) (s s' : S) (b : B) :
  bind m f s = (Ret b, s') ->
  exists a s1, m s = (Ret a, s1) /\ f a s1 = (Ret b, s').
Proof.
  unfold bind. destruct (m s) as [[a|e] s1]; [eauto|discriminate].
Qed.

Lemma bind_ret {S A B : Type} (m : M S A) (f : A -> M S B) (s s1 : S) (a : A) :
  m s = (Ret a, s1) -> bind m f s = f a s1.
Proof. unfold bind. now intros ->. Qed.

Lemma bind_raise {S A B : Type} (m : M S A) (f : A -> M S B) (s s1 : S) (e : exn) :
  m s = (Raise e, s1) -> bind m f s = (Raise e, s1).
Proof. unfold bind. now intros ->. Qed.

Lemma ret_inv {S A : Type} (a b : A) (s s' : S) :
  @ret S A a s = (Ret b, s') -> a = b /\ s = s'.
Proof. unfold ret. intros E. injection E as -> ->. auto. Qed.



(** Splits a hypothesis [bind m f s = (Ret b, s')] into the two runs. *)
Ltac bind_inv E :=
  let a := fresh "a" in let s1 := fresh "s" in
  let E1 := fresh "E" in
  apply bind_ret_inv in E as [a [s1 [E1 E]]].

(** ** Driver calls *)


Lemma invoke_raise {W : Type} `{Driver W} {T : Type} (o : op T) (s : session W)
  (e : exn) (w1 : W) :
  perform o (world s) = (Raise e, w1) ->
  invoke o s = (Raise e, mk_session w1 (trace s ++ [Call o])).
Proof. unfold invoke. now intros ->. Qed.

Lemma invoke_ret_inv {W : Type} `{Driver W} {T : Type} (o : op T) (s s' : session W)
  (a : T) :
  invoke o s = (Ret a, s') ->
  exists w1, perform o (world s) = (Ret a, w1)
             /\ s' = mk_session w1 (trace s ++ [Call o]).
Proof.
  unfold invoke. destruct (perform o (world s)) as [[x|e] w1]; [|discriminate].
  intros E. injection E as -> <-. eauto.
Qed.

(** ** C1: the truncation rule *)

Lemma is_truncated_iff (cfg : config) (b : batch) :
  is_truncated cfg b = true
  <-> truncated (rowCount b) (totalHits b) (split_threshold cfg).
Proof.
  unfold is_truncated, truncated. rewrite orb_true_iff, Z.leb_le.
  split; intros [L|R]; auto; right.
  - destruct (totalHits b) as [t|]; [|discriminate].
    exists t. split; [reflexivity|now apply Z.ltb_lt].
  - destruct R as [t [-> L]]. now apply Z.ltb_lt.
Qed.

(** A completed search of a term ends in the state it started from (the
    slider could not be passed) or in the state [absorb_batch] gives for the
    batch that the driver answered to [ExtractRows], with the artifact
    counts added. *)
Lemma search_term_inv {W : Type} `{Driver W} `{Runtime}
  (cfg : config) (abc : list str) (term : str) (st st' : explorer) (s s' : session W) :
  search_term cfg abc term st s = (Ret st', s') ->
  st' = st
  \/ exists (b : batch) (w0 w1 : W),
       perform ExtractRows w0 = (Ret b, w1)
       /\ (absorb_batch cfg abc term b st = Expanded st'
           \/ exists st0 new_unique_rows counts,
                absorb_batch cfg abc term b st = Merged st0 new_unique_rows
                /\ st' = add_pdf_counts st0 counts).
Proof.
  intros E. unfold search_term in E.
  bind_inv E. bind_inv E. bind_inv E.
  match type of E with
  | (if ?c then _ else _) _ = _ => destruct c
  end.
  { apply ret_inv in E as [-> _]. now left. }
  bind_inv E. bind_inv E. bind_inv E. bind_inv E.
  right.
  match goal with
  | X : invoke ExtractRows ?s0 = (Ret ?b, _) |- _ =>
      apply invoke_ret_inv in X as [w1 [X _]];
      exists b, (world s0), w1; split; [exact X|];
      destruct (absorb_batch cfg abc term b st) as [st0|st0 new]
  end.
  - bind_inv E. apply ret_inv in E as [-> _]. now left.
  - bind_inv E. bind_inv E. apply ret_inv in E as [<- _].
    right. eauto.
Qed.


(** ** Insertion-ordered dicts *)

Section Dict.
Context {V : Type}.
Implicit Types (d : list (str * V)) (k : str) (v : V).

Lemma str_eqb_sym (a b : str) : str_eqb a b = str_eqb b a.
Proof.
  destruct (str_eqb a b) eqn:E.
  - apply str_eqb_eq in E as ->. now rewrite str_eqb_refl.
  - symmetry. apply str_eqb_neq. apply str_eqb_neq in E. congruence.
Qed.

Lemma str_mem_In (k : str) (l : list str) : str_mem k l = true <-> In k l.
Proof.
  unfold str_mem. rewrite existsb_exists. split.
  - intros [x [I E]]. apply str_eqb_eq in E. now subst.
  - intros I. exists k. split; [exact I|apply str_eqb_refl].
Qed.

Lemma dict_mem_keys d k : dict_mem d k = str_mem k (map fst d).
Proof.
  unfold dict_mem, str_mem. induction d as [|[k' v'] d IH]; simpl; [reflexivity|].
  rewrite (str_eqb_sym k k'). destruct (str_eqb k' k); [reflexivity|exact IH].
Qed.

Lemma dict_set_keys d k v :
  map fst (dict_set d k v) = if dict_mem d k then map fst d else map fst d ++ [k].
Proof.
  unfold dict_mem. induction d as [|[k' v'] d IH]; simpl; [reflexivity|].
  destruct (str_eqb k' k); simpl; [reflexivity|].
  rewrite IH. now destruct (dict_lookup d k).
Qed.

Lemma dict_set_wf d k v : dict_wf d -> dict_wf (dict_set d k v).
Proof.
  unfold dict_wf. intros ND. rewrite dict_set_keys.
  destruct (dict_mem d k) eqn:E; [exact ND|].
  apply NoDup_app; [exact ND|repeat constructor; intros []|].
  intros x I [<-|[]]. rewrite dict_mem_keys in E.
  apply str_mem_In in I. congruence.
Qed.

Lemma dict_lookup_set_same d k v : dict_lookup (dict_set d k v) k = Some v.
Proof.
  induction d as [|[k' v'] d IH]; simpl.
  - now rewrite str_eqb_refl.
  - destruct (str_eqb k' k) eqn:E; simpl; now rewrite E.
Qed.

Lemma dict_lookup_set_other d k k0 v :
  k <> k0 -> dict_lookup (dict_set d k v) k0 = dict_lookup d k0.
Proof.
  intros N. induction d as [|[k' v'] d IH]; simpl.
  - apply str_eqb_neq in N. now rewrite N.
  - destruct (str_eqb k' k) eqn:E; simpl; [|now rewrite IH].
    apply str_eqb_eq in E as ->. apply str_eqb_neq in N. now rewrite N.
Qed.

Lemma put_all_keys (writes : list (str * V)) d :
  map fst (put_all writes d) = insertion_order (map fst d) (map fst writes).
Proof.
  unfold put_all. revert d. induction writes as [|[k v] ws IH]; intros d; simpl.
  - reflexivity.
  - rewrite IH, dict_set_keys, dict_mem_keys. reflexivity.
Qed.

Lemma put_all_wf (writes : list (str * V)) d : dict_wf d -> dict_wf (put_all writes d).
Proof.
  unfold put_all. revert d. induction writes as [|[k v] ws IH]; intros d Wd; simpl.
  - exact Wd.
  - apply IH. now apply dict_set_wf.
Qed.

Lemma put_all_app (w1 w2 : list (str * V)) d :
  put_all (w1 ++ w2) d = put_all w2 (put_all w1 d).
Proof. unfold put_all. apply fold_left_app. Qed.

Lemma put_all_lookup_other (writes : list (str * V)) d k :
  ~ In k (map fst writes) -> dict_lookup (put_all writes d) k = dict_lookup d k.
Proof.
  unfold put_all. revert d. induction writes as [|[k' v'] ws IH]; intros d N; simpl.
  - reflexivity.
  - rewrite IH by (intros I; apply N; now right).
    apply dict_lookup_set_other. intros ->. apply N. now left.
Qed.

(** Last write wins. *)
Lemma put_all_last (before after : list (str * V)) d k v :
  ~ In k (map fst after) ->
  dict_lookup (put_all (before ++ (k, v) :: after) d) k = Some v.
Proof.
  intros N. rewrite put_all_app. change ((k, v) :: after) with ([(k, v)] ++ after).
  rewrite put_all_app, put_all_lookup_other by exact N.
  apply dict_lookup_set_same.
Qed.

Lemma put_all_mem (writes : list (str * V)) d k :
  In k (map fst (put_all writes d)) <-> In k (map fst d) \/ In k (map fst writes).
Proof.
  unfold put_all. revert d. induction writes as [|[k' v'] ws IH]; intros d; simpl.
  - tauto.
  - rewrite IH, dict_set_keys. destruct (dict_mem d k') eqn:E.
    + rewrite dict_mem_keys in E. apply str_mem_In in E.
      split; [tauto|]. intros [I|[<-|I]]; auto.
    + rewrite in_app_iff. simpl. tauto.
Qed.

End Dict.

(** ** C3: the Record Store *)

Lemma merge_rows_store `{Runtime} (term : str) (rs : list row) (acc : list (str * row) * list row) :
  fst (fold_left (merge_row term) rs acc)
  = put_all (map (fun r => (row_key (tag_row term r), tag_row term r)) rs) (fst acc).
Proof.
  revert acc. induction rs as [|r rs IH]; intros acc; simpl; [reflexivity|].
  now rewrite IH.
Qed.

Lemma merge_batches_writes `{Runtime} (bs : list (str * list row)) (store : list (str * row)) :
  merge_batches bs store = put_all (map (fun r => (row_key r, r)) (processed bs)) store.
Proof.
  unfold merge_batches, processed. revert store.
  induction bs as [|[term rs] bs IH]; intros store; simpl; [reflexivity|].
  rewrite IH, map_app, put_all_app. f_equal.
  unfold merge_rows. rewrite merge_rows_store, map_map. reflexivity.
Qed.

Lemma map_fst_writes `{Runtime} (seq : list row) :
  map fst (map (fun r => (row_key r, r)) seq) = map row_key seq.
Proof. rewrite map_map. reflexivity. Qed.

(** ** One turn of the loop *)

(** What a completed turn does to the queue, the store and the overflow
    list: the head of the queue is gone, and either nothing else changed,
    or the children of the head were queued, or a batch was merged. *)
Lemma iteration_inv {W : Type} `{Driver W} `{Runtime}
  (cfg : config) (abc : list str) (term : str) (rest : list str)
  (st st' : explorer) (s s' : session W) :
  queue st = term :: rest ->
  iteration cfg abc st s = (Ret st', s') ->
  (queue st' = rest /\ collected st' = collected st
   /\ unresolved_overflows st' = unresolved_overflows st)
  \/ exists b : batch,
       (is_truncated cfg b = true /\ (Z.of_nat (length term) < max_depth cfg)%Z
        /\ queue st' = rest ++ children abc term
        /\ collected st' = collected st
        /\ unresolved_overflows st' = unresolved_overflows st)
       \/ (queue st' = rest
           /\ collected st' = fst (merge_rows term (rows b) (collected st))
           /\ unresolved_overflows st'
              = if is_truncated cfg b
                then unresolved_overflows st
                     ++ [mk_overflow term (rowCount b) (totalHits b)]
                else unresolved_overflows st).
Proof.
  intros Q E. unfold iteration in E. rewrite Q in E.
  destruct (str_mem term (visited_terms st)).
  { apply ret_inv in E as [<- _]. left. auto. }
  apply search_term_inv in E as [->|[b [w0 [w1 [_ [E|[st0 [new [counts [E ->]]]]]]]]]].
  - left. auto.
  - right. exists b. left. unfold absorb_batch in E.
    destruct (is_truncated cfg b) eqn:T; simpl in E; [|discriminate].
    destruct (Z.ltb_spec (Z.of_nat (length term)) (max_depth cfg)); [|discriminate].
    injection E as <-. simpl. auto.
  - right. exists b. right. unfold absorb_batch in E.
    destruct (is_truncated cfg b && _); [discriminate|].
    injection E as <- _. simpl. auto.
Qed.

(** ** C3, continued: the store of a run is a sequence of merges *)

Lemma reachable_store {W : Type} `{Driver W} `{Runtime}
  (cfg : config) (st : explorer) (s : session W) :
  reachable cfg st s -> exists bs, collected st = merge_batches bs [].
Proof.
  induction 1 as [s|st st' s s' R [bs IH] E].
  - now exists [].
  - destruct (queue st) as [|term rest] eqn:Q.
    + unfold iteration in E. rewrite Q in E. apply ret_inv in E as [<- _]. eauto.
    + eapply iteration_inv in E; [|exact Q].
      destruct E as [[_ [C _]]|[b [[_ [_ [_ [C _]]]]|[_ [C _]]]]].
      * exists bs. congruence.
      * exists bs. congruence.
      * exists (bs ++ [(term, rows b)]). rewrite C, IH.
        unfold merge_batches. rewrite fold_left_app. reflexivity.
Qed.

(** C3: after any sequence of merged batches the Record Store holds no key
    twice; its keys are the canonical keys of the rows processed; under
    each key it holds the last row processed with that key; and its keys
    stand in first-insertion order.  The store of every state the loop of
    [run] reaches is such a store, and the persisted rows are its values in
    the order of its keys. *)
Theorem record_store_last_write_wins {W : Type} `{Driver W} `{Runtime} :
  (forall bs : list (str * list row),
      let store := merge_batches bs [] in
      let seq := processed bs in
      dict_wf store
      /\ (forall k : str, In k (map fst store) <-> In k (map row_key seq))
      /\ (forall (before : list row) (r : row) (after : list row),
            seq = before ++ r :: after ->
            ~ In (row_key r) (map row_key after) ->
            dict_lookup store (row_key r) = Some r)
      /\ map fst store = insertion_order [] (map row_key seq))
  /\ (forall (cfg : config) (st : explorer) (s : session W),
        reachable cfg st s -> exists bs, collected st = merge_batches bs [])
  /\ (forall st : explorer,
        json_rows (persist st) = map snd (collected st)
        /\ csv_rows (persist st) = map snd (collected st)).
Proof.
  split; [|split].
  - intros bs store seq. subst store. rewrite merge_batches_writes. fold seq.
    split; [|split; [|split]].
    + apply put_all_wf. constructor.
    + intros k. rewrite put_all_mem, map_fst_writes. simpl. tauto.
    + intros before r after -> N. rewrite map_app. simpl.
      apply put_all_last. now rewrite map_fst_writes.
    + now rewrite put_all_keys, map_fst_writes.
  - intros cfg st s. apply reachable_store.
  - intros st. split; reflexivity.
Qed.

(** ** C7: the depth bound and the end of the loop *)

Lemma dedupe_Forall (P : str -> Prop) (seen xs : list str) :
  Forall P xs -> Forall P (dedupe seen xs).
Proof.
  intros F. revert seen. induction F as [|x xs Px F IH]; intros seen; simpl.
  - constructor.
  - destruct (str_mem x seen); [apply IH|constructor; [exact Px|apply IH]].
Qed.

Lemma letters_single (cfg : config) : Forall (fun ch => length ch = 1) (letters cfg).
Proof.
  unfold letters. apply dedupe_Forall, Forall_map, Forall_forall. reflexivity.
Qed.

Lemma weight_pos (width left : nat) : 1 <= weight width left.
Proof. destruct left; simpl; lia. Qed.

Lemma queue_weight_app (cfg : config) (q1 q2 : list str) :
  queue_weight cfg (q1 ++ q2) = queue_weight cfg q1 + queue_weight cfg q2.
Proof. unfold queue_weight. now rewrite map_app, list_sum_app. Qed.

Lemma children_weight (cfg : config) (abc : list str) (term : str) (n : nat) :
  Forall (fun ch => length ch = 1) abc ->
  depth_left cfg term = S n ->
  queue_weight cfg (children abc term)
  = length abc * weight (length (letters cfg)) n.
Proof.
  intros F D. unfold queue_weight, children.
  induction F as [|ch abc L F IH]; simpl; [reflexivity|].
  rewrite IH. f_equal. f_equal.
  unfold depth_left in *. rewrite length_app, L. lia.
Qed.

Lemma iteration_decreases {W : Type} `{Driver W} `{Runtime}
  (cfg : config) (term : str) (rest : list str) (st st' : explorer) (s s' : session W) :
  queue st = term :: rest ->
  iteration cfg (letters cfg) st s = (Ret st', s') ->
  queue_weight cfg (queue st') < queue_weight cfg (queue st).
Proof.
  intros Q E. rewrite Q.
  change (term :: rest) with ([term] ++ rest). rewrite queue_weight_app.
  assert (Head : queue_weight cfg [term]
                 = weight (length (letters cfg)) (depth_left cfg term))
    by (unfold queue_weight; simpl; lia).
  pose proof (weight_pos (length (letters cfg)) (depth_left cfg term)) as Pos.
  eapply iteration_inv in E; [|exact Q].
  destruct E as [[-> _]|[b [[_ [D [-> _]]]|[-> _]]]]; try lia.
  rewrite queue_weight_app.
  destruct (depth_left cfg term) as [|n] eqn:L; [unfold depth_left in L; lia|].
  rewrite (children_weight _ _ (letters_single cfg) L), Head. simpl. lia.
Qed.

Lemma term_loop_ends {W : Type} `{Driver W} `{Runtime}
  (cfg : config) (fuel : nat) (st : explorer) (s : session W) :
  queue_weight cfg (queue st) <= fuel ->
  (exists st' s', term_loop fuel cfg (letters cfg) st s = (Ret (Some st'), s')
                  /\ queue st' = [])
  \/ (exists e s', term_loop fuel cfg (letters cfg) st s = (Raise e, s')).
Proof.
  revert st s. induction fuel as [|fuel IH]; intros st s B.
  - destruct (queue st) as [|term rest] eqn:Q.
    + left. exists st, s. simpl. rewrite Q. auto.
    + exfalso. unfold queue_weight in B. simpl in B.
      pose proof (weight_pos (length (letters cfg)) (depth_left cfg term)). lia.
  - simpl. destruct (queue st) as [|term rest] eqn:Q.
    + left. exists st, s. auto.
    + destruct (iteration cfg (letters cfg) st s) as [[st'|e] s1] eqn:E.
      * erewrite bind_ret by exact E. apply IH.
        eapply iteration_decreases in E; [|exact Q]. rewrite Q in E. lia.
      * right. exists e, s1. now erewrite bind_raise by exact E.
Qed.

Lemma reachable_depth {W : Type} `{Driver W} `{Runtime}
  (cfg : config) (st : explorer) (s : session W) :
  reachable cfg st s ->
  Forall (fun t => (Z.of_nat (length t) <= Z.max 1 (max_depth cfg))%Z) (queue st).
Proof.
  induction 1 as [s|st st' s s' R IH E].
  - simpl. eapply Forall_impl; [|apply letters_single].
    intros ch L. simpl in L. rewrite L. lia.
  - destruct (queue st) as [|term rest] eqn:Q.
    + unfold iteration in E. rewrite Q in E. apply ret_inv in E as [<- _].
      now rewrite Q.
    + inversion IH as [|? ? Ht Hrest]; subst.
      eapply iteration_inv in E; [|exact Q].
      destruct E as [[-> _]|[b [[_ [D [-> _]]]|[-> _]]]]; auto.
      apply Forall_app. split; [exact Hrest|].
      unfold children. apply Forall_map.
      eapply Forall_impl; [|apply letters_single].
      intros ch L. simpl in L. rewrite length_app, L. lia.
Qed.

(** C7, as stated, fails for a depth bound below 1: the seeds, of length
    1, are queued whatever the bound is. *)
Lemma depth_zero_counterexample :
  queue (initial_explorer depth0_cfg) = [lit "a"; lit "b"]
  /\ max_depth depth0_cfg = 0%Z
  /\ (max_depth depth0_cfg <? Z.of_nat (length (lit "a")))%Z = true.
Proof. repeat split. Qed.

(** C7, amended: every term in the queue of a state the loop reaches has
    length at most the larger of 1 and [max_depth] (at most [max_depth]
    whenever that is 1 or more); and from its initial state the loop ends,
    with an empty queue or by an exception of a driver call, within
    [turns_bound] turns. *)
Theorem explorer_depth_bound_and_termination {W : Type} `{Driver W} `{Runtime}
  (cfg : config) :
  (forall (st : explorer) (s : session W),
      reachable cfg st s ->
      Forall (fun t => (Z.of_nat (length t) <= Z.max 1 (max_depth cfg))%Z) (queue st))
  /\ (forall (fuel : nat) (s : session W),
        turns_bound cfg <= fuel ->
        (exists st' s',
            term_loop fuel cfg (letters cfg) (initial_explorer cfg) s
            = (Ret (Some st'), s')
            /\ queue st' = [])
        \/ (exists e s',
              term_loop fuel cfg (letters cfg) (initial_explorer cfg) s
              = (Raise e, s'))).
Proof.
  split.
  - intros st s. apply reachable_depth.
  - intros fuel s B. apply term_loop_ends. exact B.
Qed.

(** ** C4: the idempotence gate *)

(** C4: when the destination path of a row, built from its canonical key
    and its resolved URL or the sentinel, is that of a file that exists,
    [download_pdf_for_row] returns success with the tag [letezik]
    ("exists") and leaves the session as it found it: no call of the driver
    is made and the world is untouched. *)
Theorem download_pdf_for_row_idempotent {W : Type} `{Driver W} `{Runtime}
  (r : row) (output_dir : str) (timeout_ms : Z) (page_pdf_fallback : bool)
  (s : session W) (destination : path) :
  build_pdf_path output_dir r
    (str_or (detail_url_from_row r (page_url (world s) ListingPage))
       (lit "row_click_fallback"))
  = Ret destination ->
  path_exists (world s) destination = true ->
  download_pdf_for_row r output_dir timeout_ms page_pdf_fallback s
  = (Ret (true, lit "letezik"), s)
  /\ trace (snd (download_pdf_for_row r output_dir timeout_ms page_pdf_fallback s))
     = trace s.
Proof.
  intros P X.
  assert (E : download_pdf_for_row r output_dir timeout_ms page_pdf_fallback s
              = (Ret (true, lit "letezik"), s)).
  { unfold download_pdf_for_row, observe, bind. rewrite P, X. reflexivity. }
  split; [exact E|now rewrite E].
Qed.

Lemma download_pdf_for_row_idempotent_witness :
  @download_pdf_for_row demo_world demo_driver latin_runtime name_city
    (lit "data/pdfs") 15000 false (fresh stocked_world)
  = (Ret (true, lit "letezik"), fresh stocked_world).
Proof.
  apply (@download_pdf_for_row_idempotent demo_world demo_driver latin_runtime
           name_city (lit "data/pdfs") 15000%Z false (fresh stocked_world)
           (mk_path (lit "data/pdfs") (lit "id_Dr._Kiss_fd7ec9a28d.pdf"))).
  - vm_compute. reflexivity.
  - vm_compute. reflexivity.
Defined.

(** ** C5: the order of the tiers *)




(** ** C8: fatal errors and absorbed failures *)




Lemma lift_invoke_raise_inv {W : Type} `{Driver W} {T : Type} (o : op T)
  (ls ls' : locals * session W) (e : exn) :
  lift (invoke o) ls = (Raise e, ls') ->
  exists w', perform o (world (snd ls)) = (Raise e, w').
Proof.
  unfold lift, invoke. destruct (perform o (world (snd ls))) as [[a|e0] w'].
  - discriminate.
  - intros E. injection E as <- _. eauto.
Qed.

Section Absorbed.
Context {W : Type} `{Driver W} `{Runtime}.





End Absorbed.




(** In a world whose network is down the retrieval of a row fails with
    the tag of the [except] clause, and the run goes on to its end. *)
Example offline_retrieval_is_absorbed :
  fst (@download_pdf_for_row demo_world demo_driver latin_runtime kiss
         (lit "data/pdfs") 15000 false (fresh offline_world))
  = Ret (false, lit "playwright_hiba")
  /\ exists out s',
       @run demo_world demo_driver latin_runtime 6 pdf_cfg (fresh offline_world)
       = (Ret (Some out), s')
       /\ map (fun r => dict_get r (lit "_query")) (json_rows out) = [VStr (lit "ab")].
Proof.
  split; [vm_compute; reflexivity|].
  eexists. eexists. split; [vm_compute; reflexivity|]. reflexivity.
Qed.

(** ** The scenarios of the design, evaluated *)

(** A batch under the threshold is merged and nothing else happens. *)
Example accept_scenario :
  @absorb_batch latin_runtime small_cfg (letters small_cfg) (lit "b") full_batch
    empty_explorer
  = Merged (mk_explorer [] [] [(lit "name:Dr. Kiss|row:{" ++ [dquote] ++ lit "nev"
                                ++ [dquote] ++ lit ": " ++ [dquote] ++ lit "Dr. Kiss"
                                ++ [dquote] ++ lit "}",
                                tag_row (lit "b") kiss)]
              [] 0 0)
           [tag_row (lit "b") kiss].
Proof. vm_compute. reflexivity. Qed.

(** A truncated batch at the depth bound leaves an Overflow Entry and its
    rows are merged all the same. *)
Example overflow_scenario :
  match @absorb_batch latin_runtime small_cfg (letters small_cfg) (lit "ab")
          cut_batch empty_explorer with
  | Merged st new_unique_rows =>
      unresolved_overflows st = [mk_overflow (lit "ab") 2 (Some 5%Z)]
      /\ map snd (collected st) = [tag_row (lit "ab") kiss; tag_row (lit "ab") nagy]
      /\ new_unique_rows = map snd (collected st)
      /\ queue st = []
  | Expanded _ => False
  end.
Proof. vm_compute. repeat split. Qed.

(** Two rows with no identifier and the same name but another town keep
    two keys. *)
Example distinct_rows_scenario :
  str_eqb
    (@row_key latin_runtime
       [(lit "nev", VStr (lit "Dr. Kiss")); (lit "varos", VStr (lit "Pecs"))])
    (@row_key latin_runtime
       [(lit "nev", VStr (lit "Dr. Kiss")); (lit "varos", VStr (lit "Szeged"))])
  = false.
Proof. vm_compute. reflexivity. Qed.

(** ** The theorems at work on the scripted driver *)


Lemma record_store_last_write_wins_witness :
  dict_lookup
    (@merge_batches latin_runtime
       [(lit "jo", [kiss_registered]); (lit "john", [kiss_registered])] [])
    (lit "id:12345")
  = Some (tag_row (lit "john") kiss_registered).
Proof.
  apply (proj1 (proj2 (proj2 (proj1 (@record_store_last_write_wins demo_world
                                       demo_driver latin_runtime)
                                [(lit "jo", [kiss_registered]);
                                 (lit "john", [kiss_registered])])))
           [tag_row (lit "jo") kiss_registered]
           (tag_row (lit "john") kiss_registered) []).
  - reflexivity.
  - intros [].
Defined.


Lemma explorer_depth_bound_and_termination_witness :
  exists st' s',
    @term_loop demo_world demo_driver latin_runtime 6 small_cfg (letters small_cfg)
      (initial_explorer small_cfg) (fresh calm_world)
    = (Ret (Some st'), s')
    /\ queue st' = [].
Proof.
  destruct (proj2 (@explorer_depth_bound_and_termination demo_world demo_driver
                     latin_runtime small_cfg) 6 (fresh calm_world))
    as [Done|[e [s' Aborted]]].
  - vm_compute. lia.
  - exact Done.
  - vm_compute in Aborted. discriminate Aborted.
Defined.


(* ====================================================================== *)
(** * Part III: further properties of the code *)
(* ====================================================================== *)

(** ** Stripping *)

Section Strip.
Variable p : char -> bool.

(** What stays after stripping a side does not begin with a stripped
    character. *)
Lemma lstrip_by_head (s : str) (c : char) (t : str) :
  lstrip_by p s = c :: t -> p c = false.
Proof.
  induction s as [|x s IH]; simpl; [discriminate|].
  destruct (p x) eqn:E; [exact IH|]. intros X. now injection X as <- _.
Qed.

Lemma lstrip_by_clean (s : str) :
  match s with [] => True | c :: _ => p c = false end -> lstrip_by p s = s.
Proof. destruct s as [|c t]; simpl; [reflexivity|]. now intros ->. Qed.

Lemma lstrip_by_idem (s : str) : lstrip_by p (lstrip_by p s) = lstrip_by p s.
Proof.
  apply lstrip_by_clean. destruct (lstrip_by p s) as [|c t] eqn:E; [exact I|].
  exact (lstrip_by_head _ E).
Qed.

(** [lstrip_by] drops a prefix of stripped characters. *)
Lemma lstrip_by_split (s : str) :
  exists dropped, s = dropped ++ lstrip_by p s /\ Forall (fun c => p c = true) dropped.
Proof.
  induction s as [|x s [d [E F]]]; simpl.
  - exists []. split; [reflexivity|constructor].
  - destruct (p x) eqn:Px.
    + exists (x :: d). split; [simpl; now rewrite <- E|now constructor].
    + exists []. split; [reflexivity|constructor].
Qed.

Lemma rstrip_by_split (s : str) :
  exists dropped, s = rstrip_by p s ++ dropped /\ Forall (fun c => p c = true) dropped.
Proof.
  unfold rstrip_by. destruct (lstrip_by_split (rev s)) as [d [E F]].
  exists (rev d). split; [|now apply Forall_rev].
  rewrite <- rev_app_distr, <- E. symmetry. apply rev_involutive.
Qed.

Lemma rstrip_by_idem (s : str) : rstrip_by p (rstrip_by p s) = rstrip_by p s.
Proof. unfold rstrip_by. now rewrite rev_involutive, lstrip_by_idem. Qed.

Lemma rstrip_by_last (s t : str) (c : char) :
  rstrip_by p s = t ++ [c] -> p c = false.
Proof.
  unfold rstrip_by. intros E.
  assert (R : lstrip_by p (rev s) = c :: rev t).
  { rewrite <- (rev_involutive (lstrip_by p (rev s))), E, rev_app_distr. reflexivity. }
  exact (lstrip_by_head _ R).
Qed.

(** Stripping the right side keeps a clean left side clean. *)
Lemma rstrip_by_head (s : str) (c : char) (t : str) :
  match s with [] => True | x :: _ => p x = false end ->
  rstrip_by p s = c :: t -> p c = false.
Proof.
  intros Clean E. destruct (rstrip_by_split s) as [d [S _]].
  rewrite E in S. destruct s as [|x s']; [discriminate|].
  simpl in S. now injection S as -> _.
Qed.

Lemma strip_by_head (s : str) (c : char) (t : str) :
  strip_by p s = c :: t -> p c = false.
Proof.
  unfold strip_by. apply rstrip_by_head.
  destruct (lstrip_by p s) as [|x u] eqn:E; [exact I|exact (lstrip_by_head _ E)].
Qed.

Lemma strip_by_last (s t : str) (c : char) :
  strip_by p s = t ++ [c] -> p c = false.
Proof. unfold strip_by. apply rstrip_by_last. Qed.

Lemma strip_by_idem (s : str) : strip_by p (strip_by p s) = strip_by p s.
Proof.
  unfold strip_by at 1.
  rewrite (lstrip_by_clean (strip_by p s)).
  - unfold strip_by. apply rstrip_by_idem.
  - destruct (strip_by p s) as [|c t] eqn:E; [exact I|exact (strip_by_head _ E)].
Qed.

Lemma lstrip_by_all (s : str) : Forall (fun c => p c = true) s -> lstrip_by p s = [].
Proof. induction 1 as [|c s Pc _ IH]; simpl; [reflexivity|now rewrite Pc]. Qed.

Lemma strip_by_all (s : str) : Forall (fun c => p c = true) s -> strip_by p s = [].
Proof. intros F. unfold strip_by. now rewrite (lstrip_by_all F). Qed.

(** A string with clean ends is left as it is. *)
Lemma strip_by_clean (s : str) :
  p (hd 0%N s) = false -> p (last s 0%N) = false -> s <> [] -> strip_by p s = s.
Proof.
  intros Hh Hl Ne. unfold strip_by.
  rewrite lstrip_by_clean by (destruct s; [exact I|exact Hh]).
  unfold rstrip_by. rewrite lstrip_by_clean; [apply rev_involutive|].
  destruct (rev s) as [|x u] eqn:R; [exact I|].
  assert (S : s = rev u ++ [x]) by (rewrite <- (rev_involutive s), R; reflexivity).
  rewrite S, last_last in Hl. exact Hl.
Qed.

End Strip.

(** ** [normalize], lines 49-52 *)

Lemma normalize_head (v : value) (c : char) (t : str) :
  normalize v = c :: t -> is_space c = false.
Proof. destruct v; simpl; try discriminate; apply strip_by_head. Qed.

(** [normalize] trims for good: its result neither begins nor ends with
    white space, normalizing it again changes nothing, and [None] and
    all-blank text both give the empty string. *)
Theorem normalize_trims (v : value) :
  normalize (VStr (normalize v)) = normalize v
  /\ (forall c t, normalize v = c :: t -> is_space c = false)
  /\ (forall t c, normalize v = t ++ [c] -> is_space c = false)
  /\ normalize VNone = []
  /\ (forall s, Forall (fun c => is_space c = true) s -> normalize (VStr s) = []).
Proof.
  split; [|split; [|split; [|split]]].
  - destruct v; simpl; unfold strip; try apply strip_by_idem. reflexivity.
  - intros c t. apply normalize_head.
  - intros t c. destruct v; simpl.
    + now destruct t.
    + apply strip_by_last.
    + apply strip_by_last.
  - reflexivity.
  - intros s F. simpl. now apply strip_by_all.
Qed.

(** ** The quoted tokens of a script, line 410 *)

Lemma scan_quoted_tokens (opened : option str) (js : str) :
  match opened with
  | None => True
  | Some acc => forallb (fun c => negb (is_quote c)) acc = true
  end ->
  Forall (fun tok => nonempty tok = true
                     /\ forallb (fun c => negb (is_quote c)) tok = true)
         (scan_quoted opened js).
Proof.
  revert opened. induction js as [|c js IH]; intros opened Acc; simpl.
  - constructor.
  - destruct opened as [acc|].
    + destruct (is_quote c) eqn:Q.
      * destruct (nonempty acc) eqn:N.
        -- constructor; [auto|]. now apply IH.
        -- now apply IH.
      * apply IH. rewrite forallb_app, Acc. simpl. now rewrite Q.
    + destruct (is_quote c); now apply IH.
Qed.

Lemma scan_quoted_no_quote (js : str) :
  forallb (fun c => negb (is_quote c)) js = true -> scan_quoted None js = [].
Proof.
  induction js as [|c js IH]; simpl; [reflexivity|].
  intros F. apply andb_true_iff in F as [Q F].
  apply negb_true_iff in Q. rewrite Q. now apply IH.
Qed.

(** The candidates read from a script are never empty and hold no quote
    character; a script with no quote in it has no candidate and resolves
    to no URL. *)
Theorem script_candidates_are_quoted_text `{Runtime} :
  (forall js : str,
      Forall (fun tok => nonempty tok = true
                         /\ forallb (fun c => negb (is_quote c)) tok = true)
             (scan_quoted None js))
  /\ (forall js base_url : str,
        forallb (fun c => negb (is_quote c)) js = true ->
        extract_url_from_js js base_url = []).
Proof.
  split.
  - intros js. now apply scan_quoted_tokens.
  - intros js base_url F. unfold extract_url_from_js.
    rewrite (scan_quoted_no_quote _ F). now destruct (nonempty js).
Qed.

(** ** [first_row_value_by_markers], lines 392-399, next to [row_key] *)

Lemma first_row_value_trimmed `{Runtime} (r : row) (markers : list str) (c : char) (t : str) :
  first_row_value_by_markers r markers = c :: t -> is_space c = false.
Proof.
  induction r as [|[k v] r IH]; simpl; [discriminate|].
  destruct (any_in markers (casefold k)); [|exact IH].
  destruct (nonempty (normalize v)) eqn:N; [|exact IH].
  intros E. eapply normalize_head, E.
Qed.

Lemma scan_id_first_row_value `{Runtime} (r : row) :
  Forall (fun kv => is_hint (fst kv) = true ->
                    any_in key_markers (casefold (fst kv)) = false) r ->
  scan_id r
  = if nonempty (first_row_value_by_markers r key_markers)
    then Some (first_row_value_by_markers r key_markers)
    else None.
Proof.
  induction 1 as [|[k v] r Hk _ IH]; simpl; [reflexivity|]. simpl in Hk.
  destruct (is_hint k) eqn:Hint.
  - rewrite (Hk eq_refl). exact IH.
  - destruct (any_in key_markers (casefold k)); [|exact IH].
    destruct (nonempty (normalize v)) eqn:N; [now rewrite N|exact IH].
Qed.

(** On a row none of whose hint fields carries an identifier marker, the
    identifier that names the artifact file and the one in the canonical
    key are the same: the key is [id:] followed by the value
    [first_row_value_by_markers] finds, and it is a [name:] key exactly
    when that finds none. *)
Theorem row_key_agrees_with_file_identifier `{Runtime} (r : row) :
  Forall (fun kv => is_hint (fst kv) = true ->
                    any_in key_markers (casefold (fst kv)) = false) r ->
  (first_row_value_by_markers r key_markers <> [] ->
   row_key r = lit "id:" ++ first_row_value_by_markers r key_markers)
  /\ (first_row_value_by_markers r key_markers = [] ->
      row_key r = lit "name:" ++ scan_name [] r ++ lit "|row:"
                  ++ json_dumps_sorted (canonical r)).
Proof.
  intros F. unfold row_key. rewrite (scan_id_first_row_value F). split.
  - intros N. destruct (first_row_value_by_markers r key_markers); [easy|reflexivity].
  - intros ->. reflexivity.
Qed.

Lemma row_key_agrees_with_file_identifier_witness :
  @row_key latin_runtime sealed_row = lit "id:40123".
Proof.
  rewrite (proj1 (@row_key_agrees_with_file_identifier latin_runtime sealed_row
                    ltac:(repeat constructor; discriminate))).
  - vm_compute. reflexivity.
  - vm_compute. discriminate.
Defined.

(** ** The artifact path does not depend on the term *)

Lemma first_row_value_dict_set `{Runtime} (r : row) (markers : list str) (k : str) (v : value) :
  any_in markers (casefold k) = false ->
  first_row_value_by_markers (dict_set r k v) markers
  = first_row_value_by_markers r markers.
Proof.
  intros Hk. induction r as [|[k' v'] r IH]; simpl.
  - now rewrite Hk.
  - destruct (str_eqb k' k) eqn:E; simpl.
    + apply str_eqb_eq in E as ->. now rewrite Hk.
    + now rewrite IH.
Qed.

(** Attaching the term to a row changes neither the seed nor the
    destination of its artifact: a record met again under another term is
    looked for at the same path. *)
Theorem build_pdf_path_ignores_term `{Runtime} (output_dir : str) (r : row)
  (term detail_url : str) :
  pdf_seed (tag_row term r) detail_url = pdf_seed r detail_url
  /\ build_pdf_path output_dir (tag_row term r) detail_url
     = build_pdf_path output_dir r detail_url.
Proof.
  assert (S : pdf_seed (tag_row term r) detail_url = pdf_seed r detail_url).
  { unfold pdf_seed, tag_row. now rewrite row_key_dict_set_hint. }
  split; [exact S|].
  unfold build_pdf_path. rewrite S. unfold tag_row.
  now rewrite !first_row_value_dict_set.
Qed.

(** ** [sanitize_filename], lines 402-404: clean names *)

Lemma sub_runs_clean (keep : char -> bool) (s : str) :
  Forall (fun c => keep c = true) s -> sub_runs keep false s = s.
Proof. induction 1 as [|c s Kc _ IH]; simpl; [reflexivity|]. now rewrite Kc, IH. Qed.

Lemma sub_runs_length (keep : char -> bool) (b : bool) (s : str) :
  length (sub_runs keep b s) <= length s.
Proof.
  revert b. induction s as [|c s IH]; intros b; simpl; [lia|].
  destruct (keep c); simpl.
  - specialize (IH false). lia.
  - destruct b; simpl; specialize (IH true); lia.
Qed.

Lemma strip_by_length (p : char -> bool) (s : str) : length (strip_by p s) <= length s.
Proof.
  unfold strip_by.
  destruct (rstrip_by_split p (lstrip_by p s)) as [d1 [E1 _]].
  destruct (lstrip_by_split p s) as [d2 [E2 _]].
  apply (f_equal (@length _)) in E1, E2. rewrite length_app in E1, E2. lia.
Qed.

Lemma hd_firstn (n : nat) (s : str) : 0 < n -> hd 0%N (firstn n s) = hd 0%N s.
Proof. destruct n; [lia|]. now destruct s. Qed.

(** [sanitize_filename] leaves a clean name alone: a name of 1 to 90
    allowed characters that neither begins nor ends with a dot or an
    underscore is returned unchanged; and on any name of at most 90
    characters it is idempotent. *)
Theorem sanitize_filename_keeps_clean_names `{Runtime} :
  (forall v : str,
      v <> [] -> length v <= 90 ->
      Forall (fun c => filename_char c = true) v ->
      is_dot_or_underscore (hd 0%N v) = false ->
      is_dot_or_underscore (last v 0%N) = false ->
      sanitize_filename v = v)
  /\ (forall v : str,
        length v <= 90 ->
        sanitize_filename (sanitize_filename v) = sanitize_filename v).
Proof.
  assert (Clean : forall v : str,
             v <> [] -> length v <= 90 ->
             Forall (fun c => filename_char c = true) v ->
             is_dot_or_underscore (hd 0%N v) = false ->
             is_dot_or_underscore (last v 0%N) = false ->
             sanitize_filename v = v).
  { intros v Ne Len F Hh Hl. unfold sanitize_filename, cleaned_filename, strip_dots.
    rewrite sub_runs_clean by exact F.
    rewrite strip_by_clean; [|exact Hh|exact Hl|exact Ne].
    rewrite firstn_all2 by exact Len. unfold str_or. now destruct v. }
  split; [exact Clean|].
  intros v Len. unfold sanitize_filename at 2 3. unfold str_or.
  assert (Short : length (cleaned_filename v) <= 90).
  { unfold cleaned_filename, strip_dots.
    pose proof (strip_by_length (fun c => (c =? 46)%N || (c =? underscore)%N)
                  (sub_runs filename_char false v)).
    pose proof (sub_runs_length filename_char false v). lia. }
  rewrite firstn_all2 by exact Short.
  destruct (cleaned_filename v) as [|c t] eqn:E; simpl.
  - apply Clean; try (simpl; lia); try reflexivity; [discriminate|apply unknown_chars].
  - apply Clean.
    + discriminate.
    + exact Short.
    + rewrite <- E. apply cleaned_filename_chars.
    + simpl. unfold cleaned_filename, strip_dots in E.
      eapply strip_by_head in E. exact E.
    + destruct (exists_last (l := c :: t) ltac:(discriminate)) as [t' [x L]].
      rewrite L, last_last. unfold cleaned_filename, strip_dots in E.
      rewrite L in E. eapply strip_by_last in E. exact E.
Qed.

Lemma sanitize_filename_keeps_clean_names_witness :
  @sanitize_filename latin_runtime (lit "40123-B.v2") = lit "40123-B.v2".
Proof.
  apply (proj1 (@sanitize_filename_keeps_clean_names latin_runtime)).
  - discriminate.
  - simpl. lia.
  - repeat constructor.
  - reflexivity.
  - reflexivity.
Defined.

(** ** [build_pdf_path], lines 457-466: the name stays inside the directory *)

Lemma filename_char_separator_free `{Runtime} (c : char) :
  filename_char c = true -> separator_free c.
Proof.
  intros F. repeat split; intros ->; discriminate F.
Qed.

Lemma is_hex_separator_free (c : char) : is_hex c = true -> separator_free c.
Proof. intros F. repeat split; intros ->; discriminate F. Qed.

Lemma Ret_inj {A : Type} (a b : A) : Ret a = Ret b -> a = b.
Proof. intros E. now injection E. Qed.

Lemma sanitize_filename_head `{Runtime} (v : str) :
  is_dot_or_underscore (hd 0%N (sanitize_filename v)) = false.
Proof.
  unfold sanitize_filename, str_or.
  destruct (firstn 90 (cleaned_filename v)) as [|c t] eqn:E; simpl; [reflexivity|].
  assert (Hd : hd 0%N (cleaned_filename v) = c).
  { rewrite <- (hd_firstn (cleaned_filename v) (n := 90)) by lia. now rewrite E. }
  destruct (cleaned_filename v) as [|c' t'] eqn:C; [discriminate|].
  simpl in Hd. subst c'. unfold cleaned_filename, strip_dots in C.
  eapply strip_by_head in C. exact C.
Qed.

(** Whatever the row holds, the artifact's file name has no slash, no
    backslash and no NUL, does not begin with a dot or an underscore, ends
    in [.pdf] and has 18 to 196 characters; the file is a direct child of
    the output directory. *)
Theorem artifact_name_is_safe `{Runtime} (output_dir : str) (r : row) (detail_url : str)
  (p : path) :
  build_pdf_path output_dir r detail_url = Ret p ->
  path_dir p = output_dir
  /\ Forall separator_free (path_name p)
  /\ is_dot_or_underscore (hd 0%N (path_name p)) = false
  /\ 18 <= length (path_name p) <= 196
  /\ exists stem, path_name p = stem ++ lit ".pdf".
Proof.
  unfold build_pdf_path.
  destruct (utf8_encode (pdf_seed r detail_url)) as [bytes|]; [|discriminate].
  intros E. cbv zeta in E. apply Ret_inj in E. subst p.
  cbn [path_dir path_name].
  destruct (sanitize_filename_sound
              (str_or (first_row_value_by_markers r key_markers) (lit "id")))
    as [Ne1 [L1 [F1 _]]].
  destruct (sanitize_filename_sound
              (str_or (first_row_value_by_markers r name_markers) (lit "orvos")))
    as [Ne2 [L2 [F2 _]]].
  pose proof (sanitize_filename_head
                (str_or (first_row_value_by_markers r key_markers) (lit "id"))) as Hd.
  pose proof (hexdigest_length bytes) as LH.
  pose proof (hexdigest_is_hex bytes) as FH.
  revert Ne1 L1 F1 Hd Ne2 L2 F2 LH FH.
  generalize (sanitize_filename
                (str_or (first_row_value_by_markers r key_markers) (lit "id"))).
  generalize (sanitize_filename
                (str_or (first_row_value_by_markers r name_markers) (lit "orvos"))).
  generalize (Sha1.hexdigest bytes).
  intros hex nm id Ne1 L1 F1 Hd Ne2 L2 F2 LH FH.
  assert (LD : length (firstn 10 hex) = 10) by (rewrite length_firstn; lia).
  assert (U : Forall separator_free (lit "_")).
  { constructor; [|constructor]. repeat split; discriminate. }
  assert (X : Forall separator_free (lit ".pdf")).
  { repeat (constructor; [repeat split; discriminate|]). constructor. }
  split; [reflexivity|]. split; [|split; [|split]].
  - repeat (apply Forall_app; split); try assumption.
    + eapply Forall_impl; [|exact F1]. intros c. apply filename_char_separator_free.
    + eapply Forall_impl; [|exact F2]. intros c. apply filename_char_separator_free.
    + eapply Forall_impl; [|apply Forall_firstn, FH].
      intros c. apply is_hex_separator_free.
  - destruct id as [|c t]; [congruence|exact Hd].
  - rewrite !length_app, LD.
    change (length (lit "_")) with 1. change (length (lit ".pdf")) with 4.
    destruct id as [|c t]; [congruence|]. destruct nm as [|c' t']; [congruence|].
    cbn [length] in *. lia.
  - exists (id ++ lit "_" ++ nm ++ lit "_" ++ firstn 10 hex).
    now rewrite <- !app_assoc.
Qed.

Lemma artifact_name_is_safe_witness :
  Forall separator_free (lit "id_Dr._Kiss_fd7ec9a28d.pdf").
Proof.
  apply (@artifact_name_is_safe latin_runtime (lit "data/pdfs") name_city
           (lit "row_click_fallback")
           (mk_path (lit "data/pdfs") (lit "id_Dr._Kiss_fd7ec9a28d.pdf"))).
  vm_compute. reflexivity.
Defined.


(** ** [download_pdfs_for_rows], lines 783-812: the two counters *)

Lemma download_each_counts {W : Type} `{Driver W} `{Runtime}
  (selected_rows : list row) (output_dir : str) (timeout_ms : Z)
  (page_pdf_fallback : bool) (ok_count fail_count : nat) (s s' : session W)
  (counts : nat * nat) :
  download_each selected_rows output_dir timeout_ms page_pdf_fallback
    ok_count fail_count s = (Ret counts, s') ->
  fst counts + snd counts = ok_count + fail_count + length selected_rows.
Proof.
  revert ok_count fail_count s.
  induction selected_rows as [|r later IH]; intros ok_count fail_count s E; simpl in E.
  - apply ret_inv in E as [<- _]. simpl. lia.
  - bind_inv E. destruct (fst a); apply IH in E; simpl; lia.
Qed.

Lemma download_pdfs_for_rows_counts {W : Type} `{Driver W} `{Runtime}
  (new_rows : list row) (output_dir : str) (timeout_ms : Z)
  (page_pdf_fallback : bool) (max_per_query : Z) (s s' : session W)
  (counts : nat * nat) :
  download_pdfs_for_rows new_rows output_dir timeout_ms page_pdf_fallback
    max_per_query s = (Ret counts, s') ->
  fst counts + snd counts
  = if (0 <? max_per_query)%Z
    then Nat.min (Z.to_nat max_per_query) (length new_rows)
    else length new_rows.
Proof.
  unfold download_pdfs_for_rows. intros E. apply download_each_counts in E.
  rewrite E. destruct (0 <? max_per_query)%Z; [|reflexivity].
  now rewrite length_firstn.
Qed.

(** Every selected row is counted once, as a success or as a failure: the
    two counters add up to the number of rows given, or to the cap
    [max_per_query] when that is positive and smaller. *)
Theorem download_counts_add_up {W : Type} `{Driver W} `{Runtime}
  (new_rows : list row) (output_dir : str) (timeout_ms : Z)
  (page_pdf_fallback : bool) (max_per_query : Z) (s s' : session W)
  (ok_count fail_count : nat) :
  download_pdfs_for_rows new_rows output_dir timeout_ms page_pdf_fallback
    max_per_query s = (Ret (ok_count, fail_count), s') ->
  ok_count + fail_count
  = if (0 <? max_per_query)%Z
    then Nat.min (Z.to_nat max_per_query) (length new_rows)
    else length new_rows.
Proof. intros E. now apply download_pdfs_for_rows_counts in E. Qed.

Lemma download_counts_add_up_witness :
  1 + 0 = if (0 <? 1)%Z then Nat.min (Z.to_nat 1) (length [kiss; nagy])
          else length [kiss; nagy].
Proof.
  apply (@download_counts_add_up demo_world demo_driver latin_runtime
           [kiss; nagy] (lit "data/pdfs") 15000%Z false 1%Z (fresh calm_world)
           (snd (@download_pdfs_for_rows demo_world demo_driver latin_runtime
                   [kiss; nagy] (lit "data/pdfs") 15000%Z false 1%Z
                   (fresh calm_world)))).
  vm_compute. reflexivity.
Defined.

(** ** The merge loop, lines 914-920 *)

Lemma merge_rows_added `{Runtime} (term : str) (rs : list row)
  (acc : list (str * row) * list row) :
  exists added,
    snd (fold_left (merge_row term) rs acc) = snd acc ++ added
    /\ map fst (fst (fold_left (merge_row term) rs acc))
       = map fst (fst acc) ++ map row_key added
    /\ Forall (fun r => exists r0, In r0 rs /\ r = tag_row term r0) added.
Proof.
  revert acc. induction rs as [|r rs IH]; intros acc; simpl.
  - exists []. now rewrite !app_nil_r.
  - destruct (IH (merge_row term acc r)) as [added [N [K F]]].
    assert (F' : Forall (fun x => exists r0, (r = r0 \/ In r0 rs) /\ x = tag_row term r0)
                   added).
    { eapply Forall_impl; [|exact F]. intros x [r0 [I ->]]. eauto. }
    assert (S1 : snd (merge_row term acc r)
                 = if dict_mem (fst acc) (row_key (tag_row term r))
                   then snd acc else snd acc ++ [tag_row term r]) by reflexivity.
    assert (K1 : map fst (fst (merge_row term acc r))
                 = if dict_mem (fst acc) (row_key (tag_row term r))
                   then map fst (fst acc)
                   else map fst (fst acc) ++ [row_key (tag_row term r)])
      by (unfold merge_row; cbn [fst]; apply dict_set_keys).
    rewrite S1 in N. rewrite K1 in K.
    destruct (dict_mem (fst acc) (row_key (tag_row term r))).
    + exists added. split; [exact N|]. split; [exact K|exact F'].
    + exists (tag_row term r :: added). rewrite N, K, <- !app_assoc.
      split; [reflexivity|]. split; [reflexivity|].
      constructor; [|exact F']. exists r. split; [now left|reflexivity].
Qed.

Lemma merge_rows_keys `{Runtime} (term : str) (rs : list row) (store : list (str * row)) :
  map fst (fst (merge_rows term rs store))
  = map fst store ++ map row_key (snd (merge_rows term rs store)).
Proof.
  unfold merge_rows. destruct (merge_rows_added term rs (store, [])) as [added [N [K _]]].
  simpl in N, K. now rewrite N, K.
Qed.

Lemma merge_rows_wf `{Runtime} (term : str) (rs : list row) (store : list (str * row)) :
  dict_wf store -> dict_wf (fst (merge_rows term rs store)).
Proof.
  intros Wf. unfold merge_rows. rewrite merge_rows_store. now apply put_all_wf.
Qed.

Lemma NoDup_app_disjoint {A : Type} (l l' : list A) (x : A) :
  NoDup (l ++ l') -> In x l -> ~ In x l'.
Proof.
  induction l as [|a l IH]; simpl; intros ND I; [contradiction|].
  inversion ND as [|? ? Na ND']; subst. destruct I as [->|I].
  - intros I'. apply Na. apply in_or_app. now right.
  - now apply IH.
Qed.

(** [new_unique_rows] holds exactly the rows that brought a new key: the
    keys of the store after the batch are the keys it had, in their order,
    followed by the keys of the new rows in theirs.  No two new rows share
    a key, none has a key the store had, and each is a row of the batch
    with the term attached. *)
Theorem new_unique_rows_are_the_new_keys `{Runtime} (term : str) (rs : list row)
  (store : list (str * row)) :
  dict_wf store ->
  let merged := merge_rows term rs store in
  map fst (fst merged) = map fst store ++ map row_key (snd merged)
  /\ NoDup (map row_key (snd merged))
  /\ (forall r, In r (snd merged) -> ~ In (row_key r) (map fst store))
  /\ Forall (fun r => exists r0, In r0 rs /\ r = tag_row term r0) (snd merged).
Proof.
  intros Wf merged. subst merged.
  pose proof (merge_rows_wf term rs Wf) as Wf'. unfold dict_wf in Wf'.
  rewrite merge_rows_keys in Wf'.
  split; [apply merge_rows_keys|]. split; [|split].
  - eapply NoDup_app_remove_l. exact Wf'.
  - intros r I Old. eapply NoDup_app_disjoint; [exact Wf'|exact Old|].
    now apply in_map.
  - unfold merge_rows. destruct (merge_rows_added term rs (store, [])) as [added [N [_ F]]].
    simpl in N. now rewrite N.
Qed.

Lemma new_unique_rows_are_the_new_keys_witness :
  snd (@merge_rows latin_runtime (lit "b") [kiss_registered; nagy; kiss_registered]
         [(lit "id:12345", tag_row (lit "a") kiss_registered)])
  = [tag_row (lit "b") nagy].
Proof.
  pose proof (@new_unique_rows_are_the_new_keys latin_runtime (lit "b")
                [kiss_registered; nagy; kiss_registered]
                [(lit "id:12345", tag_row (lit "a") kiss_registered)]) as New.
  assert (Wf : dict_wf [(lit "id:12345", tag_row (lit "a") kiss_registered)])
    by (repeat constructor; simpl; tauto).
  destruct (New Wf) as [_ _]. vm_compute. reflexivity.
Defined.

(** ** The loop of [run], lines 863-934: what one turn does *)

(** A completed search, with the counts of the artifacts: they are zero
    unless the download is switched on, and never more than the new rows. *)
Lemma search_term_cases {W : Type} `{Driver W} `{Runtime}
  (cfg : config) (abc : list str) (term : str) (st st' : explorer) (s s' : session W) :
  search_term cfg abc term st s = (Ret st', s') ->
  st' = st
  \/ exists b : batch,
       absorb_batch cfg abc term b st = Expanded st'
       \/ exists st0 new_unique_rows counts,
            absorb_batch cfg abc term b st = Merged st0 new_unique_rows
            /\ st' = add_pdf_counts st0 counts
            /\ fst counts + snd counts <= length new_unique_rows
            /\ (download_pdfs cfg && negb (db_only cfg) = false -> counts = (0, 0)).
Proof.
  intros E. unfold search_term in E.
  bind_inv E. bind_inv E. bind_inv E.
  match type of E with
  | (if ?c then _ else _) _ = _ => destruct c
  end.
  { apply ret_inv in E as [-> _]. now left. }
  bind_inv E. bind_inv E. bind_inv E. bind_inv E.
  right.
  match goal with
  | X : invoke ExtractRows _ = (Ret ?b, _) |- _ =>
      exists b; destruct (absorb_batch cfg abc term b st) as [st0|st0 new]
  end.
  - bind_inv E. apply ret_inv in E as [-> _]. now left.
  - bind_inv E. bind_inv E. apply ret_inv in E as [<- _].
    right.
    match goal with
    | X : (if _ then _ else _) _ = (Ret ?counts, _) |- _ => exists st0, new, counts
    end.
    split; [reflexivity|]. split; [reflexivity|].
    match goal with
    | X : (if ?c && ?n then _ else _) _ = _ |- _ =>
        destruct c; cbn [andb] in X; [destruct n|]
    end.
    + split; [|discriminate].
      match goal with
      | X : download_pdfs_for_rows _ _ _ _ _ _ = _ |- _ =>
          apply download_pdfs_for_rows_counts in X; rewrite X
      end.
      destruct (0 <? max_pdfs_per_query cfg)%Z; lia.
    + match goal with
      | X : ret _ _ = _ |- _ => apply ret_inv in X as [<- _]
      end. split; [cbn [fst snd]; lia|discriminate].
    + match goal with
      | X : ret _ _ = _ |- _ => apply ret_inv in X as [<- _]
      end. split; [cbn [fst snd]; lia|reflexivity].
Qed.

(** The four ways a turn can end: the term had been searched; the slider
    was not passed; the batch was expanded; the batch was merged. *)
Lemma iteration_shapes {W : Type} `{Driver W} `{Runtime}
  (cfg : config) (abc : list str) (term : str) (rest : list str)
  (st st' : explorer) (s s' : session W) :
  queue st = term :: rest ->
  iteration cfg abc st s = (Ret st', s') ->
  (In term (visited_terms st) /\ s' = s
   /\ st' = mk_explorer rest (visited_terms st) (collected st)
              (unresolved_overflows st) (pdf_ok_total st) (pdf_fail_total st))
  \/ (~ In term (visited_terms st)
      /\ (st' = mk_explorer rest (visited_terms st ++ [term]) (collected st)
                  (unresolved_overflows st) (pdf_ok_total st) (pdf_fail_total st)
          \/ (exists b : batch,
                is_truncated cfg b = true
                /\ (Z.of_nat (length term) < max_depth cfg)%Z
                /\ st' = mk_explorer (rest ++ children abc term)
                           (visited_terms st ++ [term]) (collected st)
                           (unresolved_overflows st)
                           (pdf_ok_total st) (pdf_fail_total st))
          \/ (exists (b : batch) (counts : nat * nat),
                (is_truncated cfg b = true -> (max_depth cfg <= Z.of_nat (length term))%Z)
                /\ fst counts + snd counts
                   <= length (snd (merge_rows term (rows b) (collected st)))
                /\ (download_pdfs cfg && negb (db_only cfg) = false -> counts = (0, 0))
                /\ st' = mk_explorer rest (visited_terms st ++ [term])
                           (fst (merge_rows term (rows b) (collected st)))
                           (if is_truncated cfg b
                            then unresolved_overflows st
                                 ++ [mk_overflow term (rowCount b) (totalHits b)]
                            else unresolved_overflows st)
                           (pdf_ok_total st + fst counts)
                           (pdf_fail_total st + snd counts)))).
Proof.
  intros Q E. unfold iteration in E. rewrite Q in E.
  destruct (str_mem term (visited_terms st)) eqn:V.
  { apply ret_inv in E as [<- <-]. left. apply str_mem_In in V. auto. }
  right. split.
  { intros I. apply str_mem_In in I. congruence. }
  apply search_term_cases in E as [->|[b [E|[st0 [new [counts [E [-> [C Z]]]]]]]]].
  - now left.
  - right. left. exists b. unfold absorb_batch in E. simpl in E.
    destruct (is_truncated cfg b) eqn:T; simpl in E; [|discriminate].
    destruct (Z.ltb_spec (Z.of_nat (length term)) (max_depth cfg)); [|discriminate].
    injection E as <-. auto.
  - right. right. exists b, counts. unfold absorb_batch in E. simpl in E.
    destruct (is_truncated cfg b) eqn:T; simpl in E.
    + destruct (Z.ltb_spec (Z.of_nat (length term)) (max_depth cfg)); [discriminate|].
      injection E as <- <-. simpl. auto.
    + injection E as <- <-. simpl. repeat split; auto. discriminate.
Qed.

(** The loop passes through reachable states only. *)
Lemma term_loop_reachable {W : Type} `{Driver W} `{Runtime}
  (cfg : config) (fuel : nat) (st st' : explorer) (s s' : session W) :
  reachable cfg st s ->
  term_loop fuel cfg (letters cfg) st s = (Ret (Some st'), s') ->
  reachable cfg st' s'.
Proof.
  revert st s. induction fuel as [|fuel IH]; intros st s R E; simpl in E.
  - destruct (queue st); [|discriminate]. apply ret_inv in E as [E <-].
    now injection E as <-.
  - destruct (queue st) as [|term rest] eqn:Q.
    + apply ret_inv in E as [E <-]. now injection E as <-.
    + bind_inv E. eapply IH; [|exact E]. eapply reach_turn; [exact R|exact E0].
Qed.

(** ** The loop of [run]: what holds of every state it reaches *)

Lemma shallow_end_reachable :
  @reachable demo_world demo_driver latin_runtime shallow_cfg shallow_end
    (snd shallow_run).
Proof.
  apply (@term_loop_reachable demo_world demo_driver latin_runtime shallow_cfg 2
           (initial_explorer shallow_cfg) shallow_end (fresh calm_world)
           (snd shallow_run));
    [apply reach_start|].
  vm_compute. reflexivity.
Qed.

Lemma dedupe_In (seen xs : list str) (x : str) : In x (dedupe seen xs) -> In x xs.
Proof.
  revert seen. induction xs as [|a xs IH]; simpl; intros seen I; [exact I|].
  destruct (str_mem a seen); [right; eapply IH; exact I|].
  destruct I as [->|I]; [now left|right; eapply IH; exact I].
Qed.

Lemma letters_over_alphabet (cfg : config) : Forall (over_alphabet cfg) (letters cfg).
Proof.
  apply Forall_forall. intros t I. apply dedupe_In in I.
  apply in_map_iff in I as [c [<- I]]. split; [discriminate|].
  constructor; [exact I|constructor].
Qed.

Lemma children_over_alphabet (cfg : config) (term : str) :
  over_alphabet cfg term -> Forall (over_alphabet cfg) (children (letters cfg) term).
Proof.
  intros [Ne F]. unfold children. apply Forall_map.
  eapply Forall_impl; [|apply letters_over_alphabet].
  intros ch [_ Fc]. split.
  - destruct term; [congruence|discriminate].
  - apply Forall_app. auto.
Qed.

Lemma reachable_terms {W : Type} `{Driver W} `{Runtime}
  (cfg : config) (st : explorer) (s : session W) :
  reachable cfg st s ->
  Forall (over_alphabet cfg) (queue st)
  /\ Forall (over_alphabet cfg) (visited_terms st).
Proof.
  induction 1 as [s|st st' s s' R [IQ IV] E].
  - split; [apply letters_over_alphabet|constructor].
  - destruct (queue st) as [|term rest] eqn:Q.
    + unfold iteration in E. rewrite Q in E. apply ret_inv in E as [<- _].
      rewrite Q. auto.
    + inversion IQ as [|? ? Ht Hrest]; subst.
      assert (IV' : Forall (over_alphabet cfg) (visited_terms st ++ [term]))
        by (apply Forall_app; auto).
      eapply iteration_shapes in E; [|exact Q].
      destruct E as [[_ [_ ->]]|[_ [->|[[b [_ [_ ->]]]|[b [counts [_ [_ [_ ->]]]]]]]]];
        cbn [queue visited_terms]; auto.
      split; [|exact IV']. apply Forall_app.
      split; [exact Hrest|now apply children_over_alphabet].
Qed.

Lemma NoDup_snoc {A : Type} (l : list A) (x : A) :
  NoDup l -> ~ In x l -> NoDup (l ++ [x]).
Proof.
  intros ND N. apply NoDup_app; [exact ND|repeat constructor; intros []|].
  intros a I [<-|[]]. now apply N.
Qed.

Lemma reachable_overflows {W : Type} `{Driver W} `{Runtime}
  (cfg : config) (st : explorer) (s : session W) :
  reachable cfg st s ->
  NoDup (visited_terms st)
  /\ Forall (fun o => In (ov_term o) (visited_terms st)
                      /\ (max_depth cfg <= Z.of_nat (length (ov_term o)))%Z
                      /\ truncated (ov_row_count o) (ov_total_hits o)
                           (split_threshold cfg))
       (unresolved_overflows st)
  /\ NoDup (map ov_term (unresolved_overflows st)).
Proof.
  induction 1 as [s|st st' s s' R [IV [IO IN]] E].
  - repeat split; constructor.
  - destruct (queue st) as [|term rest] eqn:Q.
    + unfold iteration in E. rewrite Q in E. apply ret_inv in E as [<- _]. auto.
    + eapply iteration_shapes in E; [|exact Q].
      destruct E as [[_ [_ ->]]|[New E]];
        cbn [visited_terms unresolved_overflows]; [auto|].
      assert (IV' : NoDup (visited_terms st ++ [term])) by now apply NoDup_snoc.
      assert (IO' : Forall (fun o => In (ov_term o) (visited_terms st ++ [term])
                              /\ (max_depth cfg <= Z.of_nat (length (ov_term o)))%Z
                              /\ truncated (ov_row_count o) (ov_total_hits o)
                                   (split_threshold cfg))
                      (unresolved_overflows st)).
      { eapply Forall_impl; [|exact IO]. intros o [I D]. split; [|exact D].
        apply in_or_app. now left. }
      destruct E as [->|[[b [_ [_ ->]]]|[b [counts [D [_ [_ ->]]]]]]];
        cbn [visited_terms unresolved_overflows]; auto.
      destruct (is_truncated cfg b) eqn:T; [|auto].
      split; [exact IV'|]. split.
      * apply Forall_app. split; [exact IO'|]. constructor; [|constructor].
        cbn [ov_term ov_row_count ov_total_hits]. split.
        { apply in_or_app. right. now left. }
        split; [now apply D|now apply is_truncated_iff].
      * rewrite map_app. apply NoDup_app; [exact IN|repeat constructor; intros []|].
        intros x I [E|[]]. cbn [ov_term] in E. subst x. apply New.
        apply in_map_iff in I as [o [<- I]].
        rewrite Forall_forall in IO. now apply IO in I.
Qed.

Lemma dict_set_Forall {V : Type} (Q : str * V -> Prop) (d : list (str * V))
  (k : str) (v : V) :
  Forall Q d -> Q (k, v) -> Forall Q (dict_set d k v).
Proof.
  intros F Qkv. induction F as [|[k' v'] d Qx F IH]; simpl.
  - constructor; [exact Qkv|constructor].
  - destruct (str_eqb k' k) eqn:E.
    + apply str_eqb_eq in E as ->. constructor; [exact Qkv|exact F].
    + constructor; [exact Qx|exact IH].
Qed.

Lemma put_all_Forall {V : Type} (Q : str * V -> Prop) (writes d : list (str * V)) :
  Forall Q d -> Forall Q writes -> Forall Q (put_all writes d).
Proof.
  unfold put_all. intros Fd Fw. revert d Fd.
  induction Fw as [|[k v] ws Qkv Fw IH]; intros d Fd; simpl; [exact Fd|].
  apply IH. now apply dict_set_Forall.
Qed.

Lemma merge_rows_length `{Runtime} (term : str) (rs : list row) (store : list (str * row)) :
  length (fst (merge_rows term rs store))
  = length store + length (snd (merge_rows term rs store)).
Proof.
  pose proof (f_equal (@length str) (merge_rows_keys term rs store)) as L.
  now rewrite length_app, !length_map in L.
Qed.

Lemma reachable_records {W : Type} `{Driver W} `{Runtime}
  (cfg : config) (st : explorer) (s : session W) :
  reachable cfg st s ->
  dict_wf (collected st)
  /\ Forall (fun kr => fst kr = row_key (snd kr)
                       /\ exists t, In t (visited_terms st)
                                    /\ dict_lookup (snd kr) (lit "_query") = Some (VStr t))
       (collected st)
  /\ pdf_ok_total st + pdf_fail_total st <= length (collected st)
  /\ (download_pdfs cfg && negb (db_only cfg) = false ->
      pdf_ok_total st = 0 /\ pdf_fail_total st = 0).
Proof.
  induction 1 as [s|st st' s s' R [IW [IF [IC IZ]]] E].
  - split; [constructor|]. split; [constructor|]. simpl. split; [lia|auto].
  - destruct (queue st) as [|term rest] eqn:Q.
    + unfold iteration in E. rewrite Q in E. apply ret_inv in E as [<- _]. auto.
    + eapply iteration_shapes in E; [|exact Q].
      destruct E as [[_ [_ ->]]|[New E]];
        cbn [collected visited_terms pdf_ok_total pdf_fail_total]; [auto|].
      assert (IF' : Forall (fun kr => fst kr = row_key (snd kr)
                              /\ exists t, In t (visited_terms st ++ [term])
                                           /\ dict_lookup (snd kr) (lit "_query")
                                              = Some (VStr t))
                      (collected st)).
      { eapply Forall_impl; [|exact IF]. intros kr [K [t [I Qy]]]. split; [exact K|].
        exists t. split; [apply in_or_app; now left|exact Qy]. }
      destruct E as [->|[[b [_ [_ ->]]]|[b [counts [_ [C [Z ->]]]]]]];
        cbn [collected visited_terms pdf_ok_total pdf_fail_total]; auto.
      split; [now apply merge_rows_wf|]. split; [|split].
      * unfold merge_rows. rewrite merge_rows_store. apply put_all_Forall; [exact IF'|].
        apply Forall_map, Forall_forall. intros r _. cbn [fst snd].
        split; [reflexivity|]. exists term. split; [apply in_or_app; right; now left|].
        apply dict_lookup_set_same.
      * rewrite merge_rows_length. lia.
      * intros Off. destruct (IZ Off) as [-> ->]. rewrite (Z Off). auto.
Qed.

(** Every term the loop has queued, and every term it has searched, is a
    non-empty word over the alphabet; no term has been searched twice. *)
Theorem searched_terms_are_distinct_words {W : Type} `{Driver W} `{Runtime}
  (cfg : config) (st : explorer) (s : session W) :
  reachable cfg st s ->
  Forall (over_alphabet cfg) (queue st)
  /\ Forall (over_alphabet cfg) (visited_terms st)
  /\ NoDup (visited_terms st).
Proof.
  intros R. destruct (reachable_terms R) as [Q V].
  destruct (reachable_overflows R) as [N _]. auto.
Qed.

Lemma searched_terms_are_distinct_words_witness :
  NoDup (visited_terms shallow_end).
Proof.
  apply (@searched_terms_are_distinct_words demo_world demo_driver latin_runtime
           shallow_cfg shallow_end (snd shallow_run)).
  apply shallow_end_reachable.
Defined.

(** Every Overflow Entry stands for a term that was searched, has reached
    the depth bound and got a truncated batch, whose counts the entry
    holds; no term has two entries. *)
Theorem overflow_entries_are_justified {W : Type} `{Driver W} `{Runtime}
  (cfg : config) (st : explorer) (s : session W) :
  reachable cfg st s ->
  Forall (fun o => In (ov_term o) (visited_terms st)
                   /\ (max_depth cfg <= Z.of_nat (length (ov_term o)))%Z
                   /\ truncated (ov_row_count o) (ov_total_hits o) (split_threshold cfg))
    (unresolved_overflows st)
  /\ NoDup (map ov_term (unresolved_overflows st)).
Proof. intros R. destruct (reachable_overflows R) as [_ O]. exact O. Qed.

Lemma overflow_entries_are_justified_witness :
  unresolved_overflows shallow_end = [mk_overflow (lit "a") 2 (Some 5%Z)]
  /\ NoDup (map ov_term (unresolved_overflows shallow_end)).
Proof.
  split; [vm_compute; reflexivity|].
  apply (@overflow_entries_are_justified demo_world demo_driver latin_runtime
           shallow_cfg shallow_end (snd shallow_run)).
  apply shallow_end_reachable.
Defined.

(** The Record Store holds no key twice; each record is filed under its
    own canonical key and carries, as [_query], a term that was searched. *)
Theorem stored_records_are_keyed_and_tagged {W : Type} `{Driver W} `{Runtime}
  (cfg : config) (st : explorer) (s : session W) :
  reachable cfg st s ->
  dict_wf (collected st)
  /\ Forall (fun kr => fst kr = row_key (snd kr)
                       /\ exists t, In t (visited_terms st)
                                    /\ dict_lookup (snd kr) (lit "_query") = Some (VStr t))
       (collected st).
Proof. intros R. destruct (reachable_records R) as [Wf [F _]]. auto. Qed.

Lemma stored_records_are_keyed_and_tagged_witness :
  length (collected shallow_end) = 2 /\ dict_wf (collected shallow_end).
Proof.
  split; [vm_compute; reflexivity|].
  apply (@stored_records_are_keyed_and_tagged demo_world demo_driver latin_runtime
           shallow_cfg shallow_end (snd shallow_run)).
  apply shallow_end_reachable.
Defined.

(** The artifacts counted, successes and failures together, are never more
    than the records stored; with the download switched off (or [db_only]
    on) both counters stay at zero. *)
Theorem artifact_counts_bounded_by_records {W : Type} `{Driver W} `{Runtime}
  (cfg : config) (st : explorer) (s : session W) :
  reachable cfg st s ->
  pdf_ok_total st + pdf_fail_total st <= length (collected st)
  /\ (download_pdfs cfg && negb (db_only cfg) = false ->
      pdf_ok_total st = 0 /\ pdf_fail_total st = 0).
Proof. intros R. destruct (reachable_records R) as [_ [_ C]]. exact C. Qed.

Lemma artifact_counts_bounded_by_records_witness :
  (pdf_ok_total shallow_end, pdf_fail_total shallow_end) = (2, 0)
  /\ pdf_ok_total shallow_end + pdf_fail_total shallow_end
     <= length (collected shallow_end).
Proof.
  split; [vm_compute; reflexivity|].
  apply (@artifact_counts_bounded_by_records demo_world demo_driver latin_runtime
           shallow_cfg shallow_end (snd shallow_run)).
  apply shallow_end_reachable.
Defined.

(** ** The calls a computation makes *)

Section EmitsOn.
Context {S : Type} (tr : S -> list call) (P : call -> Prop).

Lemma emits_on_ret {A : Type} (a : A) : emits_on tr P (@ret S A a).
Proof. intros s. exists []. simpl. now rewrite app_nil_r. Qed.

Lemma emits_on_raise {A : Type} (e : exn) : emits_on tr P (@raise S A e).
Proof. intros s. exists []. simpl. now rewrite app_nil_r. Qed.

Lemma emits_on_bind {A B : Type} (m : M S A) (f : A -> M S B) :
  emits_on tr P m -> (forall a, emits_on tr P (f a)) -> emits_on tr P (bind m f).
Proof.
  intros Hm Hf s. unfold bind. destruct (Hm s) as [a1 [E1 F1]].
  destruct (m s) as [[a|e] s1]; cbn [snd] in E1.
  - destruct (Hf a s1) as [a2 [E2 F2]]. exists (a1 ++ a2).
    rewrite E2, E1, app_assoc. split; [reflexivity|]. apply Forall_app. auto.
  - exists a1. auto.
Qed.

Lemma emits_on_try_except {A : Type} (m : M S A) (catches : exn -> bool)
  (handler : M S A) :
  emits_on tr P m -> emits_on tr P handler -> emits_on tr P (try_except m catches handler).
Proof.
  intros Hm Hh s. unfold try_except. destruct (Hm s) as [a1 [E1 F1]].
  destruct (m s) as [[a|e] s1]; cbn [snd] in E1.
  - exists a1. auto.
  - destruct (catches e).
    + destruct (Hh s1) as [a2 [E2 F2]]. exists (a1 ++ a2).
      rewrite E2, E1, app_assoc. split; [reflexivity|]. apply Forall_app. auto.
    + exists a1. auto.
Qed.

Lemma emits_on_try_finally {A : Type} (m : M S A) (fin : M S unit) :
  emits_on tr P m -> emits_on tr P fin -> emits_on tr P (try_finally m fin).
Proof.
  intros Hm Hf s. unfold try_finally. destruct (Hm s) as [a1 [E1 F1]].
  destruct (m s) as [r s1]; cbn [snd] in E1.
  destruct (Hf s1) as [a2 [E2 F2]].
  exists (a1 ++ a2). split; [|apply Forall_app; auto].
  destruct (fin s1) as [[[]|e] s2]; cbn [snd] in *; now rewrite E2, E1, app_assoc.
Qed.

Lemma emits_on_weaken {A : Type} (Q : call -> Prop) (m : M S A) :
  (forall c, P c -> Q c) -> emits_on tr P m -> emits_on tr Q m.
Proof.
  intros PQ Hm s. destruct (Hm s) as [a1 [E1 F1]]. exists a1.
  split; [exact E1|]. eapply Forall_impl; [exact PQ|exact F1].
Qed.

End EmitsOn.

Section EmitsCalls.
Context {W : Type} `{Driver W} (P : call -> Prop).

Lemma emits_invoke {T : Type} (o : op T) : P (Call o) -> emits_on (@trace W) P (invoke o).
Proof.
  intros Po s. exists [Call o]. unfold invoke.
  destruct (perform o (world s)) as [r w']. simpl. auto.
Qed.

Lemma emits_observe {A : Type} (f : W -> A) : emits_on (@trace W) P (observe f).
Proof. intros s. exists []. simpl. now rewrite app_nil_r. Qed.

Lemma emits_lift {A : Type} (m : M (session W) A) :
  emits_on (@trace W) P m -> emits_on (@local_trace W) P (lift m).
Proof.
  intros Hm [l s]. destruct (Hm s) as [a1 [E1 F1]]. exists a1.
  unfold lift, local_trace. cbn [fst snd]. destruct (m s) as [r s1]. auto.
Qed.

Lemma emits_set_locals (l : locals) : emits_on (@local_trace W) P (set_locals l).
Proof. intros ls. exists []. unfold local_trace. simpl. now rewrite app_nil_r. Qed.

Lemma emits_get_locals : emits_on (@local_trace W) P get_locals.
Proof. intros ls. exists []. unfold local_trace. simpl. now rewrite app_nil_r. Qed.

End EmitsCalls.

(** Takes a computation apart along its structure; what is left are the
    calls themselves. *)
Ltac emits_step :=
  match goal with
  | |- emits_on _ _ (ret _) => apply emits_on_ret
  | |- emits_on _ _ (raise _) => apply emits_on_raise
  | |- emits_on _ _ (bind _ _) => apply emits_on_bind; [|intros ?]
  | |- emits_on _ _ (try_except _ _ _) => apply emits_on_try_except
  | |- emits_on _ _ (try_finally _ _) => apply emits_on_try_finally
  | |- emits_on _ _ (invoke _) => apply emits_invoke
  | |- emits_on _ _ (observe _) => apply emits_observe
  | |- emits_on _ _ (lift _) => apply emits_lift
  | |- emits_on _ _ (set_locals _) => apply emits_set_locals
  | |- emits_on _ _ get_locals => apply emits_get_locals
  | |- emits_on _ _ (if ?c then _ else _) => destruct c
  | |- emits_on _ _ (match ?x with _ => _ end) => destruct x
  end.

Section RetrievalCalls.
Context {W : Type} `{Driver W} `{Runtime}.

Lemma try_download_pdf_by_url_calls (pdf_url : str) (destination : path) (timeout_ms : Z) :
  emits_on (@trace W) (retrieval_call destination)
    (try_download_pdf_by_url pdf_url destination timeout_ms).
Proof. unfold try_download_pdf_by_url. repeat emits_step; constructor. Qed.

Lemma try_pdf_links_calls (pdf_links : list str) (destination : path) (timeout_ms : Z) :
  emits_on (@trace W) (retrieval_call destination)
    (try_pdf_links pdf_links destination timeout_ms).
Proof.
  induction pdf_links as [|u rest IH]; simpl.
  - apply emits_on_ret.
  - apply emits_on_bind; [apply try_download_pdf_by_url_calls|].
    intros [|]; [apply emits_on_ret|exact IH].
Qed.

Lemma extract_pdf_from_open_detail_page_calls (p : page) (destination : path)
  (timeout_ms : Z) (page_pdf_fallback : bool) :
  emits_on (@trace W) (retrieval_call destination)
    (extract_pdf_from_open_detail_page p destination timeout_ms page_pdf_fallback).
Proof.
  unfold extract_pdf_from_open_detail_page.
  repeat first [apply try_download_pdf_by_url_calls | apply try_pdf_links_calls
               | emits_step];
    constructor.
Qed.

Lemma retrieval_body_calls (r : row) (detail_url : str) (destination : path)
  (timeout_ms : Z) (page_pdf_fallback : bool) :
  emits_on (@local_trace W) (retrieval_call destination)
    (retrieval_body r detail_url destination timeout_ms page_pdf_fallback).
Proof.
  unfold retrieval_body.
  repeat first [apply extract_pdf_from_open_detail_page_calls | emits_step];
    constructor.
Qed.

Lemma retrieval_cleanup_calls (destination : path) (timeout_ms : Z) :
  emits_on (@local_trace W) (retrieval_call destination) (retrieval_cleanup timeout_ms).
Proof. unfold retrieval_cleanup. repeat emits_step; constructor. Qed.

Lemma guarded_retrieval_calls (r : row) (detail_url : str) (destination : path)
  (timeout_ms : Z) (page_pdf_fallback : bool) :
  emits_on (@trace W) (retrieval_call destination)
    (guarded_retrieval r detail_url destination timeout_ms page_pdf_fallback).
Proof.
  intros s. unfold guarded_retrieval.
  assert (G : emits_on (@local_trace W) (retrieval_call destination)
                (try_finally
                   (try_except
                      (retrieval_body r detail_url destination timeout_ms
                         page_pdf_fallback)
                      is_playwright_error (ret (false, lit "playwright_hiba")))
                   (retrieval_cleanup timeout_ms))).
  { repeat first [apply retrieval_body_calls | apply retrieval_cleanup_calls
                 | emits_step]. }
  destruct (G (mk_locals None false false, s)) as [added [E F]].
  exists added. destruct (try_finally _ _ _) as [outcome ls]. auto.
Qed.

Lemma download_pdf_for_row_calls (r : row) (output_dir : str) (timeout_ms : Z)
  (page_pdf_fallback : bool) :
  emits_on (@trace W) (artifact_call output_dir)
    (download_pdf_for_row r output_dir timeout_ms page_pdf_fallback).
Proof.
  unfold download_pdf_for_row. apply emits_on_bind; [apply emits_observe|].
  intros base_url.
  destruct (build_pdf_path _ _ _) as [destination|e] eqn:B; [|apply emits_on_raise].
  apply emits_on_bind; [apply emits_observe|].
  intros [|]; [apply emits_on_ret|].
  eapply emits_on_weaken; [|apply guarded_retrieval_calls].
  intros c C. exists r, (str_or (detail_url_from_row r base_url) (lit "row_click_fallback")),
    destination. auto.
Qed.

Lemma download_each_calls (selected_rows : list row) (output_dir : str) (timeout_ms : Z)
  (page_pdf_fallback : bool) (ok_count fail_count : nat) :
  emits_on (@trace W) (artifact_call output_dir)
    (download_each selected_rows output_dir timeout_ms page_pdf_fallback
       ok_count fail_count).
Proof.
  revert ok_count fail_count.
  induction selected_rows as [|r later IH]; intros ok_count fail_count; simpl.
  - apply emits_on_ret.
  - apply emits_on_bind; [apply download_pdf_for_row_calls|].
    intros outcome. destruct (fst outcome); apply IH.
Qed.

Lemma download_pdfs_for_rows_calls (new_rows : list row) (output_dir : str)
  (timeout_ms : Z) (page_pdf_fallback : bool) (max_per_query : Z) :
  emits_on (@trace W) (artifact_call output_dir)
    (download_pdfs_for_rows new_rows output_dir timeout_ms page_pdf_fallback
       max_per_query).
Proof. unfold download_pdfs_for_rows. apply download_each_calls. Qed.

End RetrievalCalls.

(** ** The calls of a search, of a turn, of the loop and of [run] *)

Lemma typed_terms_app (l1 l2 : list call) :
  typed_terms (l1 ++ l2) = typed_terms l1 ++ typed_terms l2.
Proof. unfold typed_terms. apply flat_map_app. Qed.

Lemma typed_terms_none (l : list call) :
  Forall (fun c => typed_term c = None) l -> typed_terms l = [].
Proof.
  induction 1 as [|c l N F IH]; [reflexivity|].
  unfold typed_terms in *. simpl. now rewrite N, IH.
Qed.

Lemma retrieval_call_types_nothing (d : path) (c : call) :
  retrieval_call d c -> typed_term c = None.
Proof. now destruct 1. Qed.

Lemma bind_calls_split {S A B : Type} (tr : S -> list call) (P2 : call -> Prop)
  (Q1 : list call -> Prop) (m : M S A) (f : A -> M S B) :
  (forall s, exists a1, tr (snd (m s)) = tr s ++ a1 /\ Q1 a1) ->
  (forall a, emits_on tr P2 (f a)) ->
  forall s, exists a1 a2,
    tr (snd (bind m f s)) = tr s ++ a1 ++ a2 /\ Q1 a1 /\ Forall P2 a2.
Proof.
  intros Hm Hf s. unfold bind. destruct (Hm s) as [a1 [E1 F1]].
  destruct (m s) as [[a|e] s1]; cbn [snd] in E1.
  - destruct (Hf a s1) as [a2 [E2 F2]]. exists a1, a2.
    rewrite E2, E1, app_assoc. auto.
  - exists a1, []. rewrite app_nil_r. auto.
Qed.

Section RunCalls.
Context {W : Type} `{Driver W} `{Runtime}.

Lemma artifact_call_types_nothing (output_dir : str) (c : call) :
  artifact_call output_dir c -> typed_term c = None.
Proof. intros [r [u [d [_ C]]]]. eapply retrieval_call_types_nothing, C. Qed.

(** [fill_name] types the term at most once, and nothing else. *)
Lemma fill_name_calls (cfg : config) (term : str) (s : session W) :
  exists added,
    trace (snd (fill_name term s)) = trace s ++ added
    /\ (Forall (search_call cfg term) added
        /\ (typed_terms added = [] \/ typed_terms added = [term])).
Proof.
  unfold fill_name, bind, invoke.
  destruct (perform FirstVisibleNameInput (world s)) as [[[h|]|e] w1]; cbn.
  - destruct (perform (FieldClick h) w1) as [[[]|e] w2]; cbn.
    + destruct (perform (FieldFill h term) w2) as [r w3]; cbn.
      exists [Call FirstVisibleNameInput; Call (FieldClick h); Call (FieldFill h term)].
      rewrite <- !app_assoc. split; [reflexivity|].
      split; [repeat constructor|right; reflexivity].
    + exists [Call FirstVisibleNameInput; Call (FieldClick h)].
      rewrite <- !app_assoc. split; [reflexivity|].
      split; [repeat constructor|left; reflexivity].
  - exists [Call FirstVisibleNameInput].
    split; [reflexivity|]. split; [repeat constructor|left; reflexivity].
  - exists [Call FirstVisibleNameInput].
    split; [reflexivity|]. split; [repeat constructor|left; reflexivity].
Qed.

Lemma manual_slider_calls (attempts : nat) (cfg : config) (term : str) :
  emits_on (@trace W) (fun c => search_call cfg term c /\ typed_term c = None)
    (manual_slider attempts cfg term).
Proof.
  induction attempts as [|n IH]; simpl; [apply emits_on_ret|].
  repeat first [exact IH | emits_step]; split; (constructor || reflexivity).
Qed.

Lemma counted_downloads_calls (cfg : config) (term : str) (new_unique_rows : list row) :
  emits_on (@trace W) (fun c => search_call cfg term c /\ typed_term c = None)
    (if download_pdfs cfg && negb (db_only cfg) && nonempty_list new_unique_rows
     then download_pdfs_for_rows new_unique_rows (pdf_dir cfg) (pdf_timeout_ms cfg)
            (pdf_fallback_page_pdf cfg) (max_pdfs_per_query cfg)
     else ret (0, 0)).
Proof.
  destruct (download_pdfs cfg && negb (db_only cfg)) eqn:On; cbn [andb];
    [|apply emits_on_ret].
  destruct (nonempty_list new_unique_rows); [|apply emits_on_ret].
  eapply emits_on_weaken; [|apply download_pdfs_for_rows_calls].
  intros c C. split; [now apply sc_artifact|].
  eapply artifact_call_types_nothing, C.
Qed.

(** A search types its term at most once and makes no call but those of
    [search_call]. *)
Lemma search_term_calls (cfg : config) (abc : list str) (term : str) (st : explorer)
  (s : session W) :
  exists added,
    trace (snd (search_term cfg abc term st s)) = trace s ++ added
    /\ Forall (search_call cfg term) added
    /\ (typed_terms added = [] \/ typed_terms added = [term]).
Proof.
  unfold search_term.
  match goal with
  | |- context [bind (fill_name term) ?f] =>
      destruct (@bind_calls_split _ _ _ (@trace W)
                  (fun c => search_call cfg term c /\ typed_term c = None)
                  (fun a1 => Forall (search_call cfg term) a1
                             /\ (typed_terms a1 = [] \/ typed_terms a1 = [term]))
                  (fill_name term) f) with (s := s) as [a1 [a2 [E [[F1 T1] F2]]]]
  end.
  - intros s0. apply fill_name_calls.
  - intros _. unfold trigger_name_input_events.
    repeat first [apply manual_slider_calls | apply counted_downloads_calls
                 | emits_step];
      split; (constructor || reflexivity).
  - exists (a1 ++ a2). split; [exact E|]. split.
    + apply Forall_app. split; [exact F1|].
      eapply Forall_impl; [|exact F2]. now intros c [C _].
    + rewrite typed_terms_app, (@typed_terms_none a2), app_nil_r; [exact T1|].
      eapply Forall_impl; [|exact F2]. now intros c [_ C].
Qed.

(** A turn makes no call, or it is the search of the term at the head of
    the queue, which had not been searched. *)
Lemma iteration_calls (cfg : config) (abc : list str) (st : explorer) (s : session W) :
  exists added,
    trace (snd (iteration cfg abc st s)) = trace s ++ added
    /\ (added = []
        \/ exists term rest,
             queue st = term :: rest
             /\ ~ In term (visited_terms st)
             /\ Forall (search_call cfg term) added
             /\ (typed_terms added = [] \/ typed_terms added = [term])).
Proof.
  unfold iteration. destruct (queue st) as [|term rest] eqn:Q.
  - exists []. simpl. rewrite app_nil_r. auto.
  - destruct (str_mem term (visited_terms st)) eqn:V.
    + exists []. simpl. rewrite app_nil_r. auto.
    + match goal with
      | |- context [search_term cfg abc term ?st1 s] =>
          destruct (search_term_calls cfg abc term st1 s) as [added [E [F T]]]
      end.
      exists added. split; [exact E|]. right. exists term, rest.
      split; [reflexivity|]. split; [|auto].
      intros I. apply str_mem_In in I. congruence.
Qed.

(** The visited list after a completed turn. *)
Lemma iteration_visited (cfg : config) (abc : list str) (term : str) (rest : list str)
  (st st' : explorer) (s s' : session W) :
  queue st = term :: rest ->
  iteration cfg abc st s = (Ret st', s') ->
  (In term (visited_terms st) /\ visited_terms st' = visited_terms st)
  \/ (~ In term (visited_terms st) /\ visited_terms st' = visited_terms st ++ [term]).
Proof.
  intros Q E. eapply iteration_shapes in E; [|exact Q].
  destruct E as [[I [_ ->]]|[N [->|[[b [_ [_ ->]]]|[b [counts [_ [_ [_ ->]]]]]]]]];
    cbn [visited_terms]; auto.
Qed.

Lemma term_loop_calls (cfg : config) (fuel : nat) (st : explorer) (s : session W) :
  reachable cfg st s ->
  exists added,
    trace (snd (term_loop fuel cfg (letters cfg) st s)) = trace s ++ added
    /\ Forall (run_call cfg) added
    /\ NoDup (typed_terms added)
    /\ Forall (fun t => ~ In t (visited_terms st)) (typed_terms added).
Proof.
  revert st s. induction fuel as [|fuel IH]; intros st s R; simpl.
  - exists []. destruct (queue st); simpl; rewrite app_nil_r;
      repeat split; constructor.
  - destruct (queue st) as [|term rest] eqn:Q.
    { exists []. simpl. rewrite app_nil_r. repeat split; constructor. }
    destruct (iteration_calls cfg (letters cfg) st s) as [a1 [E1 C1]].
    assert (Ht : over_alphabet cfg term).
    { destruct (reachable_terms R) as [Fq _]. rewrite Q in Fq. now inversion Fq. }
    assert (F1 : Forall (run_call cfg) a1
                 /\ (typed_terms a1 = []
                     \/ (typed_terms a1 = [term] /\ ~ In term (visited_terms st)))).
    { destruct C1 as [->|[term' [rest' [Q' [N [F T]]]]]].
      - split; [constructor|now left].
      - rewrite Q in Q'. injection Q' as <- <-. split.
        + eapply Forall_impl; [|exact F]. intros c C. eapply run_search; eauto.
        + destruct T; auto. }
    destruct F1 as [F1 T1]. unfold bind.
    destruct (iteration cfg (letters cfg) st s) as [[st'|e] s1] eqn:E;
      cbn [snd] in E1.
    + assert (R' : reachable cfg st' s1) by (eapply reach_turn; eauto).
      destruct (IH st' s1 R') as [a2 [E2 [F2 [N2 D2]]]].
      eapply iteration_visited in E; [|exact Q].
      exists (a1 ++ a2). rewrite E2, E1, app_assoc. split; [reflexivity|].
      split; [apply Forall_app; auto|]. rewrite typed_terms_app.
      assert (D2' : Forall (fun t => ~ In t (visited_terms st)) (typed_terms a2)).
      { eapply Forall_impl; [|exact D2]. intros t N I. apply N.
        destruct E as [[_ ->]|[_ ->]]; [exact I|apply in_or_app; now left]. }
      destruct T1 as [->|[-> N1]]; [now split|].
      destruct E as [[I _]|[_ V]]; [contradiction|]. rewrite V in D2.
      split.
      * simpl. constructor; [|exact N2]. intros I.
        rewrite Forall_forall in D2. apply (D2 term I).
        apply in_or_app. right. now left.
      * simpl. constructor; [exact N1|exact D2'].
    + exists a1. split; [exact E1|]. split; [exact F1|].
      destruct T1 as [->|[-> N1]]; [split; constructor|].
      split; [repeat constructor; intros []|repeat constructor; exact N1].
Qed.

Lemma open_session_calls (cfg : config) :
  emits_on (@trace W) (fun c => run_call cfg c /\ typed_term c = None) (open_session cfg).
Proof.
  unfold open_session. apply emits_on_bind.
  - apply emits_invoke. split; [constructor|reflexivity].
  - intros _. destruct (nonempty (record_type cfg)) eqn:N; [|apply emits_on_ret].
    apply emits_invoke. split; [now constructor|reflexivity].
Qed.

(** Every call of [run] is one of [run_call], and it types no term twice. *)
Lemma run_calls (fuel : nat) (cfg : config) (s : session W) :
  exists added,
    trace (snd (run fuel cfg s)) = trace s ++ added
    /\ Forall (run_call cfg) added
    /\ NoDup (typed_terms added).
Proof.
  unfold run, bind.
  destruct (open_session_calls cfg s) as [a1 [E1 F1]].
  assert (T1 : typed_terms a1 = []).
  { apply typed_terms_none. eapply Forall_impl; [|exact F1]. now intros c [_ C]. }
  assert (R1 : Forall (run_call cfg) a1).
  { eapply Forall_impl; [|exact F1]. now intros c [C _]. }
  destruct (open_session cfg s) as [[[]|e] s1]; cbn [snd] in E1.
  - destruct (term_loop_calls fuel (reach_start cfg s1)) as [a2 [E2 [F2 [N2 _]]]].
    destruct (term_loop fuel cfg (letters cfg) (initial_explorer cfg) s1)
      as [[[st|]|e] s2]; cbn [snd] in E2.
    + unfold invoke. destruct (perform CloseSession (world s2)) as [[[]|e] w3]; cbn.
      * exists (a1 ++ a2 ++ [Call CloseSession]).
        rewrite E2, E1, <- !app_assoc. split; [reflexivity|]. split.
        { repeat (apply Forall_app; split); auto. repeat constructor. }
        rewrite !typed_terms_app, T1. simpl. now rewrite app_nil_r.
      * exists (a1 ++ a2 ++ [Call CloseSession]).
        rewrite E2, E1, <- !app_assoc. split; [reflexivity|]. split.
        { repeat (apply Forall_app; split); auto. repeat constructor. }
        rewrite !typed_terms_app, T1. simpl. now rewrite app_nil_r.
    + exists (a1 ++ a2). cbn. rewrite E2, E1, <- app_assoc. split; [reflexivity|].
      split; [apply Forall_app; auto|]. now rewrite typed_terms_app, T1.
    + exists (a1 ++ a2). cbn. rewrite E2, E1, <- app_assoc. split; [reflexivity|].
      split; [apply Forall_app; auto|]. now rewrite typed_terms_app, T1.
  - exists a1. split; [exact E1|]. split; [exact R1|]. rewrite T1. constructor.
Qed.

End RunCalls.

Lemma retrieval_call_written (destination d : path) (c : call) :
  retrieval_call destination c -> written_path c = Some d -> d = destination.
Proof. destruct 1; simpl; intros E; try discriminate E; now injection E. Qed.

Lemma search_call_typed `{Runtime} (cfg : config) (term t : str) (c : call) :
  search_call cfg term c -> typed_term c = Some t -> t = term.
Proof.
  destruct 1 as [| | | | | | | | | | |c On [r [u [d [_ C]]]]]; simpl; intros E;
    try discriminate E.
  - now injection E.
  - apply retrieval_call_types_nothing in C. congruence.
Qed.

Lemma search_call_written `{Runtime} (cfg : config) (term : str) (c : call) (d : path) :
  search_call cfg term c -> written_path c = Some d ->
  exists r u, build_pdf_path (pdf_dir cfg) r u = Ret d.
Proof.
  destruct 1 as [| | | | | | | | | | |c On [r [u [d0 [B C]]]]]; simpl; intros E;
    try discriminate E.
  eapply retrieval_call_written in C; [|exact E]. subst d0. eauto.
Qed.

Lemma search_call_listing `{Runtime} (cfg : config) (term : str) (c : call) :
  download_pdfs cfg && negb (db_only cfg) = false ->
  search_call cfg term c -> is_retrieval_call c = false.
Proof.
  intros Off. destruct 1 as [| | | | | | | | | | |c On _]; try reflexivity. congruence.
Qed.

Lemma run_call_typed_terms `{Runtime} (cfg : config) (calls : list call) :
  Forall (run_call cfg) calls -> Forall (over_alphabet cfg) (typed_terms calls).
Proof.
  induction 1 as [|c l C F IH]; [constructor|].
  unfold typed_terms in *. simpl. destruct (typed_term c) as [t|] eqn:T; [|exact IH].
  simpl. constructor; [|exact IH].
  destruct C as [| |term c O S|]; try discriminate T.
  eapply search_call_typed in S; [|exact T]. now subst.
Qed.

(** Every call [run] makes, however it ends, is one of these: the start
    of the session with the configured URL, the choice of the configured
    record type, the calls of the search of a non-empty word over the
    alphabet (with the waits and flags of the configuration), the calls of
    the retrieval of an artifact below the configured directory (only with
    the download switched on), and the end of the session. *)
Theorem run_makes_only_configured_calls {W : Type} `{Driver W} `{Runtime}
  (fuel : nat) (cfg : config) (s : session W) :
  exists added,
    trace (snd (run fuel cfg s)) = trace s ++ added
    /\ Forall (run_call cfg) added.
Proof. destruct (run_calls fuel cfg s) as [added [E [F _]]]. eauto. Qed.

(** However [run] ends, the terms it has typed into the name field are
    non-empty words over the alphabet, and no term was typed twice. *)
Theorem no_term_is_typed_twice {W : Type} `{Driver W} `{Runtime}
  (fuel : nat) (cfg : config) (s : session W) :
  exists added,
    trace (snd (run fuel cfg s)) = trace s ++ added
    /\ NoDup (typed_terms added)
    /\ Forall (over_alphabet cfg) (typed_terms added).
Proof.
  destruct (run_calls fuel cfg s) as [added [E [F N]]]. exists added.
  split; [exact E|]. split; [exact N|now apply run_call_typed_terms].
Qed.

(** However [run] ends, every file it has written (a response body, a
    download saved after the print control, a rendering of the page) is
    the artifact path [build_pdf_path] gives for some row below the
    configured directory. *)
Theorem run_writes_only_artifacts {W : Type} `{Driver W} `{Runtime}
  (fuel : nat) (cfg : config) (s : session W) :
  exists added,
    trace (snd (run fuel cfg s)) = trace s ++ added
    /\ Forall (fun c => forall d, written_path c = Some d ->
                 exists r u, build_pdf_path (pdf_dir cfg) r u = Ret d) added.
Proof.
  destruct (run_calls fuel cfg s) as [added [E [F _]]]. exists added.
  split; [exact E|]. eapply Forall_impl; [|exact F].
  intros c C d Wp. destruct C as [| |term c O S|]; try discriminate Wp.
  eapply search_call_written; eauto.
Qed.

(** With the download switched off, or with [db_only], [run] makes no call
    of the retrieval chain: it opens no page, requests and writes no file. *)
Theorem db_only_makes_no_retrieval_call {W : Type} `{Driver W} `{Runtime}
  (fuel : nat) (cfg : config) (s : session W) :
  download_pdfs cfg && negb (db_only cfg) = false ->
  exists added,
    trace (snd (run fuel cfg s)) = trace s ++ added
    /\ Forall (fun c => is_retrieval_call c = false) added.
Proof.
  intros Off. destruct (run_calls fuel cfg s) as [added [E [F _]]]. exists added.
  split; [exact E|]. eapply Forall_impl; [|exact F].
  intros c C. destruct C as [| |term c O S|]; try reflexivity.
  eapply search_call_listing; eauto.
Qed.

Lemma db_only_makes_no_retrieval_call_witness :
  exists added,
    trace (snd (@run demo_world demo_driver latin_runtime 6 small_cfg (fresh calm_world)))
    = trace (fresh calm_world) ++ added
    /\ Forall (fun c => is_retrieval_call c = false) added.
Proof.
  apply (@db_only_makes_no_retrieval_call demo_world demo_driver latin_runtime 6
           small_cfg (fresh calm_world)).
  reflexivity.
Defined.

(** ** [download_pdf_for_row], lines 737-780: the page that was opened *)

Section Steady.
Context {W : Type} `{Driver W} (P : call -> Prop).




End Steady.


Section OpenedPage.
Context {W : Type} `{Driver W} `{Runtime}.












End OpenedPage.

(** ** [try_download_pdf_by_url] and the loop over the links, lines 507-522, 701-704 *)

Section RawFetch.
Context {W : Type} `{Driver W} `{Runtime}.

(** One raw fetch: a [false] costs the request and nothing else; a [true]
    is the request, the body and the write to the destination, after an
    answer that was [ok] and looked like a PDF. *)
Lemma try_download_pdf_by_url_trace (pdf_url : str) (destination : path)
  (timeout_ms : Z) (s s' : session W) (got : bool) :
  try_download_pdf_by_url pdf_url destination timeout_ms s = (Ret got, s') ->
  if got
  then exists resp body,
         trace s' = trace s ++ [Call (RequestGet pdf_url timeout_ms);
                                Call (ResponseBody resp);
                                Call (WriteBytes destination body)]
         /\ resp_ok resp = true
         /\ (contains (lit "pdf") (casefold (normalize (resp_content_type resp)))
             || contains (lit ".pdf") (casefold pdf_url)) = true
  else trace s' = trace s ++ [Call (RequestGet pdf_url timeout_ms)].
Proof.
  unfold try_download_pdf_by_url, try_except. unfold bind at 1. unfold bind at 1.
  unfold invoke at 1.
  destruct (perform (RequestGet pdf_url timeout_ms) (world s)) as [[resp|e] w1];
    cbn [ret].
  - destruct (resp_ok resp) eqn:Ok; cbn [negb].
    + destruct (contains (lit "pdf") (casefold (normalize (resp_content_type resp))))
        eqn:Ct; cbn [negb andb].
      * intros E. bind_inv E. bind_inv E. apply ret_inv in E as [<- <-].
        apply invoke_ret_inv in E0 as [w2 [_ ->]].
        apply invoke_ret_inv in E1 as [w3 [_ ->]]. cbn [trace].
        exists resp, a. rewrite <- !app_assoc. split; [reflexivity|].
        split; [exact Ok|]. rewrite ?Ct. reflexivity.
      * destruct (contains (lit ".pdf") (casefold pdf_url)) eqn:Cu; cbn [negb].
        { intros E. bind_inv E. bind_inv E. apply ret_inv in E as [<- <-].
          apply invoke_ret_inv in E0 as [w2 [_ ->]].
          apply invoke_ret_inv in E1 as [w3 [_ ->]]. cbn [trace].
          exists resp, a. rewrite <- !app_assoc. split; [reflexivity|].
          split; [exact Ok|]. rewrite ?Ct, ?Cu. reflexivity. }
        intros E. apply ret_inv in E as [<- <-]. reflexivity.
    + intros E. apply ret_inv in E as [<- <-]. reflexivity.
  - destruct (is_playwright_error e); [|discriminate].
    intros E. apply ret_inv in E as [<- <-]. reflexivity.
Qed.

(** The links are requested in their order, each once, up to the first
    that gives the document: after a [false] every link has been requested
    and nothing was written; after a [true] the last link requested is the
    one whose body was written to the destination, and no later link was
    touched. *)
Theorem try_pdf_links_stops_at_first_success (pdf_links : list str)
  (destination : path) (timeout_ms : Z) (s : session W) :
  (forall s' : session W,
      try_pdf_links pdf_links destination timeout_ms s = (Ret false, s') ->
      trace s' = trace s ++ map (fun u => Call (RequestGet u timeout_ms)) pdf_links)
  /\ (forall s' : session W,
        try_pdf_links pdf_links destination timeout_ms s = (Ret true, s') ->
        exists tried u later resp body,
          pdf_links = tried ++ u :: later
          /\ trace s' = trace s
                        ++ map (fun u => Call (RequestGet u timeout_ms)) tried
                        ++ [Call (RequestGet u timeout_ms);
                            Call (ResponseBody resp);
                            Call (WriteBytes destination body)]).
Proof.
  revert s. induction pdf_links as [|u rest IH]; intros s; simpl.
  - split; intros s' E; apply ret_inv in E as [E <-]; [|discriminate E].
    now rewrite app_nil_r.
  - split; intros s' E; bind_inv E; destruct a.
    + apply ret_inv in E as [E _]. discriminate E.
    + apply try_download_pdf_by_url_trace in E0.
      apply (proj1 (IH s0)) in E. rewrite E, E0, <- app_assoc. reflexivity.
    + apply ret_inv in E as [_ <-].
      apply try_download_pdf_by_url_trace in E0 as [resp [body [E0 _]]].
      exists [], u, rest, resp, body. auto.
    + apply try_download_pdf_by_url_trace in E0.
      apply (proj2 (IH s0)) in E as [tried [v [later [resp [body [-> E]]]]]].
      exists (u :: tried), v, later, resp, body. split; [reflexivity|].
      rewrite E, E0, <- app_assoc. reflexivity.
Qed.

End RawFetch.

(** ** [save_outputs], lines 822-833: the header of the CSV document *)

Lemma add_columns_spec (ks seen : list str) :
  (NoDup seen ->
   NoDup (fold_left (fun cols k => if str_mem k cols then cols else cols ++ [k]) ks seen))
  /\ (forall k,
        In k (fold_left (fun cols k => if str_mem k cols then cols else cols ++ [k])
                ks seen)
        <-> In k seen \/ In k ks).
Proof.
  revert seen. induction ks as [|k0 ks IH]; intros seen; simpl.
  - split; [auto|]. intros k. tauto.
  - destruct (IH (if str_mem k0 seen then seen else seen ++ [k0])) as [ND Mem].
    destruct (str_mem k0 seen) eqn:E.
    + split; [exact ND|]. intros k. rewrite Mem. apply str_mem_In in E.
      split; [tauto|]. intros [I|[<-|I]]; auto.
    + split.
      * intros N. apply ND. apply NoDup_snoc; [exact N|].
        intros I. apply str_mem_In in I. congruence.
      * intros k. rewrite Mem, in_app_iff. simpl. tauto.
Qed.

Lemma csv_columns_spec (rs : list row) (seen : list str) :
  (NoDup seen -> NoDup (csv_columns seen rs))
  /\ (forall k, In k (csv_columns seen rs)
                <-> In k seen \/ exists r, In r rs /\ In k (map fst r)).
Proof.
  revert seen. induction rs as [|r rs IH]; intros seen; simpl.
  - split; [auto|]. intros k. split; [auto|]. now intros [I|[r [[] _]]].
  - destruct (add_columns_spec (map fst r) seen) as [ND1 Mem1].
    destruct (IH (fold_left (fun cols k => if str_mem k cols then cols else cols ++ [k])
                    (map fst r) seen)) as [ND2 Mem2].
    split; [auto|]. intros k. rewrite Mem2, Mem1. split.
    + intros [[I|I]|[r' [I K]]]; eauto.
    + intros [I|[r' [[<-|I] K]]]; eauto.
Qed.

(** The header of the CSV document names no column twice, and its columns
    are exactly the labels that occur in some row: no row has a field the
    header lacks. *)
Theorem csv_header_covers_rows (st : explorer) :
  NoDup (csv_header (persist st))
  /\ (forall k, In k (csv_header (persist st))
                <-> exists r, In r (csv_rows (persist st)) /\ In k (map fst r)).
Proof.
  unfold persist. cbn [csv_header csv_rows].
  destruct (csv_columns_spec (map snd (collected st)) []) as [ND Mem].
  split; [apply ND; constructor|]. intros k. rewrite Mem. simpl. tauto.
Qed.

(** ** [run], lines 863-956: the loop as a whole and what is persisted *)

Lemma iteration_appends {W : Type} `{Driver W} `{Runtime}
  (cfg : config) (abc : list str) (st st' : explorer) (s s' : session W) :
  iteration cfg abc st s = (Ret st', s') ->
  (exists ks, map fst (collected st') = map fst (collected st) ++ ks)
  /\ (exists ovs, unresolved_overflows st' = unresolved_overflows st ++ ovs)
  /\ (exists ts, visited_terms st' = visited_terms st ++ ts)
  /\ pdf_ok_total st <= pdf_ok_total st'
  /\ pdf_fail_total st <= pdf_fail_total st'.
Proof.
  intros E. destruct (queue st) as [|term rest] eqn:Q.
  { unfold iteration in E. rewrite Q in E. apply ret_inv in E as [<- _].
    repeat split; try lia; exists []; now rewrite app_nil_r. }
  eapply iteration_shapes in E; [|exact Q].
  destruct E as [[_ [_ ->]]|[_ [->|[[b [_ [_ ->]]]|[b [counts [_ [_ [_ ->]]]]]]]]];
    cbn [collected unresolved_overflows visited_terms pdf_ok_total pdf_fail_total].
  - repeat split; try lia; exists []; now rewrite app_nil_r.
  - repeat split; try lia; try (exists []; now rewrite app_nil_r). now exists [term].
  - repeat split; try lia; try (exists []; now rewrite app_nil_r). now exists [term].
  - split; [rewrite merge_rows_keys; eauto|]. split; [|split; [now exists [term]|lia]].
    destruct (is_truncated cfg b); [eauto|]. exists []. now rewrite app_nil_r.
Qed.

(** The loop only appends: the keys of the Record Store, the Overflow
    Entries and the searched terms it started from are still there when it
    ends, in their places, and the counters have not gone down. *)
Theorem loop_only_appends {W : Type} `{Driver W} `{Runtime}
  (cfg : config) (abc : list str) (fuel : nat) (st st' : explorer) (s s' : session W) :
  term_loop fuel cfg abc st s = (Ret (Some st'), s') ->
  (exists ks, map fst (collected st') = map fst (collected st) ++ ks)
  /\ (exists ovs, unresolved_overflows st' = unresolved_overflows st ++ ovs)
  /\ (exists ts, visited_terms st' = visited_terms st ++ ts)
  /\ pdf_ok_total st <= pdf_ok_total st'
  /\ pdf_fail_total st <= pdf_fail_total st'.
Proof.
  revert st s. induction fuel as [|fuel IH]; intros st s E; simpl in E.
  - destruct (queue st); [|discriminate]. apply ret_inv in E as [E _].
    injection E as <-. repeat split; try lia; exists []; now rewrite app_nil_r.
  - destruct (queue st) as [|term rest] eqn:Q.
    { apply ret_inv in E as [E _]. injection E as <-.
      repeat split; try lia; exists []; now rewrite app_nil_r. }
    bind_inv E. apply IH in E.
    apply iteration_appends in E0.
    destruct E0 as [[k1 K1] [[o1 O1] [[t1 T1] [A1 B1]]]].
    destruct E as [[k2 K2] [[o2 O2] [[t2 T2] [A2 B2]]]].
    split; [exists (k1 ++ k2); now rewrite K2, K1, app_assoc|].
    split; [exists (o1 ++ o2); now rewrite O2, O1, app_assoc|].
    split; [exists (t1 ++ t2); now rewrite T2, T1, app_assoc|]. lia.
Qed.

Lemma loop_only_appends_witness :
  exists ks,
    map fst (collected shallow_end)
    = map fst (collected (initial_explorer shallow_cfg)) ++ ks.
Proof.
  apply (@loop_only_appends demo_world demo_driver latin_runtime shallow_cfg
           (letters shallow_cfg) 2 (initial_explorer shallow_cfg) shallow_end
           (fresh calm_world) (snd shallow_run)).
  vm_compute. reflexivity.
Defined.

Lemma term_loop_done {W : Type} `{Driver W} `{Runtime}
  (cfg : config) (abc : list str) (fuel : nat) (st st' : explorer) (s s' : session W) :
  term_loop fuel cfg abc st s = (Ret (Some st'), s') -> queue st' = [].
Proof.
  revert st s. induction fuel as [|fuel IH]; intros st s E; simpl in E.
  - destruct (queue st) eqn:Q; [|discriminate]. apply ret_inv in E as [E _].
    now injection E as <-.
  - destruct (queue st) as [|term rest] eqn:Q.
    + apply ret_inv in E as [E _]. now injection E as <-.
    + bind_inv E. eapply IH, E.
Qed.

(** What [run] persists comes from a state the loop reached with the
    queue empty. *)
Lemma run_persists {W : Type} `{Driver W} `{Runtime}
  (fuel : nat) (cfg : config) (s s' : session W) (out : outputs) :
  run fuel cfg s = (Ret (Some out), s') ->
  exists st s1, reachable cfg st s1 /\ queue st = [] /\ out = persist st.
Proof.
  intros E. unfold run in E. bind_inv E. bind_inv E.
  destruct a0 as [st|].
  - bind_inv E. apply ret_inv in E as [E _]. injection E as <-.
    exists st, s1. split; [|split; [|reflexivity]].
    + eapply term_loop_reachable; [apply reach_start|exact E1].
    + eapply term_loop_done, E1.
  - apply ret_inv in E as [E _]. discriminate E.
Qed.

(** The rows [run] persists have pairwise distinct canonical keys, and
    each carries as [_query] a non-empty word over the alphabet, a term
    that was searched; the CSV document has the same rows as the JSON
    document. *)
Theorem persisted_rows_have_distinct_keys {W : Type} `{Driver W} `{Runtime}
  (fuel : nat) (cfg : config) (s s' : session W) (out : outputs) :
  run fuel cfg s = (Ret (Some out), s') ->
  NoDup (map row_key (json_rows out))
  /\ Forall (fun r => exists t, over_alphabet cfg t
                                /\ dict_lookup r (lit "_query") = Some (VStr t))
       (json_rows out)
  /\ csv_rows out = json_rows out.
Proof.
  intros E. apply run_persists in E as [st [s1 [R [_ ->]]]].
  destruct (reachable_records R) as [Wf [F _]].
  destruct (reachable_terms R) as [_ V].
  unfold persist. cbn [json_rows csv_rows]. split; [|split; [|reflexivity]].
  - unfold dict_wf in Wf.
    replace (map row_key (map snd (collected st))) with (map fst (collected st));
      [exact Wf|].
    rewrite map_map. apply map_ext_in. intros kr I.
    rewrite Forall_forall in F. now apply F in I.
  - apply Forall_map. eapply Forall_impl; [|exact F].
    intros kr [_ [t [I Qy]]]. exists t. split; [|exact Qy].
    rewrite Forall_forall in V. now apply V.
Qed.

Lemma persisted_rows_have_distinct_keys_witness :
  NoDup (map (@row_key latin_runtime) (json_rows (persist shallow_end))).
Proof.
  apply (@persisted_rows_have_distinct_keys demo_world demo_driver latin_runtime 2
           shallow_cfg (fresh calm_world)
           (snd (@run demo_world demo_driver latin_runtime 2 shallow_cfg
                   (fresh calm_world)))
           (persist shallow_end)).
  vm_compute. reflexivity.
Defined.

(** ** The listing page: the search button and the waits *)

Section PageEmits.
Context {W : Type} `{PageDriver W} (P : page_call -> Prop).

Lemma page_emits_ret {A : Type} (a : A) : page_emits P (@ret (page_session W) A a).
Proof. intros s. exists []. simpl. now rewrite app_nil_r. Qed.

Lemma page_emits_bind {A B : Type} (m : M (page_session W) A)
  (f : A -> M (page_session W) B) :
  page_emits P m -> (forall a, page_emits P (f a)) -> page_emits P (bind m f).
Proof.
  intros Hm Hf s. unfold bind. destruct (Hm s) as [a1 [E1 F1]].
  destruct (m s) as [[a|e] s1]; cbn [snd] in E1.
  - destruct (Hf a s1) as [a2 [E2 F2]]. exists (a1 ++ a2).
    rewrite E2, E1, app_assoc. split; [reflexivity|]. apply Forall_app. auto.
  - exists a1. auto.
Qed.

Lemma page_emits_try_except {A : Type} (m : M (page_session W) A)
  (catches : exn -> bool) (handler : M (page_session W) A) :
  page_emits P m -> page_emits P handler -> page_emits P (try_except m catches handler).
Proof.
  intros Hm Hh s. unfold try_except. destruct (Hm s) as [a1 [E1 F1]].
  destruct (m s) as [[a|e] s1]; cbn [snd] in E1.
  - exists a1. auto.
  - destruct (catches e).
    + destruct (Hh s1) as [a2 [E2 F2]]. exists (a1 ++ a2).
      rewrite E2, E1, app_assoc. split; [reflexivity|]. apply Forall_app. auto.
    + exists a1. auto.
Qed.

Lemma page_emits_invoke {T : Type} (o : page_op T) :
  P (PageCall o) -> page_emits P (page_invoke o).
Proof.
  intros Po s. exists [PageCall o]. unfold page_invoke.
  destruct (page_perform o (page_world s)) as [r w']. simpl. auto.
Qed.

End PageEmits.

Ltac page_emits_step :=
  match goal with
  | |- page_emits _ (ret _) => apply page_emits_ret
  | |- page_emits _ (bind _ _) => apply page_emits_bind; [|intros ?]
  | |- page_emits _ (try_except _ _ _) => apply page_emits_try_except
  | |- page_emits _ (page_invoke _) => apply page_emits_invoke
  | |- page_emits _ (if ?c then _ else _) => destruct c
  | |- page_emits _ (match ?x with _ => _ end) => destruct x
  end.

Lemma total_wait_app (l1 l2 : list page_call) :
  total_wait (l1 ++ l2) = (total_wait l1 + total_wait l2)%Z.
Proof. induction l1 as [|c l1 IH]; simpl; [reflexivity|]. rewrite IH. lia. Qed.

Lemma total_wait_quiet (l : list page_call) :
  Forall (fun c => waited c = 0%Z) l -> total_wait l = 0%Z.
Proof. induction 1 as [|c l Q F IH]; simpl; [reflexivity|]. rewrite Q, IH. lia. Qed.

Section SearchButton.
Context {W : Type} `{PageDriver W}.

Lemma visible_enabled_from_quiet (selector : str) (idx remaining : nat) :
  page_emits (fun c => waited c = 0%Z) (visible_enabled_from selector idx remaining).
Proof.
  revert idx. induction remaining as [|n IH]; intros idx; simpl.
  - apply page_emits_ret.
  - repeat first [apply IH | page_emits_step]; reflexivity.
Qed.

Lemma first_visible_enabled_quiet (selectors : list str) :
  page_emits (fun c => waited c = 0%Z) (first_visible_enabled selectors).
Proof.
  induction selectors as [|selector rest IH]; simpl.
  - apply page_emits_ret.
  - repeat first [exact IH | apply visible_enabled_from_quiet | page_emits_step];
      reflexivity.
Qed.

Lemma is_search_button_enabled_quiet :
  page_emits (fun c => waited c = 0%Z) (@is_search_button_enabled W _).
Proof.
  unfold is_search_button_enabled.
  repeat first [apply first_visible_enabled_quiet | page_emits_step]; reflexivity.
Qed.

Lemma wait_for_search_enabled_from_bounds (fuel : nat) (elapsed timeout_ms : Z)
  (s : page_session W) :
  exists added,
    page_trace (snd (wait_for_search_enabled_from fuel elapsed timeout_ms s))
    = page_trace s ++ added
    /\ (total_wait added = 0
        \/ elapsed < timeout_ms /\ 0 < total_wait added < timeout_ms - elapsed + 200)%Z
    /\ (Z.to_nat (timeout_ms - elapsed) <= fuel ->
        fst (wait_for_search_enabled_from fuel elapsed timeout_ms s) <> Ret None).
Proof.
  revert elapsed s. induction fuel as [|fuel IH]; intros elapsed s; simpl.
  - destruct (Z.ltb_spec elapsed timeout_ms) as [L|L].
    + exists []. simpl. rewrite app_nil_r. split; [reflexivity|].
      split; [now left|lia].
    + unfold bind. destruct (is_search_button_enabled_quiet s) as [a1 [E1 F1]].
      apply total_wait_quiet in F1.
      destruct (is_search_button_enabled s) as [[b|e] s1]; cbn [snd fst] in *;
        exists a1; (split; [exact E1|]); (split; [now left|intros _; discriminate]).
  - destruct (Z.ltb_spec elapsed timeout_ms) as [L|L].
    + unfold bind, page_invoke.
      destruct (is_search_button_enabled_quiet s) as [a1 [E1 F1]].
      apply total_wait_quiet in F1.
      destruct (is_search_button_enabled s) as [[[|]|e] s1]; cbn [snd fst] in *.
      * exists a1. split; [exact E1|]. split; [now left|intros _; discriminate].
      * destruct (page_perform (PageWaitForTimeout 200) (page_world s1))
          as [[[]|e] w2]; cbn [snd fst].
        { destruct (IH (elapsed + 200)%Z
                      (mk_page_session w2
                         (page_trace s1 ++ [PageCall (PageWaitForTimeout 200)])))
            as [a2 [E2 [B2 Fu]]].
          exists (a1 ++ PageCall (PageWaitForTimeout 200) :: a2).
          split; [rewrite E2; cbn [page_trace]; now rewrite E1, <- !app_assoc|].
          rewrite total_wait_app, F1.
          change (total_wait (PageCall (PageWaitForTimeout 200) :: a2))
            with (200 + total_wait a2)%Z.
          split; [right; lia|]. intros Fuel. apply Fu. lia. }
        { exists (a1 ++ [PageCall (PageWaitForTimeout 200)]).
          cbn [page_trace]. rewrite E1, <- !app_assoc.
          split; [reflexivity|]. rewrite total_wait_app, F1.
          change (total_wait [PageCall (PageWaitForTimeout 200)]) with 200%Z.
          split; [right; lia|intros _; discriminate]. }
      * exists a1. split; [exact E1|]. split; [now left|intros _; discriminate].
    + unfold bind. destruct (is_search_button_enabled_quiet s) as [a1 [E1 F1]].
      apply total_wait_quiet in F1.
      destruct (is_search_button_enabled s) as [[b|e] s1]; cbn [snd fst] in *;
        exists a1; (split; [exact E1|]); (split; [now left|intros _; discriminate]).
Qed.

(** [wait_for_search_enabled] waits in steps of 200 ms and for less than
    the timeout and one step in all; with a timeout of zero or less it
    does not wait at all; and its loop ends within [timeout_ms] turns. *)
Theorem wait_for_search_enabled_is_bounded (fuel : nat) (timeout_ms : Z)
  (s : page_session W) :
  exists added,
    page_trace (snd (wait_for_search_enabled fuel timeout_ms s)) = page_trace s ++ added
    /\ (0 <= total_wait added < Z.max 0 timeout_ms + 200)%Z
    /\ (timeout_ms <= 0 -> total_wait added = 0)%Z
    /\ (Z.to_nat timeout_ms <= fuel ->
        fst (wait_for_search_enabled fuel timeout_ms s) <> Ret None).
Proof.
  unfold wait_for_search_enabled.
  destruct (wait_for_search_enabled_from_bounds fuel 0 timeout_ms s)
    as [added [E [B Fu]]].
  exists added. split; [exact E|]. split; [lia|]. split; [lia|].
  intros Fuel. apply Fu. now rewrite Z.sub_0_r.
Qed.

End SearchButton.

Section ResultsWait.
Context {W : Type} `{PageDriver W}.

Lemma wait_for_results_from_bounds (fuel : nat) (elapsed timeout_ms : Z)
  (s : page_session W) :
  exists added,
    page_trace (snd (wait_for_results_from fuel elapsed timeout_ms s))
    = page_trace s ++ added
    /\ (added = []
        \/ elapsed < timeout_ms /\ 0 <= total_wait added < timeout_ms - elapsed + 300)%Z
    /\ (timeout_ms <= elapsed -> added = [])%Z
    /\ (Z.to_nat (timeout_ms - elapsed) <= fuel ->
        fst (wait_for_results_from fuel elapsed timeout_ms s) <> Ret None).
Proof.
  revert elapsed s. induction fuel as [|fuel IH]; intros elapsed s; simpl.
  - exists []. rewrite app_nil_r.
    destruct (Z.ltb_spec elapsed timeout_ms) as [L|L]; cbn [snd fst ret];
      (split; [reflexivity|]); (split; [now left|]); (split; [reflexivity|]);
      [lia|intros _; discriminate].
  - destruct (Z.ltb_spec elapsed timeout_ms) as [L|L].
    + unfold bind, page_invoke.
      destruct (page_perform ResultsReady (page_world s)) as [[[|]|e] w1];
        cbn [snd fst page_trace page_world ret].
      * exists [PageCall ResultsReady]. split; [reflexivity|].
        split; [right; simpl; lia|]. split; [lia|intros _; discriminate].
      * destruct (page_perform (PageWaitForTimeout 300) w1) as [[[]|e] w2];
          cbn [snd fst page_trace].
        { destruct (IH (elapsed + 300)%Z
                      (mk_page_session w2
                         ((page_trace s ++ [PageCall ResultsReady])
                          ++ [PageCall (PageWaitForTimeout 300)])))
            as [a2 [E2 [B2 [_ Fu]]]].
          exists (PageCall ResultsReady :: PageCall (PageWaitForTimeout 300) :: a2).
          split; [rewrite E2; cbn [page_trace]; now rewrite <- !app_assoc|].
          change (total_wait (PageCall ResultsReady
                                :: PageCall (PageWaitForTimeout 300) :: a2))
            with (0 + (300 + total_wait a2))%Z.
          split; [right|split; [lia|intros Fuel; apply Fu; lia]].
          destruct B2 as [->|B2]; [simpl; lia|lia]. }
        { exists [PageCall ResultsReady; PageCall (PageWaitForTimeout 300)].
          rewrite <- app_assoc. split; [reflexivity|].
          split; [right; simpl; lia|]. split; [lia|intros _; discriminate]. }
      * exists [PageCall ResultsReady]. split; [reflexivity|].
        split; [right; simpl; lia|]. split; [lia|intros _; discriminate].
    + exists []. cbn [snd fst ret]. rewrite app_nil_r. split; [reflexivity|].
      split; [now left|]. split; [reflexivity|intros _; discriminate].
Qed.

(** [wait_for_results] waits in steps of 300 ms, for less than the
    timeout and one step in all; with a timeout of zero or less it makes
    no call at all, so the page is not even probed; and its loop ends
    within [timeout_ms] turns. *)
Theorem wait_for_results_is_bounded (fuel : nat) (timeout_ms : Z) (s : page_session W) :
  exists added,
    page_trace (snd (wait_for_results fuel timeout_ms s)) = page_trace s ++ added
    /\ (0 <= total_wait added < Z.max 0 timeout_ms + 300)%Z
    /\ (timeout_ms <= 0 -> added = [])%Z
    /\ (Z.to_nat timeout_ms <= fuel ->
        fst (wait_for_results fuel timeout_ms s) <> Ret None).
Proof.
  unfold wait_for_results.
  destruct (wait_for_results_from_bounds fuel 0 timeout_ms s)
    as [added [E [B [Z0 Fu]]]].
  exists added. split; [exact E|]. split; [|split; [exact Z0|]].
  - destruct B as [->|B]; [simpl; lia|lia].
  - intros Fuel. apply Fu. now rewrite Z.sub_0_r.
Qed.

(** The results never come and the waits return. *)
Hypothesis never_ready :
  forall w : W, exists w', page_perform ResultsReady w = (Ret false, w').
Hypothesis waits_return :
  forall (ms : Z) (w : W), exists w', page_perform (PageWaitForTimeout ms) w = (Ret tt, w').

Lemma wait_for_results_from_times_out (fuel : nat) (elapsed timeout_ms : Z)
  (s : page_session W) :
  Z.to_nat (timeout_ms - elapsed) <= fuel ->
  exists s',
    wait_for_results_from fuel elapsed timeout_ms s = (Ret (Some tt), s')
    /\ exists added,
         page_trace s' = page_trace s ++ added
         /\ (Z.max 0 (timeout_ms - elapsed) <= total_wait added)%Z.
Proof.
  revert elapsed s. induction fuel as [|fuel IH]; intros elapsed s Fuel; simpl.
  - destruct (Z.ltb_spec elapsed timeout_ms) as [L|L]; [lia|].
    exists s. split; [reflexivity|]. exists []. rewrite app_nil_r. simpl.
    split; [reflexivity|lia].
  - destruct (Z.ltb_spec elapsed timeout_ms) as [L|L].
    + unfold bind, page_invoke.
      destruct (never_ready (page_world s)) as [w1 ->]. cbn [page_world page_trace].
      destruct (waits_return 300 w1) as [w2 ->]. cbn [page_world page_trace].
      destruct (IH (elapsed + 300)%Z
                  (mk_page_session w2
                     ((page_trace s ++ [PageCall ResultsReady])
                      ++ [PageCall (PageWaitForTimeout 300)])))
        as [s' [E [a2 [T B]]]]; [lia|].
      exists s'. split; [exact E|].
      exists (PageCall ResultsReady :: PageCall (PageWaitForTimeout 300) :: a2).
      split; [rewrite T; cbn [page_trace]; now rewrite <- !app_assoc|].
      change (total_wait (PageCall ResultsReady
                            :: PageCall (PageWaitForTimeout 300) :: a2))
        with (0 + (300 + total_wait a2))%Z.
      lia.
    + exists s. split; [reflexivity|]. exists []. rewrite app_nil_r. simpl.
      split; [reflexivity|lia].
Qed.

End ResultsWait.

(** A timeout of [wait_for_results] is silent: on a page whose results
    never come it returns as it does when they have come, without an
    exception, after having waited for the timeout. *)
Theorem wait_for_results_times_out_silently {W : Type} `{PageDriver W}
  (fuel : nat) (timeout_ms : Z) (s : page_session W) :
  (forall w : W, exists w', page_perform ResultsReady w = (Ret false, w')) ->
  (forall (ms : Z) (w : W),
      exists w', page_perform (PageWaitForTimeout ms) w = (Ret tt, w')) ->
  Z.to_nat timeout_ms <= fuel ->
  exists s',
    wait_for_results fuel timeout_ms s = (Ret (Some tt), s')
    /\ exists added,
         page_trace s' = page_trace s ++ added
         /\ (Z.max 0 timeout_ms <= total_wait added)%Z.
Proof.
  intros Never Waits Fuel. unfold wait_for_results.
  destruct (@wait_for_results_from_times_out W _ Never Waits fuel 0 timeout_ms s)
    as [s' [E [added [T B]]]]; [now rewrite Z.sub_0_r|].
  exists s'. split; [exact E|]. exists added. split; [exact T|].
  now rewrite Z.sub_0_r in B.
Qed.

Lemma wait_for_results_times_out_silently_witness :
  exists s',
    @wait_for_results nat still_page 700 700 (mk_page_session 0 [])
    = (Ret (Some tt), s')
    /\ exists added,
         page_trace s' = page_trace (mk_page_session 0 []) ++ added
         /\ (Z.max 0 700 <= total_wait added)%Z.
Proof.
  apply (@wait_for_results_times_out_silently nat still_page 700 700%Z
           (mk_page_session 0 [])).
  - intros w. exists w. reflexivity.
  - intros ms w. exists (S w). reflexivity.
  - vm_compute. lia.
Defined.

Section Candidates.
Context {W : Type} `{PageDriver W}.

Lemma page_invoke_ret_inv {T : Type} (o : page_op T) (s s' : page_session W) (a : T) :
  page_invoke o s = (Ret a, s') ->
  page_perform o (page_world s) = (Ret a, page_world s')
  /\ page_trace s' = page_trace s ++ [PageCall o].
Proof.
  unfold page_invoke. destruct (page_perform o (page_world s)) as [[x|e] w1];
    [|discriminate].
  intros E. injection E as -> <-. auto.
Qed.

Lemma visible_from_hit (selector : str) (idx remaining : nat) (s s' : page_session W)
  (c : locator) :
  visible_from selector idx remaining s = (Ret (Some c), s') ->
  exists before w0,
    page_trace s' = before ++ [PageCall (IsVisible c)]
    /\ page_perform (IsVisible c) w0 = (Ret true, page_world s')
    /\ fst c = selector.
Proof.
  revert idx s. induction remaining as [|n IH]; intros idx s E; simpl in E.
  - apply ret_inv in E as [E _]. discriminate E.
  - bind_inv E. destruct a.
    + apply ret_inv in E as [E <-]. injection E as <-.
      unfold try_except in E0.
      destruct (page_invoke (IsVisible (selector, idx)) s) as [[v|e] s1] eqn:V.
      * injection E0 as -> ->. apply page_invoke_ret_inv in V as [P T].
        exists (page_trace s), (page_world s). auto.
      * destruct (is_playwright_error e); discriminate E0.
    + eapply IH, E.
Qed.

Lemma visible_enabled_from_hit (selector : str) (idx remaining : nat)
  (s s' : page_session W) (c : locator) :
  visible_enabled_from selector idx remaining s = (Ret (Some c), s') ->
  exists before w0 w1,
    page_trace s' = before ++ [PageCall (IsVisible c); PageCall (IsEnabled c)]
    /\ page_perform (IsVisible c) w0 = (Ret true, w1)
    /\ page_perform (IsEnabled c) w1 = (Ret true, page_world s')
    /\ fst c = selector.
Proof.
  revert idx s. induction remaining as [|n IH]; intros idx s E; simpl in E.
  - apply ret_inv in E as [E _]. discriminate E.
  - bind_inv E. destruct a.
    + apply ret_inv in E as [E <-]. injection E as <-.
      unfold try_except in E0.
      destruct (bind (page_invoke (IsVisible (selector, idx))) _ s)
        as [[v|e] s1] eqn:V.
      * injection E0 as -> ->. bind_inv V. destruct a.
        { apply page_invoke_ret_inv in E as [P0 T0].
          apply page_invoke_ret_inv in V as [P1 T1].
          eexists (page_trace s), (page_world s), _.
          rewrite T1, T0, <- app_assoc.
          split; [reflexivity|]. split; [exact P0|]. split; [exact P1|reflexivity]. }
        { apply ret_inv in V as [V _]. discriminate V. }
      * destruct (is_playwright_error e); discriminate E0.
    + eapply IH, E.
Qed.

Lemma first_visible_enabled_hit (selectors : list str) (s s' : page_session W)
  (c : locator) :
  first_visible_enabled selectors s = (Ret (Some c), s') ->
  exists before w0 w1,
    page_trace s' = before ++ [PageCall (IsVisible c); PageCall (IsEnabled c)]
    /\ page_perform (IsVisible c) w0 = (Ret true, w1)
    /\ page_perform (IsEnabled c) w1 = (Ret true, page_world s')
    /\ In (fst c) selectors.
Proof.
  revert s. induction selectors as [|selector rest IH]; intros s E; simpl in E.
  - apply ret_inv in E as [E _]. discriminate E.
  - bind_inv E. bind_inv E. destruct a0 as [c0|].
    + apply ret_inv in E as [E <-]. injection E as ->.
      apply visible_enabled_from_hit in E1 as [before [w0 [w1 [T [P0 [P1 S]]]]]].
      exists before, w0, w1. simpl. auto.
    + apply IH in E as [before [w0 [w1 [T [P0 [P1 I]]]]]].
      exists before, w0, w1. simpl. auto.
Qed.

(** A candidate that [first_visible] returns comes from one of the
    selectors and has just answered that it is visible; one that
    [first_visible_enabled] returns has just answered that it is visible
    and then that it is enabled.  Nothing is asked of the page after
    that. *)
Theorem returned_candidate_was_tested (selectors : list str) (s s' : page_session W)
  (c : locator) :
  (first_visible selectors s = (Ret (Some c), s') ->
   exists before w0,
     page_trace s' = before ++ [PageCall (IsVisible c)]
     /\ page_perform (IsVisible c) w0 = (Ret true, page_world s')
     /\ In (fst c) selectors)
  /\ (first_visible_enabled selectors s = (Ret (Some c), s') ->
      exists before w0 w1,
        page_trace s' = before ++ [PageCall (IsVisible c); PageCall (IsEnabled c)]
        /\ page_perform (IsVisible c) w0 = (Ret true, w1)
        /\ page_perform (IsEnabled c) w1 = (Ret true, page_world s')
        /\ In (fst c) selectors).
Proof.
  split; revert s.
  - induction selectors as [|selector rest IH]; intros s E; simpl in E.
    + apply ret_inv in E as [E _]. discriminate E.
    + bind_inv E. bind_inv E. destruct a0 as [c0|].
      * apply ret_inv in E as [E <-]. injection E as ->.
        apply visible_from_hit in E1 as [before [w0 [T [P S]]]].
        exists before, w0. simpl. auto.
      * apply IH in E as [before [w0 [T [P I]]]].
        exists before, w0. simpl. auto.
  - intros s. apply first_visible_enabled_hit.
Qed.

(** When [click_search] returns, it has either clicked (with the timeout
    of 2500 ms) a candidate of the search button selectors, right after
    that candidate had answered that it is visible and that it is enabled,
    the click being its last call; or, only if the forced submit is
    allowed, its last call was a forced submit that succeeded.  In every
    other case it raises. *)
Theorem click_search_returns_after_a_submit (allow_force_submit : bool)
  (s s' : page_session W) :
  click_search allow_force_submit s = (Ret tt, s') ->
  (exists before c w0 w1 w2,
      page_trace s' = before ++ [PageCall (IsVisible c); PageCall (IsEnabled c);
                                 PageCall (LocatorClick c 2500)]
      /\ page_perform (IsVisible c) w0 = (Ret true, w1)
      /\ page_perform (IsEnabled c) w1 = (Ret true, w2)
      /\ page_perform (LocatorClick c 2500) w2 = (Ret tt, page_world s')
      /\ In (fst c) SEARCH_BUTTON_SELECTORS)
  \/ (allow_force_submit = true
      /\ exists before w0,
           page_trace s' = before ++ [PageCall ForceSubmitSearch]
           /\ page_perform ForceSubmitSearch w0 = (Ret true, page_world s')).
Proof.
  intros E. unfold click_search in E. bind_inv E. destruct a as [c|].
  - left. apply first_visible_enabled_hit in E0 as [before [w0 [w1 [T [P0 [P1 I]]]]]].
    apply page_invoke_ret_inv in E as [P2 T2].
    exists before, c, w0, w1, (page_world s0).
    rewrite T2, T, <- app_assoc. auto.
  - bind_inv E. destruct a.
    + apply ret_inv in E as [_ <-]. right.
      destruct allow_force_submit.
      * apply page_invoke_ret_inv in E1 as [P T]. eauto.
      * apply ret_inv in E1 as [E1 _]. discriminate E1.
    + bind_inv E. discriminate E.
Qed.

End Candidates.

Lemma click_search_returns_after_a_submit_witness :
  exists before c w0 w1 w2,
    page_trace (snd (@click_search nat button_page false (mk_page_session 2 [])))
    = before ++ [PageCall (IsVisible c); PageCall (IsEnabled c);
                 PageCall (LocatorClick c 2500)]
    /\ @page_perform nat button_page _ (IsVisible c) w0 = (Ret true, w1)
    /\ @page_perform nat button_page _ (IsEnabled c) w1 = (Ret true, w2)
    /\ @page_perform nat button_page _ (LocatorClick c 2500) w2
       = (Ret tt,
          page_world (snd (@click_search nat button_page false (mk_page_session 2 []))))
    /\ In (fst c) SEARCH_BUTTON_SELECTORS.
Proof.
  destruct (@click_search_returns_after_a_submit nat button_page false
              (mk_page_session 2 [])
              (snd (@click_search nat button_page false (mk_page_session 2 []))))
    as [Clicked|[Forced _]].
  - vm_compute. reflexivity.
  - exact Clicked.
  - discriminate Forced.
Defined.

(** ** [maybe_select_record_type], lines 106-122 *)

Section RecordType.
Context {W : Type} `{PageDriver W} `{Runtime}.

Lemma choose_among_calls (wanted_norm : str) (select : handle) (options : list handle)
  (s : page_session W) :
  exists added,
    page_trace (snd (choose_among wanted_norm select options s)) = page_trace s ++ added
    /\ ((filter is_select_option added = []
         /\ fst (choose_among wanted_norm select options s) <> Ret true)
        \/ (exists before c,
              added = before ++ [c] /\ is_select_option c = true
              /\ filter is_select_option before = []
              /\ fst (choose_among wanted_norm select options s) <> Ret false)).
Proof.
  revert s. induction options as [|element rest IH]; intros s; cbn [choose_among].
  - exists []. cbn. rewrite app_nil_r. split; [reflexivity|]. left.
    split; [reflexivity|discriminate].
  - unfold bind, page_invoke.
    destruct (page_perform (InnerText element) (page_world s)) as [[text|e] w1];
      cbn [snd fst page_world page_trace].
    + destruct (contains wanted_norm (casefold (normalize (VStr text))));
        cbn [snd fst page_world page_trace].
      * destruct (page_perform (GetAttributeValue element) w1) as [[[v|]|e] w2];
          cbn [snd fst page_world page_trace].
        { destruct (page_perform (SelectOptionByValue select v) w2) as [[[]|e] w3];
            cbn [snd fst page_trace ret];
            exists [PageCall (InnerText element); PageCall (GetAttributeValue element);
                    PageCall (SelectOptionByValue select v)];
            rewrite <- !app_assoc; (split; [reflexivity|]); right;
            exists [PageCall (InnerText element); PageCall (GetAttributeValue element)],
              (PageCall (SelectOptionByValue select v));
            (split; [reflexivity|]); (split; [reflexivity|]);
            (split; [reflexivity|discriminate]). }
        { destruct (page_perform
                      (SelectOptionByLabel select (normalize (VStr text))) w2)
            as [[[]|e] w3];
            cbn [snd fst page_trace ret];
            exists [PageCall (InnerText element); PageCall (GetAttributeValue element);
                    PageCall (SelectOptionByLabel select (normalize (VStr text)))];
            rewrite <- !app_assoc; (split; [reflexivity|]); right;
            exists [PageCall (InnerText element); PageCall (GetAttributeValue element)],
              (PageCall (SelectOptionByLabel select (normalize (VStr text))));
            (split; [reflexivity|]); (split; [reflexivity|]);
            (split; [reflexivity|discriminate]). }
        { exists [PageCall (InnerText element); PageCall (GetAttributeValue element)].
          rewrite <- !app_assoc. split; [reflexivity|]. left.
          split; [reflexivity|discriminate]. }
      * destruct (IH (mk_page_session w1
                        (page_trace s ++ [PageCall (InnerText element)])))
          as [a2 [E2 Q2]].
        exists (PageCall (InnerText element) :: a2).
        split; [rewrite E2; cbn [page_trace]; now rewrite <- app_assoc|].
        destruct Q2 as [[F N]|[before [c [-> [S [F N]]]]]]; [left|right].
        { split; [exact F|exact N]. }
        { exists (PageCall (InnerText element) :: before), c.
          split; [reflexivity|]. split; [exact S|]. split; [exact F|exact N]. }
    + exists [PageCall (InnerText element)]. split; [reflexivity|]. left.
      split; [reflexivity|discriminate].
Qed.

Lemma choose_in_calls (wanted_norm : str) (selects : list handle) (s : page_session W) :
  exists added,
    page_trace (snd (choose_in wanted_norm selects s)) = page_trace s ++ added
    /\ (filter is_select_option added = []
        \/ exists before c,
             added = before ++ [c] /\ is_select_option c = true
             /\ filter is_select_option before = []).
Proof.
  revert s. induction selects as [|select rest IH]; intros s; simpl.
  - exists []. rewrite app_nil_r. auto.
  - unfold bind at 1. unfold page_invoke at 1.
    destruct (page_perform (QueryOptions select) (page_world s)) as [[options|e] w1];
      cbn [snd fst].
    + unfold bind.
      destruct (choose_among_calls wanted_norm select options
                  (mk_page_session w1 (page_trace s ++ [PageCall (QueryOptions select)])))
        as [a1 [E1 Q1]].
      destruct (choose_among wanted_norm select options _) as [[[|]|e] s1];
        cbn [snd fst page_trace ret] in *.
      * exists (PageCall (QueryOptions select) :: a1).
        split; [rewrite E1; now rewrite <- app_assoc|].
        destruct Q1 as [[F _]|[before [c [-> [S [F _]]]]]]; [now left|right].
        exists (PageCall (QueryOptions select) :: before), c. auto.
      * destruct (IH s1) as [a2 [E2 Q2]].
        destruct Q1 as [[F1 _]|[before [c [_ [_ [_ N]]]]]]; [|now contradiction N].
        exists (PageCall (QueryOptions select) :: a1 ++ a2).
        split; [rewrite E2, E1; now rewrite <- !app_assoc|].
        destruct Q2 as [F2|[before [c [-> [S F2]]]]].
        { left. simpl. now rewrite filter_app, F1, F2. }
        { right. exists (PageCall (QueryOptions select) :: a1 ++ before), c.
          split; [now rewrite app_assoc|]. split; [exact S|].
          simpl. now rewrite filter_app, F1, F2. }
      * exists (PageCall (QueryOptions select) :: a1).
        split; [rewrite E1; now rewrite <- app_assoc|].
        destruct Q1 as [[F _]|[before [c [-> [S [F _]]]]]]; [now left|right].
        exists (PageCall (QueryOptions select) :: before), c. auto.
    + exists [PageCall (QueryOptions select)]. auto.
Qed.

(** [maybe_select_record_type] chooses at most one option, and a choice is
    its last call; without a wanted type (none, or an empty one) it does
    not touch the page. *)
Theorem record_type_is_chosen_at_most_once (wanted : option str) (s : page_session W) :
  exists added,
    page_trace (snd (maybe_select_record_type wanted s)) = page_trace s ++ added
    /\ (filter is_select_option added = []
        \/ exists before c,
             added = before ++ [c] /\ is_select_option c = true
             /\ filter is_select_option before = [])
    /\ (wanted = None \/ wanted = Some [] -> added = []).
Proof.
  unfold maybe_select_record_type. destruct wanted as [[|c text]|]; cbn [nonempty negb].
  - exists []. cbn. rewrite app_nil_r. auto.
  - unfold bind, page_invoke.
    destruct (page_perform QuerySelects (page_world s)) as [[selects|e] w1];
      cbn [snd fst].
    + destruct (choose_in_calls (casefold (c :: text)) selects
                  (mk_page_session w1 (page_trace s ++ [PageCall QuerySelects])))
        as [a1 [E1 Q1]].
      exists (PageCall QuerySelects :: a1).
      split; [rewrite E1; cbn [page_trace]; now rewrite <- app_assoc|].
      split; [|intros [N|N]; discriminate N].
      destruct Q1 as [F|[before [c0 [-> [S F]]]]]; [now left|right].
      exists (PageCall QuerySelects :: before), c0. auto.
    + exists [PageCall QuerySelects]. split; [reflexivity|].
      split; [now left|intros [N|N]; discriminate N].
  - exists []. cbn. rewrite app_nil_r. auto.
Qed.

End RecordType.

Example record_type_chosen_by_value :
  page_trace (snd (@maybe_select_record_type nat button_page latin_runtime
                     (Some (lit "orvos/FOGORVOS")) (mk_page_session 0 [])))
  = [ PageCall QuerySelects; PageCall (QueryOptions 7);
      PageCall (InnerText 0); PageCall (InnerText 1);
      PageCall (GetAttributeValue 1); PageCall (SelectOptionByValue 7 (lit "3")) ].
Proof. vm_compute. reflexivity. Qed.
